(** * Elf-lang interpreter: a shallow embedding of lexer.py, parser.py and
    evaluator.py, and the properties of the evaluator stated over it.

    Python values are modelled as the code has them:
    - [str] is a sequence of Unicode code points ([pystr]);
    - [int] is an unbounded integer ([Z]);
    - [float] is an IEEE-754 binary64 number, kept exactly as sign,
      integer significand and binary exponent ([pyfloat]);
    - [decimal.Decimal] is sign, integer coefficient and decimal exponent,
      or an infinity, or NaN ([decimal]);
    - exceptions are results: the evaluator's own [RuntimeError], and the
      exceptions of the Python runtime that the evaluator does not catch;
    - the limits of the interpreter that runs the program, the depth of
      its recursion and its memory, have no measure here: a run is
      followed to a depth [fuel], and the RecursionError or MemoryError
      that Python raises at its own limits is to the handlers of
      [evaluate_program] one more exception, which is why their property
      is stated over whatever parsing and evaluation do. *)

From Stdlib Require Import String Ascii.
From Stdlib Require Import ZArith List Bool Lia Permutation Sorted.
From Stdlib Require Import DecimalPos DecimalN.
Import ListNotations.
Open Scope Z_scope.
Set Warnings "-register-all".

(** ** Python strings *)

Definition codepoint := Z.
Definition pystr := list codepoint.

Definition py (s : string) : pystr :=
  map (fun a => Z.of_N (N_of_ascii a)) (list_ascii_of_string s).

Fixpoint pystr_eqb (a b : pystr) : bool :=
  match a, b with
  | [], [] => true
  | x :: a', y :: b' => (x =? y) && pystr_eqb a' b'
  | _, _ => false
  end.

(** [a < b] on [str]: lexicographic by code point. *)
Fixpoint pystr_ltb (a b : pystr) : bool :=
  match a, b with
  | _, [] => false
  | [], _ :: _ => true
  | x :: a', y :: b' => (x <? y) || ((x =? y) && pystr_ltb a' b')
  end.

(** [sep.join(parts)] *)
Fixpoint join (sep : pystr) (parts : list pystr) : pystr :=
  match parts with
  | [] => []
  | [p] => p
  | p :: rest => p ++ sep ++ join sep rest
  end.

(** [s.replace(old, new)] for a one-character [old]. *)
Definition replace_char (old : codepoint) (new : pystr) (s : pystr) : pystr :=
  flat_map (fun c => if c =? old then new else [c]) s.

(** [s.rstrip(c)] for a one-character argument. *)
Definition rstrip_char (c : codepoint) (s : pystr) : pystr :=
  rev ((fix drop (l : pystr) : pystr :=
          match l with
          | x :: l' => if x =? c then drop l' else l
          | [] => []
          end) (rev s)).

(** [s] repeated [n] times. *)
Definition pystr_repeat (s : pystr) (n : Z) : pystr :=
  concat (repeat s (Z.to_nat n)).

(** [sys.maxsize], the largest index and length. *)
Definition maxsize : Z := 2 ^ 63 - 1.

(** [len(s.encode('utf-8'))] *)
Definition utf8_len (s : pystr) : Z :=
  fold_right (fun c acc =>
    (if c <? 128 then 1 else if c <? 2048 then 2 else if c <? 65536 then 3 else 4) + acc) 0 s.

(** [str(n)] for a non-negative [int] in base ten. *)
Fixpoint uint_digits (d : Decimal.uint) : pystr :=
  match d with
  | Decimal.Nil => []
  | Decimal.D0 d => 48 :: uint_digits d
  | Decimal.D1 d => 49 :: uint_digits d
  | Decimal.D2 d => 50 :: uint_digits d
  | Decimal.D3 d => 51 :: uint_digits d
  | Decimal.D4 d => 52 :: uint_digits d
  | Decimal.D5 d => 53 :: uint_digits d
  | Decimal.D6 d => 54 :: uint_digits d
  | Decimal.D7 d => 55 :: uint_digits d
  | Decimal.D8 d => 56 :: uint_digits d
  | Decimal.D9 d => 57 :: uint_digits d
  end.

Definition str_of_nonneg (z : Z) : pystr := uint_digits (N.to_uint (Z.to_N z)).

(** The decimal numeral of an [int]. *)
Definition str_of_int (z : Z) : pystr :=
  if z <? 0 then 45 :: str_of_nonneg (- z) else str_of_nonneg z.

(** [sys.get_int_max_str_digits()]: the most decimal digits [int()] and
    [str()] convert between text and integer; beyond it both raise a
    [ValueError]. *)
Definition int_max_str_digits : Z := 4300.

(** ** The Unicode tables of the Python runtime

    [str.isdigit], [str.isalpha], [str.isalnum] and [str.isprintable] are
    fixed here for ASCII; above code point 127 they read the Unicode
    database of the interpreter, which the development takes as given. *)

Record unicode_db := {
  u_isdigit : codepoint -> bool;
  u_isalpha : codepoint -> bool;
  u_isalnum : codepoint -> bool;
  u_isprintable : codepoint -> bool;
  (** the decimal value of a digit character, as [int()] and [Decimal()]
      read it; [None] for a character they reject *)
  u_decimal : codepoint -> option Z
}.

(** A database with no letters or digits above ASCII.  On sources that are
    pure ASCII every database gives the same result. *)
Definition ascii_db : unicode_db :=
  {| u_isdigit := fun _ => false; u_isalpha := fun _ => false;
     u_isalnum := fun _ => false; u_isprintable := fun _ => true;
     u_decimal := fun _ => None |}.

Section Chars.
Variable U : unicode_db.

Definition isdigit (c : codepoint) : bool :=
  if c <? 128 then (48 <=? c) && (c <=? 57) else u_isdigit U c.

Definition isalpha (c : codepoint) : bool :=
  if c <? 128 then ((65 <=? c) && (c <=? 90)) || ((97 <=? c) && (c <=? 122))
  else u_isalpha U c.

Definition isalnum (c : codepoint) : bool :=
  if c <? 128 then
    ((48 <=? c) && (c <=? 57)) || ((65 <=? c) && (c <=? 90)) || ((97 <=? c) && (c <=? 122))
  else u_isalnum U c.

Definition isprintable (c : codepoint) : bool :=
  if c <? 128 then (32 <=? c) && (c <? 127) else u_isprintable U c.

Definition decimal_value (c : codepoint) : option Z :=
  if c <? 128 then (if (48 <=? c) && (c <=? 57) then Some (c - 48) else None)
  else u_decimal U c.

(** The digits of a literal, most significant first; [None] when a
    character has no decimal value. *)
Fixpoint digit_values (s : pystr) : option (list Z) :=
  match s with
  | [] => Some []
  | c :: s' =>
      match decimal_value c, digit_values s' with
      | Some d, Some ds => Some (d :: ds)
      | _, _ => None
      end
  end.
End Chars.

Definition digits_to_Z (ds : list Z) : Z := fold_left (fun acc d => 10 * acc + d) ds 0.

(** ** Results

    The evaluator raises its own [RuntimeError]; every other exception of
    the Python runtime reaches the caller of [evaluate_program] unchanged
    and is kept here with the text [str(e)] gives.  [OutOfFuel] stands for
    a run that is not followed to its end: one that needs more steps
    than it was given, or that sorts keys Python's [<] does not order. *)

Inductive result (A : Type) : Type :=
| Ok (a : A)
| RuntimeError (msg : pystr)
| PyException (msg : pystr)
| OutOfFuel.

Arguments Ok {A} a.
Arguments RuntimeError {A} msg.
Arguments PyException {A} msg.
Arguments OutOfFuel {A}.

Definition rbind {A B : Type} (r : result A) (k : A -> result B) : result B :=
  match r with
  | Ok a => k a
  | RuntimeError m => RuntimeError m
  | PyException m => PyException m
  | OutOfFuel => OutOfFuel
  end.

(** [str(z)] for an [int]: the numeral, or a [ValueError] when it has
    more than [int_max_str_digits] digits. *)
Definition int_str (z : Z) : result pystr :=
  if int_max_str_digits <? Z.of_nat (length (str_of_nonneg (Z.abs z))) then
    PyException (py "Exceeds the limit (4300 digits) for integer string conversion; use sys.set_int_max_str_digits() to increase the limit")
  else Ok (str_of_int z).

(** ** binary64 floats

    A finite float is [(-1)^neg * m * 2^e], kept in canonical form:
    [2^52 <= m < 2^53] and [-1074 <= e <= 971] for a normal number,
    [m < 2^52] and [e = -1074] for a subnormal one, [m = 0], [e = 0] for
    zero. *)

Inductive pyfloat : Type :=
| FFin (neg : bool) (m : Z) (e : Z)
| FInf (neg : bool)
| FNaN.

(** [num/den] rounded to the nearest integer, ties to even. *)
Definition round_half_even (num den : Z) : Z :=
  let q := num / den in
  let r := num mod den in
  if 2 * r <? den then q
  else if den <? 2 * r then q + 1
  else if Z.even q then q else q + 1.

(** [n/d >= 2^k] for [n, d > 0]. *)
Definition ge_pow2 (n d k : Z) : bool :=
  if 0 <=? k then d * 2 ^ k <=? n else d <=? n * 2 ^ (- k).

(** [floor (log2 (n/d))] for [n, d > 0]. *)
Definition binade (n d : Z) : Z :=
  let k := Z.log2 n - Z.log2 d in
  if ge_pow2 n d k then k else k - 1.

(** The binary64 number nearest to [n/d] ([n >= 0], [d > 0]), ties to
    even; [None] when it lies beyond the largest finite float. *)
Definition round_binary64 (n d : Z) : option (Z * Z) :=
  if n =? 0 then Some (0, 0)
  else
    let e := Z.max (binade n d - 52) (-1074) in
    let m := if 0 <=? e then round_half_even n (d * 2 ^ e)
             else round_half_even (n * 2 ^ (- e)) d in
    let '(m, e) := if m =? 2 ^ 53 then (2 ^ 52, e + 1) else (m, e) in
    if 971 <? e then None
    else if m =? 0 then Some (0, 0) else Some (m, e).

(** The float nearest to the rational [num/den] ([den > 0]); an exact
    zero takes the sign [zero_neg], an overflow gives an infinity. *)
Definition float_of_ratio (zero_neg : bool) (num den : Z) : pyfloat :=
  if num =? 0 then FFin zero_neg 0 0
  else match round_binary64 (Z.abs num) den with
       | Some (m, e) => FFin (num <? 0) m e
       | None => FInf (num <? 0)
       end.

(** A finite float as an exact fraction. *)
Definition float_ratio (neg : bool) (m e : Z) : Z * Z :=
  let s := if neg then - m else m in
  if 0 <=? e then (s * 2 ^ e, 1) else (s, 2 ^ (- e)).

(** [a / b] on two [int]s, [b <> 0]: the correctly rounded quotient, or
    [OverflowError]. *)
Definition int_true_div (a b : Z) : result pyfloat :=
  match round_binary64 (Z.abs a) (Z.abs b) with
  | Some (m, e) => Ok (FFin (xorb (a <? 0) (b <? 0)) m e)
  | None => PyException (py "integer division result too large for a float")
  end.

(** [int(x)] on a float: truncation toward zero. *)
Definition int_of_float (x : pyfloat) : result Z :=
  match x with
  | FFin neg m e =>
      let a := if 0 <=? e then m * 2 ^ e else m / 2 ^ (- e) in
      Ok (if neg then - a else a)
  | FInf _ => PyException (py "cannot convert float infinity to integer")
  | FNaN => PyException (py "cannot convert float NaN to integer")
  end.

(** [float(z)] on an [int]. *)
Definition float_of_int (z : Z) : result pyfloat :=
  match round_binary64 (Z.abs z) 1 with
  | Some (m, e) => Ok (FFin (z <? 0) m e)
  | None => PyException (py "int too large to convert to float")
  end.

Definition float_compare_fin (n1 : bool) (m1 e1 : Z) (n2 : bool) (m2 e2 : Z) : comparison :=
  let s1 := if n1 then - m1 else m1 in
  let s2 := if n2 then - m2 else m2 in
  let e0 := Z.min e1 e2 in
  Z.compare (s1 * 2 ^ (e1 - e0)) (s2 * 2 ^ (e2 - e0)).

(** [x < y] on floats. *)
Definition float_ltb (x y : pyfloat) : bool :=
  match x, y with
  | FNaN, _ | _, FNaN => false
  | FInf n1, FInf n2 => n1 && negb n2
  | FInf n1, FFin _ _ _ => n1
  | FFin _ _ _, FInf n2 => negb n2
  | FFin n1 m1 e1, FFin n2 m2 e2 =>
      match float_compare_fin n1 m1 e1 n2 m2 e2 with Lt => true | _ => false end
  end.

(** [x == y] on floats. *)
Definition float_eqb (x y : pyfloat) : bool :=
  match x, y with
  | FNaN, _ | _, FNaN => false
  | FInf n1, FInf n2 => Bool.eqb n1 n2
  | FFin n1 m1 e1, FFin n2 m2 e2 =>
      match float_compare_fin n1 m1 e1 n2 m2 e2 with Eq => true | _ => false end
  | _, _ => false
  end.

Definition float_is_zero (x : pyfloat) : bool :=
  match x with FFin _ m _ => m =? 0 | _ => false end.

Definition float_sign (x : pyfloat) : bool :=
  match x with FFin n _ _ => n | FInf n => n | FNaN => false end.

Definition float_neg (x : pyfloat) : pyfloat :=
  match x with
  | FFin n m e => FFin (negb n) m e
  | FInf n => FInf (negb n)
  | FNaN => FNaN
  end.

(** [x + y] *)
Definition float_add (x y : pyfloat) : pyfloat :=
  match x, y with
  | FNaN, _ | _, FNaN => FNaN
  | FInf n1, FInf n2 => if Bool.eqb n1 n2 then FInf n1 else FNaN
  | FInf n1, _ => FInf n1
  | _, FInf n2 => FInf n2
  | FFin n1 m1 e1, FFin n2 m2 e2 =>
      let '(a, b) := float_ratio n1 m1 e1 in
      let '(c, d) := float_ratio n2 m2 e2 in
      float_of_ratio (n1 && n2) (a * d + c * b) (b * d)
  end.

(** [x - y] *)
Definition float_sub (x y : pyfloat) : pyfloat := float_add x (float_neg y).

(** [x * y] *)
Definition float_mul (x y : pyfloat) : pyfloat :=
  let s := xorb (float_sign x) (float_sign y) in
  match x, y with
  | FNaN, _ | _, FNaN => FNaN
  | FInf _, _ => if float_is_zero y then FNaN else FInf s
  | _, FInf _ => if float_is_zero x then FNaN else FInf s
  | FFin n1 m1 e1, FFin n2 m2 e2 =>
      let '(a, b) := float_ratio n1 m1 e1 in
      let '(c, d) := float_ratio n2 m2 e2 in
      float_of_ratio s (a * c) (b * d)
  end.

(** [x / y] for [y <> 0] *)
Definition float_div (x y : pyfloat) : pyfloat :=
  let s := xorb (float_sign x) (float_sign y) in
  match x, y with
  | FNaN, _ | _, FNaN => FNaN
  | FInf _, FInf _ => FNaN
  | FInf _, _ => FInf s
  | _, FInf _ => FFin s 0 0
  | FFin n1 m1 e1, FFin n2 m2 e2 =>
      let '(a, b) := float_ratio n1 m1 e1 in
      let '(c, d) := float_ratio n2 m2 e2 in
      if c <? 0 then float_of_ratio s (- (a * d)) (b * (- c))
      else float_of_ratio s (a * d) (b * c)
  end.

(** ** decimal.Decimal *)

Inductive decimal : Type :=
| DFin (neg : bool) (coeff : Z) (exp : Z)
| DInf (neg : bool)
| DNaN.

Definition invalid_operation : pystr := py "[<class 'decimal.InvalidOperation'>]".

Definition ndigits (c : Z) : Z := Z.of_nat (length (str_of_nonneg c)).

(** Position of the first dot of a literal, if any. *)
Fixpoint split_dot (s : pystr) : pystr * option pystr :=
  match s with
  | [] => ([], None)
  | c :: s' =>
      if c =? 46 then ([], Some s')
      else let '(a, b) := split_dot s' in (c :: a, b)
  end.

Section DecimalOfString.
Variable U : unicode_db.

(** [Decimal(s)] for the text of a number literal: digits with at most
    one dot. *)
Definition decimal_of_str (s : pystr) : result decimal :=
  let '(ip, fp) := split_dot s in
  let fp := match fp with Some f => f | None => [] end in
  match ip ++ fp, digit_values U (ip ++ fp) with
  | _ :: _, Some ds => Ok (DFin false (digits_to_Z ds) (- Z.of_nat (length fp)))
  | _, _ => PyException (py "[<class 'decimal.ConversionSyntax'>]")
  end.

(** The number of characters of [s] that [int()] reads as digits before
    it meets one without a decimal value. *)
Fixpoint leading_digits (s : pystr) : nat :=
  match s with
  | c :: s' => match decimal_value U c with Some _ => S (leading_digits s') | None => O end
  | [] => O
  end.

(** [int(s)] for the text of an integer literal; [bad] is the message of
    the [ValueError] raised on a character without a decimal value.  The
    digits are counted first, and more than [int_max_str_digits] of them
    are a [ValueError] of their own. *)
Definition int_of_str (bad : pystr) (s : pystr) : result Z :=
  let digits := Z.of_nat (leading_digits s) in
  if int_max_str_digits <? digits then
    PyException (py "Exceeds the limit (4300 digits) for integer string conversion: value has "
                 ++ str_of_int digits
                 ++ py " digits; use sys.set_int_max_str_digits() to increase the limit")
  else
    match s, digit_values U s with
    | _ :: _, Some ds => Ok (digits_to_Z ds)
    | _, _ => PyException bad
    end.

End DecimalOfString.

(** Exact comparison of two finite decimals. *)
Definition decimal_compare_fin (n1 : bool) (c1 e1 : Z) (n2 : bool) (c2 e2 : Z) : comparison :=
  let s1 := if n1 then - c1 else c1 in
  let s2 := if n2 then - c2 else c2 in
  let e0 := Z.min e1 e2 in
  Z.compare (s1 * 10 ^ (e1 - e0)) (s2 * 10 ^ (e2 - e0)).

(** [a == b] on decimals. *)
Definition decimal_eqb (a b : decimal) : bool :=
  match a, b with
  | DNaN, _ | _, DNaN => false
  | DInf n1, DInf n2 => Bool.eqb n1 n2
  | DFin n1 c1 e1, DFin n2 c2 e2 =>
      match decimal_compare_fin n1 c1 e1 n2 c2 e2 with Eq => true | _ => false end
  | _, _ => false
  end.

(** [(a > b) - (a < b)] on decimals; comparing a NaN signals. *)
Definition decimal_cmp (a b : decimal) : result Z :=
  match a, b with
  | DNaN, _ | _, DNaN => PyException invalid_operation
  | DInf n1, DInf n2 => Ok (if Bool.eqb n1 n2 then 0 else if n1 then -1 else 1)
  | DInf n1, DFin _ _ _ => Ok (if n1 then -1 else 1)
  | DFin _ _ _, DInf n2 => Ok (if n2 then 1 else -1)
  | DFin n1 c1 e1, DFin n2 c2 e2 =>
      Ok (match decimal_compare_fin n1 c1 e1 n2 c2 e2 with Lt => -1 | Eq => 0 | Gt => 1 end)
  end.

(** [d != 0] *)
Definition decimal_nonzero (d : decimal) : bool :=
  match d with DFin _ c _ => negb (c =? 0) | _ => true end.

(** [Decimal(z)] for an [int]. *)
Definition decimal_of_int (z : Z) : decimal := DFin (z <? 0) (Z.abs z) 0.

(** [float(d)] *)
Definition float_of_decimal (d : decimal) : pyfloat :=
  match d with
  | DFin neg c e =>
      let s := if neg then - c else c in
      if c =? 0 then FFin neg 0 0
      else if 0 <=? e then float_of_ratio neg (s * 10 ^ e) 1
      else float_of_ratio neg s (10 ^ (- e))
  | DInf neg => FInf neg
  | DNaN => FNaN
  end.

(** The context of the module sets [prec = 50]: a result with more digits
    is rounded half-even to fifty. *)
Definition prec : Z := 50.

Definition decimal_fix (neg : bool) (c e : Z) : decimal :=
  let n := ndigits c in
  if n <=? prec then DFin neg c e
  else
    let k := n - prec in
    let c' := round_half_even c (10 ^ k) in
    if ndigits c' <=? prec then DFin neg c' (e + k)
    else DFin neg (c' / 10) (e + k + 1).

(** [-d] *)
Definition decimal_neg (d : decimal) : decimal :=
  match d with
  | DFin neg c e => if c =? 0 then decimal_fix false c e else decimal_fix (negb neg) c e
  | DInf neg => DInf (negb neg)
  | DNaN => DNaN
  end.

(** [str(d)] *)
Definition decimal_str (d : decimal) : pystr :=
  match d with
  | DNaN => py "NaN"
  | DInf neg => (if neg then py "-" else []) ++ py "Infinity"
  | DFin neg c e =>
      let digits := str_of_nonneg c in
      let n := Z.of_nat (length digits) in
      let leftdigits := e + n in
      let dotplace := if (e <=? 0) && (-6 <? leftdigits) then leftdigits else 1 in
      let intpart :=
        if dotplace <=? 0 then py "0"
        else if n <=? dotplace then digits ++ repeat 48 (Z.to_nat (dotplace - n))
        else firstn (Z.to_nat dotplace) digits in
      let fracpart :=
        if dotplace <=? 0 then py "." ++ repeat 48 (Z.to_nat (- dotplace)) ++ digits
        else if n <=? dotplace then []
        else py "." ++ skipn (Z.to_nat dotplace) digits in
      let ex :=
        if leftdigits =? dotplace then []
        else py "E" ++ (if 0 <=? leftdigits - dotplace then py "+" else [])
                    ++ str_of_int (leftdigits - dotplace) in
      (if neg then py "-" else []) ++ intpart ++ fracpart ++ ex
  end.

(** [d % 1 == 0]; the remainder signals when the integer quotient does not
    fit the precision. *)
Definition decimal_is_whole (d : decimal) : result bool :=
  match d with
  | DNaN => Ok false
  | DInf _ => PyException invalid_operation
  | DFin _ c e =>
      if 0 <=? e then
        if (c =? 0) || (c * 10 ^ e <? 10 ^ prec) then Ok true
        else PyException (py "[<class 'decimal.DivisionImpossible'>]")
      else
        if c / 10 ^ (- e) <? 10 ^ prec then Ok (c mod 10 ^ (- e) =? 0)
        else PyException (py "[<class 'decimal.DivisionImpossible'>]")
  end.

(** [int(d)] for a finite decimal. *)
Definition int_of_decimal (neg : bool) (c e : Z) : Z :=
  let a := if 0 <=? e then c * 10 ^ e else c / 10 ^ (- e) in
  if neg then - a else a.

(** [ElfDecimal.__repr__] *)
Definition decimal_repr (d : decimal) : result pystr :=
  rbind (decimal_is_whole d) (fun whole =>
    if whole then
      match d with
      | DFin neg c e => int_str (int_of_decimal neg c e)
      | _ => Ok (decimal_str d)
      end
    else Ok (rstrip_char 46 (rstrip_char 48 (decimal_str d)))).

(** *** [Decimal(str(x))] for a float [x]

    [str] of a float is the shortest digit string that reads back as the
    same float. *)

Definition ge_pow10 (n d k : Z) : bool :=
  if 0 <=? k then d * 10 ^ k <=? n else d <=? n * 10 ^ (- k).

(** The least [k] with [n/d < 10^k]. *)
Definition decpt_of (n d : Z) : Z :=
  let k0 := (binade n d * 30103) / 100000 in
  (fix up (fuel : nat) (k : Z) : Z :=
     match fuel with
     | O => k
     | S fuel' => if ge_pow10 n d k then up fuel' (k + 1) else k
     end) 4%nat k0.

(** Does the decimal [c * 10^p] read back as the float [(m, e)]? *)
Definition reads_back (m e c p : Z) : bool :=
  match (if 0 <=? p then round_binary64 (c * 10 ^ p) 1 else round_binary64 c (10 ^ (- p))) with
  | Some (m', e') => (m' =? m) && (e' =? e)
  | None => false
  end.

Fixpoint strip_zeros (fuel : nat) (c p : Z) : Z * Z :=
  match fuel with
  | O => (c, p)
  | S fuel' => if (negb (c =? 0)) && (c mod 10 =? 0) then strip_zeros fuel' (c / 10) (p + 1) else (c, p)
  end.

(** Shortest digits of the positive float [m * 2^e]: coefficient and
    decimal exponent.  [k] counts the digits tried so far. *)
Fixpoint shortest_digits (fuel : nat) (k : Z) (m e : Z) : Z * Z :=
  let '(n, d) := float_ratio false m e in
  let p := decpt_of n d - k in
  let lo := if 0 <=? p then n / (d * 10 ^ p) else (n * 10 ^ (- p)) / d in
  let hi := lo + 1 in
  let lo_ok := reads_back m e lo p in
  let hi_ok := reads_back m e hi p in
  (* hi is nearer than lo when 2x > (lo + hi) * 10^p; when both are as
     near, the one with the even last digit is taken *)
  let hi_nearer :=
    match (if 0 <=? p then Z.compare ((lo + hi) * 10 ^ p * d) (2 * n)
           else Z.compare ((lo + hi) * d) (2 * n * 10 ^ (- p))) with
    | Lt => true
    | Eq => Z.odd lo
    | Gt => false
    end in
  match fuel with
  | O => strip_zeros 20 lo p
  | S fuel' =>
      if lo_ok && hi_ok then strip_zeros 20 (if hi_nearer then hi else lo) p
      else if lo_ok then strip_zeros 20 lo p
      else if hi_ok then strip_zeros 20 hi p
      else shortest_digits fuel' (k + 1) m e
  end.

(** [Decimal(str(x))] *)
Definition decimal_of_float (x : pyfloat) : decimal :=
  match x with
  | FNaN => DNaN
  | FInf neg => DInf neg
  | FFin neg m e =>
      if m =? 0 then DFin neg 0 (-1)
      else
        let '(c, p) := shortest_digits 17 1 m e in
        let decpt := p + ndigits c in
        if (-4 <? decpt) && (decpt <=? 16) && (0 <=? p) then DFin neg (c * 10 ^ (p + 1)) (-1)
        else DFin neg c p
  end.

(** ** The AST of parser.py

    A node is a Python dict with a ["type"] tag; a Block is its list of
    statements.  Operators stay strings, as in the tree. *)

Inductive expr : Type :=
| EInteger (value : pystr)
| EDecimal (value : pystr)
| EString (value : pystr)
| EBoolean (value : bool)
| ENil
| EIdentifier (name : pystr)
| ELet (name : pystr) (value : expr)
| EMutableLet (name : pystr) (value : expr)
| ECall (function : expr) (arguments : list expr)
| EInfix (operator : pystr) (left right : expr)
| EPrefix (operator : pystr) (operand : expr)
| EAssignment (name : pystr) (value : expr)
| EList (items : list expr)
| ESet (items : list expr)
| EDictionary (items : list (expr * expr))
| EFunction (parameters : list pystr) (body : list stmt)
| EIf (condition : expr) (consequence : list stmt) (alternative : option (list stmt))
| EIndex (left index : expr)
| EFunctionComposition (functions : list expr)
| EFunctionThread (initial : expr) (functions : list expr)
with stmt : Type :=
| SExpression (value : expr)
| SComment (value : pystr).

Definition block := list stmt.

(** ** Values of evaluator.py

    [ElfFunction.closure_env] is either an [Environment] object, held by
    reference, or a plain dict of bindings.  [ElfBuiltinFunction.func] is
    one of the bound methods of the evaluator, or the [composed_call]
    closure that [compose_functions] builds over its two operands. *)

Inductive value : Type :=
| ElfInteger (v : Z)
| ElfDecimal (v : decimal)
| ElfString (v : pystr)
| ElfBoolean (v : bool)
| ElfNil
| ElfList (items : list value)
| ElfSet (items : list value)
| ElfDictionary (items : list (value * value))
| ElfFunction (parameters : list pystr) (body : block) (closure_env : closure)
| ElfBuiltinFunction (name : pystr) (func : native) (arity : Z) (partial_args : list value)
with closure : Type :=
| EnvRef (id : nat)
| EnvDict (bindings : list (pystr * value))
with native : Type :=
| builtin_puts
| builtin_push
| builtin_assoc
| builtin_first
| builtin_rest
| builtin_size
| builtin_map
| builtin_filter
| builtin_fold
| builtin_add
| builtin_subtract
| builtin_multiply
| builtin_divide
| composed_call (left right : value).

(** [type(v).__name__] *)
Definition type_name (v : value) : pystr :=
  match v with
  | ElfInteger _ => py "ElfInteger"
  | ElfDecimal _ => py "ElfDecimal"
  | ElfString _ => py "ElfString"
  | ElfBoolean _ => py "ElfBoolean"
  | ElfNil => py "ElfNil"
  | ElfList _ => py "ElfList"
  | ElfSet _ => py "ElfSet"
  | ElfDictionary _ => py "ElfDictionary"
  | ElfFunction _ _ _ => py "ElfFunction"
  | ElfBuiltinFunction _ _ _ _ => py "ElfBuiltinFunction"
  end.

(** [type(v).__name__[3:]] *)
Definition kind_name (v : value) : pystr := skipn 3 (type_name v).

(** [type(v).__name__.replace('Elf', '')]; no class name holds a second
    ["Elf"]. *)
Definition kind_name_replace (v : value) : pystr := skipn 3 (type_name v).

(** *** Sorting for the printed form *)

(** The tuples [(rank, payload)] that [_sort_key] returns, one constructor
    for each rank: [(0, int)], [(1, float)], [(2, str)], [(3, bool)],
    [(4, 0)] and [(5, str)]. *)
Inductive key : Type :=
| KInteger (z : Z)
| KDecimal (f : pyfloat)
| KString (s : pystr)
| KBoolean (b : bool)
| KNil
| KOther (s : pystr).

Definition rank (k : key) : Z :=
  match k with
  | KInteger _ => 0
  | KDecimal _ => 1
  | KString _ => 2
  | KBoolean _ => 3
  | KNil => 4
  | KOther _ => 5
  end.

(** [k1 < k2] as Python compares tuples: the first components decide
    unless they are equal, and then the payloads do. *)
Definition key_ltb (k1 k2 : key) : bool :=
  match k1, k2 with
  | KInteger x, KInteger y => x <? y
  | KDecimal x, KDecimal y => float_ltb x y
  | KString x, KString y => pystr_ltb x y
  | KBoolean x, KBoolean y => negb x && y
  | KNil, KNil => false
  | KOther x, KOther y => pystr_ltb x y
  | _, _ => rank k1 <? rank k2
  end.

Section Sorted.
Context {A : Type}.
Variable lt : A -> A -> bool.

Fixpoint insert_sorted (x : A) (l : list A) : list A :=
  match l with
  | [] => [x]
  | y :: l' => if lt x y then x :: y :: l' else y :: insert_sorted x l'
  end.

(** [sorted(l)]: Python's sort is stable and asks only [<]; on keys that
    [<] orders every stable sort returns the list that insertion from the
    left builds. *)
Definition sorted (l : list A) : list A :=
  fold_left (fun acc x => insert_sorted x acc) l [].

End Sorted.

Definition sorted_by_key {A : Type} (l : list (key * A)) : list (key * A) :=
  sorted (fun a b => key_ltb (fst a) (fst b)) l.

Definition is_decimal_key (k : key) : bool :=
  match k with KDecimal _ => true | _ => false end.

Definition is_nan_key (k : key) : bool :=
  match k with KDecimal FNaN => true | _ => false end.

(** Keys that [<] does not order: a NaN among two Decimal keys or more
    ([nan < x] and [x < nan] are both false).  What [sorted] returns for
    them depends on the comparisons its algorithm happens to make, which
    are not followed here: the printed form of such a Set or Dictionary
    is left open. *)
Definition unordered (keys : list key) : bool :=
  existsb is_nan_key keys && (1 <? length (filter is_decimal_key keys))%nat.

(** [_sort_key], given the printed form of the value for the last case. *)
Definition sort_key_of (v : value) (printed : result pystr) : result key :=
  match v with
  | ElfInteger z => Ok (KInteger z)
  | ElfDecimal d => Ok (KDecimal (float_of_decimal d))
  | ElfString s => Ok (KString s)
  | ElfBoolean b => Ok (KBoolean b)
  | ElfNil => Ok KNil
  | _ => rbind printed (fun s => Ok (KOther s))
  end.

Fixpoint sequence {A : Type} (l : list (result A)) : result (list A) :=
  match l with
  | [] => Ok []
  | r :: l' => rbind r (fun a => rbind (sequence l') (fun l'' => Ok (a :: l'')))
  end.

Definition dquote : pystr := [34].

Definition escape_string (s : pystr) : pystr :=
  replace_char 9 (py "\t") (replace_char 10 (py "\n") (replace_char 92 (py "\\") s)).

(** [str(v)], which is [__repr__] for every value class.  A Set or a
    Dictionary first takes the keys of all its items, sorts, and then
    prints the items in sorted order; where the keys are [unordered] the
    result is [OutOfFuel], the run being followed no further. *)
Fixpoint repr (v : value) : result pystr :=
  match v with
  | ElfInteger z => int_str z
  | ElfDecimal d => decimal_repr d
  | ElfString s => Ok (dquote ++ escape_string s ++ dquote)
  | ElfBoolean b => Ok (if b then py "true" else py "false")
  | ElfNil => Ok (py "nil")
  | ElfList items =>
      rbind (sequence (map repr items)) (fun items_repr =>
      Ok (py "[" ++ join (py ", ") items_repr ++ py "]"))
  | ElfSet items =>
      rbind (sequence (map (fun x => sort_key_of x (repr x)) items)) (fun keys =>
      if unordered keys then OutOfFuel
      else
        let sorted_items := sorted_by_key (combine keys (map repr items)) in
        rbind (sequence (map snd sorted_items)) (fun items_repr =>
        Ok (py "{" ++ join (py ", ") items_repr ++ py "}")))
  | ElfDictionary items =>
      rbind (sequence (map (fun x => sort_key_of (fst x) (repr (fst x))) items)) (fun keys =>
      if unordered keys then OutOfFuel
      else
        let sorted_pairs :=
          sorted_by_key (combine keys
            (map (fun x => rbind (repr (fst x)) (fun k =>
                           rbind (repr (snd x)) (fun v => Ok (k ++ py ": " ++ v)))) items)) in
        rbind (sequence (map snd sorted_pairs)) (fun pairs =>
        Ok (py "#{" ++ join (py ", ") pairs ++ py "}")))
  | ElfFunction parameters _ _ =>
      Ok (py "|" ++ join (py ", ") parameters ++ py "| { [closure] }")
  | ElfBuiltinFunction name _ arity partial_args =>
      match partial_args with
      | [] => Ok (py "<builtin " ++ name ++ py ">")
      | _ => Ok (py "<partial " ++ name ++ py "(" ++ str_of_int (Z.of_nat (length partial_args))
                 ++ py "/" ++ str_of_int arity ++ py ")>")
      end
  end.



(** ** Equality, truthiness, ordering *)

(** [values_equal] *)
Fixpoint values_equal (left right : value) : bool :=
  match left, right with
  | ElfInteger a, ElfInteger b => a =? b
  | ElfDecimal a, ElfDecimal b => decimal_eqb a b
  | ElfString a, ElfString b => pystr_eqb a b
  | ElfBoolean a, ElfBoolean b => Bool.eqb a b
  | ElfNil, ElfNil => true
  | ElfList litems, ElfList ritems =>
      (length litems =? length ritems)%nat &&
      (fix all_zip (ls rs : list value) : bool :=
         match ls, rs with
         | l :: ls', r :: rs' => values_equal l r && all_zip ls' rs'
         | _, _ => true
         end) litems ritems
  | ElfSet litems, ElfSet ritems =>
      (length litems =? length ritems)%nat &&
      forallb (fun left_item => existsb (fun right_item => values_equal left_item right_item) ritems) litems
  | ElfDictionary litems, ElfDictionary ritems =>
      (length litems =? length ritems)%nat &&
      forallb (fun lp => existsb (fun rp =>
                 values_equal (fst lp) (fst rp) && values_equal (snd lp) (snd rp)) ritems) litems
  | _, _ => false
  end.

(** [is_truthy]: the class defines it twice; the second definition, the
    one in force, is the one modelled. *)
Definition is_truthy (v : value) : bool :=
  match v with
  | ElfBoolean b => b
  | ElfNil => false
  | ElfInteger z => negb (z =? 0)
  | ElfDecimal d => decimal_nonzero d
  | ElfString s => negb (pystr_eqb s [])
  | ElfList items | ElfSet items => (0 <? length items)%nat
  | ElfDictionary items => (0 <? length items)%nat
  | _ => true
  end.

Definition sign_of_compare (lt gt : bool) : Z := Z.b2z gt - Z.b2z lt.

(** [compare_values] *)
Definition compare_values (left right : value) : result Z :=
  match left, right with
  | ElfInteger a, ElfInteger b => Ok (sign_of_compare (a <? b) (b <? a))
  | ElfInteger a, ElfDecimal b => decimal_cmp (decimal_of_int a) b
  | ElfDecimal a, ElfInteger b => decimal_cmp a (decimal_of_int b)
  | ElfDecimal a, ElfDecimal b => decimal_cmp a b
  | ElfString a, ElfString b => Ok (sign_of_compare (pystr_ltb a b) (pystr_ltb b a))
  | _, _ => RuntimeError (py "Cannot compare " ++ kind_name left ++ py " with " ++ kind_name right)
  end.

(** ** Arithmetic *)

Definition is_numeric (v : value) : bool :=
  match v with ElfInteger _ | ElfDecimal _ => true | _ => false end.

(** [float(v.value)] for a numeric value. *)
Definition float_of_value (v : value) : result pyfloat :=
  match v with
  | ElfInteger z => float_of_int z
  | ElfDecimal d => Ok (float_of_decimal d)
  | _ => PyException (py "float() argument must be a string or a real number")
  end.

(** [ElfDecimal(x)] for a float [x]. *)
Definition ElfDecimal_of_float (x : pyfloat) : value := ElfDecimal (decimal_of_float x).

Definition float_arith (op : pyfloat -> pyfloat -> pyfloat) (left right : value) : result value :=
  rbind (float_of_value left) (fun left_val =>
  rbind (float_of_value right) (fun right_val =>
  Ok (ElfDecimal_of_float (op left_val right_val)))).

Definition unsupported (op : pystr) (left right : value) : result value :=
  RuntimeError (py "Unsupported operation: " ++ kind_name left ++ py " " ++ op ++ py " " ++ kind_name right).

(** The loop of the Set union in [add_values]. *)
Fixpoint set_union (result_items : list value) (right_items : list value) : list value :=
  match right_items with
  | [] => result_items
  | item :: rest =>
      if existsb (fun existing => values_equal existing item) result_items
      then set_union result_items rest
      else set_union (result_items ++ [item]) rest
  end.

(** The inner loop of the Dictionary merge: overwrite the first pair with
    an equal key; [None] when there is none. *)
Fixpoint update_first (right_key right_value : value) (pairs : list (value * value))
  : option (list (value * value)) :=
  match pairs with
  | [] => None
  | (left_key, left_value) :: rest =>
      if values_equal left_key right_key then Some ((right_key, right_value) :: rest)
      else match update_first right_key right_value rest with
           | Some rest' => Some ((left_key, left_value) :: rest')
           | None => None
           end
  end.

Fixpoint dict_merge (result_pairs right_items : list (value * value)) : list (value * value) :=
  match right_items with
  | [] => result_pairs
  | (right_key, right_value) :: rest =>
      match update_first right_key right_value result_pairs with
      | Some updated => dict_merge updated rest
      | None => dict_merge (result_pairs ++ [(right_key, right_value)]) rest
      end
  end.

(** [add_values] *)
Definition add_values (left right : value) : result value :=
  match left, right with
  | ElfInteger a, ElfInteger b => Ok (ElfInteger (a + b))
  | ElfInteger _, ElfDecimal _ | ElfDecimal _, ElfInteger _ | ElfDecimal _, ElfDecimal _ => float_arith float_add left right
  | ElfString a, ElfString b => Ok (ElfString (a ++ b))
  | ElfString a, ElfInteger b => rbind (int_str b) (fun s => Ok (ElfString (a ++ s)))
  | ElfString a, ElfDecimal b => Ok (ElfString (a ++ decimal_str b))
  | ElfString a, _ => rbind (repr right) (fun r => Ok (ElfString (a ++ r)))
  | ElfInteger a, ElfString b => rbind (int_str a) (fun s => Ok (ElfString (s ++ b)))
  | ElfDecimal a, ElfString b => Ok (ElfString (decimal_str a ++ b))
  | _, ElfString b => rbind (repr left) (fun l => Ok (ElfString (l ++ b)))
  | ElfList a, ElfList b => Ok (ElfList (a ++ b))
  | ElfList _, ElfInteger _ => RuntimeError (py "Unsupported operation: List + Integer")
  | ElfSet a, ElfSet b => Ok (ElfSet (set_union a b))
  | ElfSet _, ElfInteger _ => RuntimeError (py "Unsupported operation: Set + Integer")
  | ElfDictionary a, ElfDictionary b => Ok (ElfDictionary (dict_merge a b))
  | _, _ => unsupported (py "+") left right
  end.

(** [subtract_values] *)
Definition subtract_values (left right : value) : result value :=
  match left, right with
  | ElfInteger a, ElfInteger b => Ok (ElfInteger (a - b))
  | ElfInteger _, ElfDecimal _ | ElfDecimal _, ElfInteger _ | ElfDecimal _, ElfDecimal _ => float_arith float_sub left right
  | _, _ => unsupported (py "-") left right
  end.

(** [s * n] on a [str], for [n >= 0]: an [OverflowError] when [n] is no
    index, or the result longer than a string gets.  (A string too long
    for the memory at hand is a [MemoryError] of the interpreter, which
    has no measure here.) *)
Definition str_repeat (s : pystr) (n : Z) : result value :=
  if maxsize <? n then PyException (py "cannot fit 'int' into an index-sized integer")
  else if maxsize <? Z.of_nat (length s) * n then PyException (py "repeated string is too long")
  else Ok (ElfString (pystr_repeat s n)).

(** [multiply_values] *)
Definition multiply_values (left right : value) : result value :=
  match left, right with
  | ElfInteger a, ElfInteger b => Ok (ElfInteger (a * b))
  | ElfInteger _, ElfDecimal _ | ElfDecimal _, ElfInteger _ | ElfDecimal _, ElfDecimal _ => float_arith float_mul left right
  | ElfString a, ElfInteger b =>
      if b <? 0 then RuntimeError (py "Unsupported operation: String * Integer (< 0)")
      else str_repeat a b
  | ElfString _, ElfDecimal _ => RuntimeError (py "Unsupported operation: String * Decimal")
  | _, _ => unsupported (py "*") left right
  end.

(** [divide_values] *)
Definition divide_values (left right : value) : result value :=
  match left, right with
  | ElfInteger a, ElfInteger b =>
      if b =? 0 then RuntimeError (py "Division by zero")
      else rbind (int_true_div a b) (fun q =>
           rbind (int_of_float q) (fun result => Ok (ElfInteger result)))
  | ElfInteger _, ElfDecimal _ | ElfDecimal _, ElfInteger _ | ElfDecimal _, ElfDecimal _ =>
      rbind (float_of_value left) (fun left_val =>
      rbind (float_of_value right) (fun right_val =>
      if float_is_zero right_val then RuntimeError (py "Division by zero")
      else Ok (ElfDecimal_of_float (float_div left_val right_val))))
  | _, _ => unsupported (py "/") left right
  end.

(** ** Indexing *)

(** [seq[idx]] after the bounds check of [index_value]; [wrap] builds the
    result from the element. *)
Definition index_seq {A : Type} (seq : list A) (idx : Z) (wrap : A -> value) : value :=
  let idx := if idx <? 0 then Z.of_nat (length seq) + idx else idx in
  if (0 <=? idx) && (idx <? Z.of_nat (length seq)) then
    match nth_error seq (Z.to_nat idx) with
    | Some x => wrap x
    | None => ElfNil
    end
  else ElfNil.

Fixpoint dict_lookup (items : list (value * value)) (index : value) : value :=
  match items with
  | [] => ElfNil
  | (key, val) :: rest => if values_equal key index then val else dict_lookup rest index
  end.

(** [index_value] *)
Definition index_value (target index : value) : result value :=
  match target with
  | ElfString string_val =>
      match index with
      | ElfInteger idx => Ok (index_seq string_val idx (fun c => ElfString [c]))
      | _ => RuntimeError (py "Unable to perform index operation, found: String["
                           ++ kind_name index ++ py "]")
      end
  | ElfList items =>
      match index with
      | ElfInteger idx => Ok (index_seq items idx (fun x => x))
      | _ => RuntimeError (py "Unable to perform index operation, found: List["
                           ++ kind_name index ++ py "]")
      end
  | ElfDictionary items => Ok (dict_lookup items index)
  | _ => RuntimeError (py "Cannot index into " ++ kind_name target)
  end.

(** ** The collection primitives that call no function *)

(** [builtin_push] *)
Definition builtin_push_impl (item collection : value) : result value :=
  match collection with
  | ElfList items => Ok (ElfList (items ++ [item]))
  | ElfSet items =>
      if existsb (fun existing => values_equal existing item) items
      then Ok (ElfSet items)
      else Ok (ElfSet (items ++ [item]))
  | _ => RuntimeError (py "Cannot push to " ++ kind_name collection)
  end.

(** The loop of [builtin_assoc]: the new pairs and [key_found]. *)
Fixpoint assoc_loop (key val : value) (items : list (value * value))
  : list (value * value) * bool :=
  match items with
  | [] => ([], false)
  | (existing_key, existing_value) :: rest =>
      let '(new_pairs, key_found) := assoc_loop key val rest in
      if values_equal existing_key key then ((key, val) :: new_pairs, true)
      else ((existing_key, existing_value) :: new_pairs, key_found)
  end.

(** [builtin_assoc] *)
Definition builtin_assoc_impl (key val dictionary : value) : result value :=
  match dictionary with
  | ElfDictionary items =>
      let '(new_pairs, key_found) := assoc_loop key val items in
      Ok (ElfDictionary (if key_found then new_pairs else new_pairs ++ [(key, val)]))
  | _ => RuntimeError (py "Cannot assoc to " ++ kind_name dictionary)
  end.

(** [builtin_first] *)
Definition builtin_first_impl (collection : value) : value :=
  match collection with
  | ElfList items | ElfSet items => match items with x :: _ => x | [] => ElfNil end
  | ElfString s => match s with c :: _ => ElfString [c] | [] => ElfNil end
  | ElfDictionary items => match items with (key, _) :: _ => key | [] => ElfNil end
  | _ => ElfNil
  end.

(** [builtin_rest] *)
Definition builtin_rest_impl (collection : value) : value :=
  match collection with
  | ElfList items => ElfList (tl items)
  | ElfString s => ElfString (tl s)
  | ElfSet items => ElfSet (tl items)
  | ElfDictionary items => ElfDictionary (tl items)
  | _ => ElfNil
  end.

(** [builtin_size] *)
Definition builtin_size_impl (collection : value) : value :=
  match collection with
  | ElfList items | ElfSet items => ElfInteger (Z.of_nat (length items))
  | ElfDictionary items => ElfInteger (Z.of_nat (length items))
  | ElfString s => ElfInteger (utf8_len s)
  | _ => ElfNil
  end.

(** ** [repr] of a Python [str], as exception messages quote it *)

Definition hex_digit (d : Z) : codepoint := if d <? 10 then 48 + d else 87 + d.

Fixpoint hex_fixed (width : nat) (z : Z) : pystr :=
  match width with
  | O => []
  | S w => hex_fixed w (z / 16) ++ [hex_digit (z mod 16)]
  end.

Section StrRepr.
Variable U : unicode_db.

Definition str_repr (s : pystr) : pystr :=
  let has c := existsb (fun x => x =? c) s in
  let quote := if has 39 && negb (has 34) then 34 else 39 in
  let esc (c : codepoint) : pystr :=
    if (c =? quote) || (c =? 92) then [92; c]
    else if c =? 9 then py "\t"
    else if c =? 10 then py "\n"
    else if c =? 13 then py "\r"
    else if (c <? 32) || (c =? 127) then py "\x" ++ hex_fixed 2 c
    else if c <? 127 then [c]
    else if isprintable U c then [c]
    else if c <? 256 then py "\x" ++ hex_fixed 2 c
    else if c <? 65536 then py "\u" ++ hex_fixed 4 c
    else py "\U" ++ hex_fixed 8 c in
  [quote] ++ flat_map esc s ++ [quote].

End StrRepr.

(** ** Environments and the evaluator state

    An [Environment] object is a frame in a store, named by its index;
    [variables] and [mutable] are its two dicts.  The state also holds
    [output_buffer]. *)

Fixpoint dict_get {V : Type} (d : list (pystr * V)) (name : pystr) : option V :=
  match d with
  | [] => None
  | (k, v) :: d' => if pystr_eqb k name then Some v else dict_get d' name
  end.

(** [d[name] = v] *)
Fixpoint dict_set {V : Type} (d : list (pystr * V)) (name : pystr) (v : V) : list (pystr * V) :=
  match d with
  | [] => [(name, v)]
  | (k, v0) :: d' => if pystr_eqb k name then (k, v) :: d' else (k, v0) :: dict_set d' name v
  end.

Record Environment : Type := {
  parent : option nat;
  variables : list (pystr * value);
  mutable : list (pystr * bool)
}.

Record state : Type := {
  envs : list Environment;
  output_buffer : list pystr
}.

Definition M (A : Type) : Type := state -> result A * state.

Definition ret {A : Type} (a : A) : M A := fun st => (Ok a, st).

Definition bind {A B : Type} (m : M A) (k : A -> M B) : M B :=
  fun st =>
    match m st with
    | (Ok a, st') => k a st'
    | (RuntimeError e, st') => (RuntimeError e, st')
    | (PyException e, st') => (PyException e, st')
    | (OutOfFuel, st') => (OutOfFuel, st')
    end.

Definition lift {A : Type} (r : result A) : M A := fun st => (r, st).

Definition raise {A : Type} (msg : pystr) : M A := fun st => (RuntimeError msg, st).

Declare Scope eval_scope.
Delimit Scope eval_scope with eval.
Notation "x <- m ;; k" := (bind m (fun x => k))
  (at level 100, m at next level, right associativity) : eval_scope.
Notation "m ;;; k" := (bind m (fun _ => k))
  (at level 100, right associativity) : eval_scope.
Open Scope eval_scope.

Fixpoint mapM {A B : Type} (f : A -> M B) (l : list A) : M (list B) :=
  match l with
  | [] => ret []
  | x :: l' => y <- f x ;; ys <- mapM f l' ;; ret (y :: ys)
  end.

Fixpoint update_nth {A : Type} (n : nat) (f : A -> A) (l : list A) : list A :=
  match l, n with
  | [], _ => []
  | x :: l', O => f x :: l'
  | x :: l', S n' => x :: update_nth n' f l'
  end.

(** [Environment(parent)] *)
Definition new_env (parent : option nat) : M nat :=
  fun st =>
    (Ok (length (envs st)),
     {| envs := envs st ++ [{| parent := parent; variables := []; mutable := [] |}];
        output_buffer := output_buffer st |}).

(** [Environment.define] *)
Definition define (env : nat) (name : pystr) (v : value) (is_mutable : bool) : M unit :=
  fun st =>
    (Ok tt,
     {| envs := update_nth env (fun f =>
                  {| parent := parent f;
                     variables := dict_set (variables f) name v;
                     mutable := dict_set (mutable f) name is_mutable |}) (envs st);
        output_buffer := output_buffer st |}).

(** [Environment.get]; the chain of parents is followed for at most
    [fuel] frames, and a chain never is longer than the store. *)
Fixpoint get_from (fuel : nat) (es : list Environment) (env : nat) (name : pystr) : result value :=
  match fuel with
  | O => OutOfFuel
  | S fuel' =>
      match nth_error es env with
      | None => OutOfFuel
      | Some f =>
          match dict_get (variables f) name with
          | Some v => Ok v
          | None =>
              match parent f with
              | Some p => get_from fuel' es p name
              | None => RuntimeError (py "Identifier can not be found: " ++ name)
              end
          end
      end
  end.

Definition get (env : nat) (name : pystr) : M value :=
  fun st => (get_from (length (envs st)) (envs st) env name, st).

(** [Environment.assign]: the frame that holds [name], or the error. *)
Fixpoint assign_target (fuel : nat) (es : list Environment) (env : nat) (name : pystr) : result nat :=
  match fuel with
  | O => OutOfFuel
  | S fuel' =>
      match nth_error es env with
      | None => OutOfFuel
      | Some f =>
          match dict_get (variables f) name with
          | Some _ =>
              match dict_get (mutable f) name with
              | Some true => Ok env
              | _ => RuntimeError (py "Variable '" ++ name ++ py "' is not mutable")
              end
          | None =>
              match parent f with
              | Some p => assign_target fuel' es p name
              | None => RuntimeError (py "Identifier can not be found: " ++ name)
              end
          end
      end
  end.

Definition assign (env : nat) (name : pystr) (v : value) : M unit :=
  fun st =>
    match assign_target (length (envs st)) (envs st) env name with
    | Ok target =>
        (Ok tt,
         {| envs := update_nth target (fun f =>
                      {| parent := parent f;
                         variables := dict_set (variables f) name v;
                         mutable := mutable f |}) (envs st);
            output_buffer := output_buffer st |})
    | RuntimeError e => (RuntimeError e, st)
    | PyException e => (PyException e, st)
    | OutOfFuel => (OutOfFuel, st)
    end.

(** [self.output_buffer.append(s)] *)
Definition emit (s : pystr) : M unit :=
  fun st => (Ok tt, {| envs := envs st; output_buffer := output_buffer st ++ [s] |}).

Definition global_env : nat := 0%nat.

(** ** The evaluator

    The methods of [Evaluator] call each other without bound; here each of
    them is a definition over [rec], the evaluator run with one unit of
    fuel less, and [run] ties the knot.  [rec] is asked to evaluate an
    expression in an environment, or to [call] a builtin. *)

Inductive request : Type :=
| Eval (e : expr) (env : nat)
| CallBuiltin (func : value) (args : list value).

Definition is_callable (v : value) : bool :=
  match v with
  | ElfFunction _ _ _ | ElfBuiltinFunction _ _ _ _ => true
  | _ => false
  end.

Definition is_dictionary (v : value) : bool :=
  match v with ElfDictionary _ => true | _ => false end.

Definition type_error : pystr := py "TypeError".

Section Evaluator.
Variable U : unicode_db.
Variable rec : request -> M value.

(** [evaluate_statement] *)
Definition evaluate_statement (s : stmt) (env : nat) : M value :=
  match s with
  | SExpression e => rec (Eval e env)
  | SComment _ => ret ElfNil
  end.

Fixpoint evaluate_statements (stmts : list stmt) (env : nat) (result : value) : M value :=
  match stmts with
  | [] => ret result
  | s :: rest => r <- evaluate_statement s env ;; evaluate_statements rest env r
  end.

(** [evaluate_block] *)
Definition evaluate_block (b : block) (env : nat) : M value :=
  evaluate_statements b env ElfNil.

(** [for i, arg in enumerate(args): d[parameters[i]] = arg] *)
Definition bind_args (d : list (pystr * value)) (parameters : list pystr) (args : list value)
  : list (pystr * value) :=
  fold_left (fun d pa => dict_set d (fst pa) (snd pa)) (combine parameters args) d.

Fixpoint define_all (env : nat) (bindings : list (pystr * value)) : M unit :=
  match bindings with
  | [] => ret tt
  | (name, v) :: rest => define env name v false ;;; define_all env rest
  end.

(** [call_user_function] *)
Definition call_user_function (func : value) (args : list value) (env : nat) : M value :=
  match func with
  | ElfFunction parameters body closure_env =>
      if (length args <? length parameters)%nat then
        let remaining_params := skipn (length args) parameters in
        match closure_env with
        | EnvRef _ =>
            let partial_closure := bind_args [] parameters args in
            ret (ElfFunction remaining_params body (EnvDict partial_closure))
        | EnvDict d =>
            let closure_env := bind_args d parameters args in
            ret (ElfFunction remaining_params body (EnvDict closure_env))
        end
      else
        func_env <-
          match closure_env with
          | EnvRef c => new_env (Some c)
          | EnvDict d =>
              func_env <- new_env (Some env) ;;
              define_all func_env d ;;;
              ret func_env
          end ;;
        define_all func_env (combine parameters args) ;;;
        evaluate_block body func_env
  | _ => lift (PyException type_error)
  end.

(** [func.call(...)] or [self.call_user_function(func, [...], self.global_env)],
    as the primitives choose between them. *)
Definition apply_function (func : value) (args : list value) : M value :=
  match func with
  | ElfBuiltinFunction _ _ _ _ => rec (CallBuiltin func args)
  | _ => call_user_function func args global_env
  end.

(** [builtin_puts] *)
Fixpoint puts_args (args : list value) : M unit :=
  match args with
  | [] => ret tt
  | arg :: rest => s <- lift (repr arg) ;; emit (s ++ py " ") ;;; puts_args rest
  end.

Definition builtin_puts_impl (args : list value) : M value :=
  puts_args args ;;; emit [10] ;;; ret ElfNil.

Definition unexpected_argument (name : pystr) (kinds : list pystr) : pystr :=
  py "Unexpected argument: " ++ name ++ py "(" ++ join (py ", ") kinds ++ py ")".

(** [builtin_map] *)
Definition builtin_map_impl (func lst : value) : M value :=
  match lst with
  | ElfList items =>
      if negb (is_callable func) then
        raise (unexpected_argument (py "map") [kind_name_replace func; py "List"])
      else
        result_items <- mapM (fun item => apply_function func [item]) items ;;
        ret (ElfList result_items)
  | _ => raise (unexpected_argument (py "map") [kind_name_replace func; kind_name_replace lst])
  end.

Fixpoint filter_loop (predicate : value) (items : list value) : M (list value) :=
  match items with
  | [] => ret []
  | item :: rest =>
      result <- apply_function predicate [item] ;;
      kept <- filter_loop predicate rest ;;
      ret (if is_truthy result then item :: kept else kept)
  end.

(** [builtin_filter] *)
Definition builtin_filter_impl (predicate lst : value) : M value :=
  match lst with
  | ElfList items =>
      if negb (is_callable predicate) then
        raise (unexpected_argument (py "filter") [kind_name_replace predicate; py "List"])
      else
        result_items <- filter_loop predicate items ;;
        ret (ElfList result_items)
  | _ => raise (unexpected_argument (py "filter")
                  [kind_name_replace predicate; kind_name_replace lst])
  end.

Fixpoint fold_loop (func : value) (accumulator : value) (items : list value) : M value :=
  match items with
  | [] => ret accumulator
  | item :: rest =>
      accumulator' <- apply_function func [accumulator; item] ;;
      fold_loop func accumulator' rest
  end.

(** [builtin_fold] *)
Definition builtin_fold_impl (initial func lst : value) : M value :=
  match lst with
  | ElfList items =>
      if negb (is_callable func) then
        raise (unexpected_argument (py "fold")
                 [kind_name_replace initial; kind_name_replace func; py "List"])
      else fold_loop func initial items
  | _ => raise (unexpected_argument (py "fold")
                  [kind_name_replace initial; kind_name_replace func; kind_name_replace lst])
  end.

(** The closure [composed_call] of [compose_functions]. *)
Definition composed_call_impl (left right : value) (args : list value) : M value :=
  intermediate <- apply_function left args ;;
  apply_function right [intermediate].

(** The native function of a builtin, applied to its arguments. *)
Definition apply_native (func : native) (args : list value) : M value :=
  match func, args with
  | builtin_puts, _ => builtin_puts_impl args
  | builtin_push, [item; collection] => lift (builtin_push_impl item collection)
  | builtin_assoc, [key; val; dictionary] => lift (builtin_assoc_impl key val dictionary)
  | builtin_first, [collection] => ret (builtin_first_impl collection)
  | builtin_rest, [collection] => ret (builtin_rest_impl collection)
  | builtin_size, [collection] => ret (builtin_size_impl collection)
  | builtin_map, [func; lst] => builtin_map_impl func lst
  | builtin_filter, [predicate; lst] => builtin_filter_impl predicate lst
  | builtin_fold, [initial; func; lst] => builtin_fold_impl initial func lst
  | builtin_add, [l; r] => lift (add_values l r)
  | builtin_subtract, [l; r] => lift (subtract_values l r)
  | builtin_multiply, [l; r] => lift (multiply_values l r)
  | builtin_divide, [l; r] => lift (divide_values l r)
  | composed_call f g, _ => composed_call_impl f g args
  | _, _ => lift (PyException type_error)
  end.

(** [ElfBuiltinFunction.call] *)
Definition call (f : value) (args : list value) : M value :=
  match f with
  | ElfBuiltinFunction name func arity partial_args =>
      let all_args := partial_args ++ args in
      if arity =? -1 then apply_native func all_args
      else if Z.of_nat (length all_args) <? arity then
        ret (ElfBuiltinFunction name func arity all_args)
      else apply_native func (firstn (Z.to_nat arity) all_args)
  | _ => lift (PyException type_error)
  end.

(** [compose_functions] *)
Definition compose_functions (left right : value) : M value :=
  if negb (is_callable left) then
    raise (py "Cannot compose non-function: " ++ kind_name_replace left)
  else if negb (is_callable right) then
    raise (py "Cannot compose non-function: " ++ kind_name_replace right)
  else
    l <- lift (repr left) ;;
    r <- lift (repr right) ;;
    ret (ElfBuiltinFunction (py "(" ++ l ++ py ">>" ++ r ++ py ")") (composed_call left right) 1 []).

(** [thread_value] *)
Definition thread_value (v func : value) : M value :=
  match func with
  | ElfBuiltinFunction _ _ _ _ => call func [v]
  | ElfFunction _ _ _ => call_user_function func [v] global_env
  | _ => raise (py "Cannot thread into non-function: " ++ kind_name_replace func)
  end.

(** [evaluate_infix] *)
Definition evaluate_infix (operator : pystr) (l r : expr) (env : nat) : M value :=
  left <- rec (Eval l env) ;;
  right <- rec (Eval r env) ;;
  if pystr_eqb operator (py "+") then lift (add_values left right)
  else if pystr_eqb operator (py "-") then lift (subtract_values left right)
  else if pystr_eqb operator (py "*") then lift (multiply_values left right)
  else if pystr_eqb operator (py "/") then lift (divide_values left right)
  else if pystr_eqb operator (py "==") then ret (ElfBoolean (values_equal left right))
  else if pystr_eqb operator (py "!=") then ret (ElfBoolean (negb (values_equal left right)))
  else if pystr_eqb operator (py ">") then
    c <- lift (compare_values left right) ;; ret (ElfBoolean (0 <? c))
  else if pystr_eqb operator (py "<") then
    c <- lift (compare_values left right) ;; ret (ElfBoolean (c <? 0))
  else if pystr_eqb operator (py ">=") then
    c <- lift (compare_values left right) ;; ret (ElfBoolean (0 <=? c))
  else if pystr_eqb operator (py "<=") then
    c <- lift (compare_values left right) ;; ret (ElfBoolean (c <=? 0))
  else if pystr_eqb operator (py "&&") then
    ret (ElfBoolean (is_truthy left && is_truthy right))
  else if pystr_eqb operator (py "||") then
    ret (ElfBoolean (is_truthy left || is_truthy right))
  else if pystr_eqb operator (py ">>") then compose_functions left right
  else if pystr_eqb operator (py "|>") then thread_value left right
  else raise (py "Unknown operator: " ++ operator).

(** [evaluate_prefix] *)
Definition evaluate_prefix (operator : pystr) (operand_expr : expr) (env : nat) : M value :=
  operand <- rec (Eval operand_expr env) ;;
  if pystr_eqb operator (py "-") then
    match operand with
    | ElfInteger z => ret (ElfInteger (- z))
    | ElfDecimal d => ret (ElfDecimal (decimal_neg d))
    | _ => raise (py "Unsupported operation: -" ++ kind_name operand)
    end
  else raise (py "Unknown prefix operator: " ++ operator).

Fixpoint evaluate_pairs (pairs : list (expr * expr)) (env : nat) : M (list (value * value)) :=
  match pairs with
  | [] => ret []
  | (k, v) :: rest =>
      key <- rec (Eval k env) ;;
      val <- rec (Eval v env) ;;
      if is_dictionary key then raise (py "Unable to use a Dictionary as a Dictionary key")
      else
        pairs' <- evaluate_pairs rest env ;;
        ret ((key, val) :: pairs')
  end.

Fixpoint compose_all (result : value) (functions : list value) : M value :=
  match functions with
  | [] => ret result
  | func :: rest => result' <- compose_functions result func ;; compose_all result' rest
  end.

Fixpoint thread_all (v : value) (functions : list value) : M value :=
  match functions with
  | [] => ret v
  | func :: rest => v' <- thread_value v func ;; thread_all v' rest
  end.

(** [evaluate_expression] *)
Definition evaluate_expression (e : expr) (env : nat) : M value :=
  match e with
  | EInteger value =>
      let value_str := replace_char 95 [] value in
      z <- lift (int_of_str U
             (py "invalid literal for int() with base 10: " ++ str_repr U value_str) value_str) ;;
      ret (ElfInteger z)
  | EDecimal value =>
      d <- lift (decimal_of_str U (replace_char 95 [] value)) ;;
      ret (ElfDecimal d)
  | EString value => ret (ElfString value)
  | EBoolean value => ret (ElfBoolean value)
  | ENil => ret ElfNil
  | EIdentifier name => get env name
  | ELet name value =>
      v <- rec (Eval value env) ;;
      define env name v false ;;;
      ret v
  | EMutableLet name value =>
      v <- rec (Eval value env) ;;
      define env name v true ;;;
      ret v
  | ECall function arguments =>
      func <- rec (Eval function env) ;;
      args <- mapM (fun arg => rec (Eval arg env)) arguments ;;
      match func with
      | ElfBuiltinFunction _ _ _ _ => call func args
      | ElfFunction _ _ _ => call_user_function func args env
      | _ => raise (py "Expected a Function, found: " ++ kind_name_replace func)
      end
  | EInfix operator l r => evaluate_infix operator l r env
  | EPrefix operator operand => evaluate_prefix operator operand env
  | EAssignment name value =>
      v <- rec (Eval value env) ;;
      assign env name v ;;;
      ret v
  | EList items =>
      items <- mapM (fun item => rec (Eval item env)) items ;;
      ret (ElfList items)
  | ESet items =>
      items <- mapM (fun item => rec (Eval item env)) items ;;
      if existsb is_dictionary items then raise (py "Unable to include a Dictionary within a Set")
      else ret (ElfSet items)
  | EDictionary items =>
      pairs <- evaluate_pairs items env ;;
      ret (ElfDictionary pairs)
  | EFunction parameters body => ret (ElfFunction parameters body (EnvRef env))
  | EIf condition consequence alternative =>
      c <- rec (Eval condition env) ;;
      if is_truthy c then evaluate_block consequence env
      else match alternative with
           | Some alt => evaluate_block alt env
           | None => ret ElfNil
           end
  | EIndex l index =>
      target <- rec (Eval l env) ;;
      index <- rec (Eval index env) ;;
      lift (index_value target index)
  | EFunctionComposition functions =>
      functions <- mapM (fun func => rec (Eval func env)) functions ;;
      match functions with
      | f0 :: (_ :: _) as rest => compose_all f0 rest
      | _ => raise (py "Function composition requires at least 2 functions")
      end
  | EFunctionThread initial functions =>
      v <- rec (Eval initial env) ;;
      functions <- mapM (fun func => rec (Eval func env)) functions ;;
      thread_all v functions
  end.

Definition step (r : request) : M value :=
  match r with
  | Eval e env => evaluate_expression e env
  | CallBuiltin func args => call func args
  end.

End Evaluator.

Fixpoint run (U : unicode_db) (fuel : nat) (r : request) : M value :=
  match fuel with
  | O => fun st => (OutOfFuel, st)
  | S fuel' => step U (run U fuel') r
  end.

(** ** Running a program *)

Definition builtin (name : string) (func : native) (arity : Z) : pystr * value :=
  (py name, ElfBuiltinFunction (py name) func arity []).

(** The bindings [Evaluator.__init__] defines in the global environment;
    the arity of a primitive is the number of parameters of its method,
    [-1] marks [puts] as variadic. *)
Definition builtins : list (pystr * value) :=
  [ builtin "puts" builtin_puts (-1);
    builtin "push" builtin_push 2;
    builtin "assoc" builtin_assoc 3;
    builtin "first" builtin_first 1;
    builtin "rest" builtin_rest 1;
    builtin "size" builtin_size 1;
    builtin "map" builtin_map 2;
    builtin "filter" builtin_filter 2;
    builtin "fold" builtin_fold 3;
    builtin "+" builtin_add 2;
    builtin "-" builtin_subtract 2;
    builtin "*" builtin_multiply 2;
    builtin "/" builtin_divide 2 ].

(** The state after [Evaluator()]. *)
Definition initial_state : state :=
  {| envs := [ {| parent := None;
                  variables := builtins;
                  mutable := map (fun b => (fst b, false)) builtins |} ];
     output_buffer := [] |}.

Definition is_comment (s : stmt) : bool :=
  match s with SComment _ => true | _ => false end.

(** The two [evaluate_program] functions, of the evaluator and of the
    module, over the three calls they make: [Parser(source).parse()],
    the evaluation of an expression and [str] of the final value.  Each
    of the three returns or raises, an exception of the evaluator or one
    of Python, and the two functions are the same whatever the three
    do. *)
Module Program.
Section Program.
Variable parse : pystr -> result (list stmt).
Variable rec : request -> M value.
Variable str : value -> result pystr.

(** The loop of [Evaluator.evaluate_program]. *)
Fixpoint program_loop (stmts : list stmt) (last_result : value) : M value :=
  match stmts with
  | [] => ret last_result
  | statement :: rest =>
      result <- evaluate_statement rec statement global_env ;;
      program_loop rest (if is_comment statement then last_result else result)
  end.

(** The body of the [try] in [Evaluator.evaluate_program]. *)
Definition program_body (statements : list stmt) : M unit :=
  last_result <- program_loop statements ElfNil ;;
  s <- lift (str last_result) ;;
  emit s.

(** [Evaluator.evaluate_program]: a [RuntimeError] is caught and reported
    after the output so far; nothing else is caught here. *)
Definition evaluator_evaluate_program (statements : list stmt) : result pystr :=
  match program_body statements initial_state with
  | (Ok _, st) => Ok (concat (output_buffer st))
  | (RuntimeError e, st) => Ok (concat (output_buffer st ++ [py "[Error] " ++ e]))
  | (PyException e, _) => PyException e
  | (OutOfFuel, _) => OutOfFuel
  end.

(** [evaluate_program(source)]: whatever exception leaves the parser or
    the evaluator is caught here and its text returned. *)
Definition evaluate_program (source : pystr) : option pystr :=
  match parse source with
  | Ok ast =>
      match evaluator_evaluate_program ast with
      | Ok text => Some text
      | RuntimeError e => Some e
      | PyException e => Some e
      | OutOfFuel => None
      end
  | RuntimeError e => Some e
  | PyException e => Some e
  | OutOfFuel => None
  end.

End Program.
End Program.

(** The evaluator's own functions: expressions are evaluated by [run]
    to the depth [fuel], and [str] of a value is [repr]. *)
Definition program_loop (U : unicode_db) (fuel : nat) : list stmt -> value -> M value :=
  Program.program_loop (run U fuel).

Definition program_body (U : unicode_db) (fuel : nat) : list stmt -> M unit :=
  Program.program_body (run U fuel) repr.

Definition evaluator_evaluate_program (U : unicode_db) (fuel : nat) : list stmt -> result pystr :=
  Program.evaluator_evaluate_program (run U fuel) repr.

(** ** lexer.py *)

Module Lexer.

(** [TokenType]; the member [IF] is spelled [IF_]. *)
Inductive TokenType : Type :=
| INT | DEC | STR | TRUE | FALSE | NIL
| LET | MUT | IF_ | ELSE
| ID
| CMT
| EQ | NE | GE | LE | AND | OR | PIPE_OP | COMPOSE | DICT_START
| PLUS | MINUS | MULTIPLY | DIVIDE | ASSIGN | GT | LT
| LBRACE | RBRACE | LBRACKET | RBRACKET | SEMICOLON | LPAREN | RPAREN
| COMMA | COLON | PIPE.

Scheme Equality for TokenType.

Definition member_name (t : TokenType) : pystr :=
  py match t with
     | INT => "INT" | DEC => "DEC" | STR => "STR" | TRUE => "TRUE" | FALSE => "FALSE"
     | NIL => "NIL" | LET => "LET" | MUT => "MUT" | IF_ => "IF" | ELSE => "ELSE"
     | ID => "ID" | CMT => "CMT" | EQ => "EQ" | NE => "NE" | GE => "GE" | LE => "LE"
     | AND => "AND" | OR => "OR" | PIPE_OP => "PIPE_OP" | COMPOSE => "COMPOSE"
     | DICT_START => "DICT_START" | PLUS => "PLUS" | MINUS => "MINUS"
     | MULTIPLY => "MULTIPLY" | DIVIDE => "DIVIDE" | ASSIGN => "ASSIGN" | GT => "GT"
     | LT => "LT" | LBRACE => "LBRACE" | RBRACE => "RBRACE" | LBRACKET => "LBRACKET"
     | RBRACKET => "RBRACKET" | SEMICOLON => "SEMICOLON" | LPAREN => "LPAREN"
     | RPAREN => "RPAREN" | COMMA => "COMMA" | COLON => "COLON" | PIPE => "PIPE"
     end.

Definition member_value (t : TokenType) : pystr :=
  py match t with
     | INT => "INT" | DEC => "DEC" | STR => "STR" | TRUE => "TRUE" | FALSE => "FALSE"
     | NIL => "NIL" | LET => "LET" | MUT => "MUT" | IF_ => "IF" | ELSE => "ELSE"
     | ID => "ID" | CMT => "CMT" | EQ => "==" | NE => "!=" | GE => ">=" | LE => "<="
     | AND => "&&" | OR => "||" | PIPE_OP => "|>" | COMPOSE => ">>"
     | DICT_START => "#{" | PLUS => "+" | MINUS => "-"
     | MULTIPLY => "*" | DIVIDE => "/" | ASSIGN => "=" | GT => ">"
     | LT => "<" | LBRACE => "{" | RBRACE => "}" | LBRACKET => "["
     | RBRACKET => "]" | SEMICOLON => ";" | LPAREN => "(" | RPAREN => ")"
     | COMMA => "," | COLON => ":" | PIPE => "|"
     end.

Record Token : Type := {
  type : TokenType;
  value : pystr;
  position : Z
}.

Section Lexer.
Variable U : unicode_db.

(** The loop of [read_number]: the text read and what follows it. *)
Fixpoint read_number (has_decimal : bool) (s : pystr) : pystr * pystr * bool :=
  match s with
  | c :: s' =>
      if isdigit U c || (c =? 46) || (c =? 95) then
        if (c =? 46) && has_decimal then ([], s, has_decimal)
        else
          let '(text, rest, d) := read_number (has_decimal || (c =? 46)) s' in
          (c :: text, rest, d)
      else ([], s, has_decimal)
  | [] => ([], [], has_decimal)
  end.

(** The loop of [read_string], after the opening quote. *)
Fixpoint read_string (s : pystr) : pystr * pystr :=
  match s with
  | [] => ([], [])
  | c :: s' =>
      if c =? 34 then ([c], s')
      else if c =? 92 then
        match s' with
        | [] => ([c], [])
        | c' :: s'' => let '(text, rest) := read_string s'' in (c :: c' :: text, rest)
        end
      else let '(text, rest) := read_string s' in (c :: text, rest)
  end.

(** The loop of [read_identifier]. *)
Fixpoint read_identifier (s : pystr) : pystr * pystr :=
  match s with
  | c :: s' =>
      if isalnum U c || (c =? 95) then
        let '(text, rest) := read_identifier s' in (c :: text, rest)
      else ([], s)
  | [] => ([], [])
  end.

(** The loop of [read_comment]. *)
Fixpoint read_comment (s : pystr) : pystr * pystr :=
  match s with
  | c :: s' =>
      if c =? 10 then ([], s)
      else let '(text, rest) := read_comment s' in (c :: text, rest)
  | [] => ([], [])
  end.

Definition keyword (text : pystr) : TokenType :=
  if pystr_eqb text (py "let") then LET
  else if pystr_eqb text (py "mut") then MUT
  else if pystr_eqb text (py "if") then IF_
  else if pystr_eqb text (py "else") then ELSE
  else if pystr_eqb text (py "true") then TRUE
  else if pystr_eqb text (py "false") then FALSE
  else if pystr_eqb text (py "nil") then NIL
  else ID.

Definition two_char (c1 c2 : codepoint) : option TokenType :=
  if (c1 =? 61) && (c2 =? 61) then Some EQ
  else if (c1 =? 33) && (c2 =? 61) then Some NE
  else if (c1 =? 62) && (c2 =? 61) then Some GE
  else if (c1 =? 60) && (c2 =? 61) then Some LE
  else if (c1 =? 38) && (c2 =? 38) then Some AND
  else if (c1 =? 124) && (c2 =? 124) then Some OR
  else if (c1 =? 124) && (c2 =? 62) then Some PIPE_OP
  else if (c1 =? 62) && (c2 =? 62) then Some COMPOSE
  else if (c1 =? 35) && (c2 =? 123) then Some DICT_START
  else None.

Definition single_char_tokens (c : codepoint) : option TokenType :=
  if c =? 43 then Some PLUS
  else if c =? 45 then Some MINUS
  else if c =? 42 then Some MULTIPLY
  else if c =? 47 then Some DIVIDE
  else if c =? 61 then Some ASSIGN
  else if c =? 62 then Some GT
  else if c =? 60 then Some LT
  else if c =? 123 then Some LBRACE
  else if c =? 125 then Some RBRACE
  else if c =? 91 then Some LBRACKET
  else if c =? 93 then Some RBRACKET
  else if c =? 59 then Some SEMICOLON
  else if c =? 40 then Some LPAREN
  else if c =? 41 then Some RPAREN
  else if c =? 44 then Some COMMA
  else if c =? 58 then Some COLON
  else if c =? 124 then Some PIPE
  else None.

Definition len (s : pystr) : Z := Z.of_nat (length s).

(** One round of the loop of [get_next_token] at a non-empty rest of the
    source: a token, if one starts here, and the rest after it. *)
Definition scan (c : codepoint) (s' : pystr) (pos : Z) : option Token * pystr :=
  let s := c :: s' in
  if (c =? 32) || (c =? 9) || (c =? 10) || (c =? 13) then (None, s')
  else if isdigit U c then
    let '(text, rest, has_decimal) := read_number false s in
    (Some {| type := if has_decimal then DEC else INT; value := text; position := pos |}, rest)
  else if c =? 34 then
    let '(text, rest) := read_string s' in
    (Some {| type := STR; value := c :: text; position := pos |}, rest)
  else if isalpha U c || (c =? 95) then
    let '(text, rest) := read_identifier s in
    (Some {| type := keyword text; value := text; position := pos |}, rest)
  else
    match s' with
    | c2 :: s'' =>
        if (c =? 47) && (c2 =? 47) then
          let '(text, rest) := read_comment s in
          (Some {| type := CMT; value := text; position := pos |}, rest)
        else
          match two_char c c2 with
          | Some t => (Some {| type := t; value := member_value t; position := pos |}, s'')
          | None =>
              match single_char_tokens c with
              | Some t => (Some {| type := t; value := [c]; position := pos |}, s')
              | None => (None, s')
              end
          end
    | [] =>
        match single_char_tokens c with
        | Some t => (Some {| type := t; value := [c]; position := pos |}, s')
        | None => (None, s')
        end
    end.

(** [tokenize]: every round consumes at least one character, so as many
    rounds as the source has characters reach its end. *)
Fixpoint tokenize_from (rounds : nat) (s : pystr) (pos : Z) : list Token :=
  match rounds, s with
  | S rounds', c :: s' =>
      let '(tok, rest) := scan c s' pos in
      let pos' := pos + (len s - len rest) in
      match tok with
      | Some t => t :: tokenize_from rounds' rest pos'
      | None => tokenize_from rounds' rest pos'
      end
  | _, _ => []
  end.

Definition tokenize (source : pystr) : list Token :=
  tokenize_from (length source) source 0.

End Lexer.

End Lexer.

(** ** parser.py

    The parser state is the list of tokens from [position] on: its head
    is [current_token], [advance] drops it.  A [SyntaxError] is the only
    exception the parser raises. *)

Module Parser.
Import Lexer.

Definition P (A : Type) : Type := list Token -> result (A * list Token).

Definition SyntaxError {A : Type} (msg : pystr) : result A := PyException msg.

Definition pret {A : Type} (a : A) : P A := fun ts => Ok (a, ts).

Definition pbind {A B : Type} (m : P A) (k : A -> P B) : P B :=
  fun ts => rbind (m ts) (fun r => k (fst r) (snd r)).

Declare Scope parse_scope.
Delimit Scope parse_scope with parse.
Notation "x <- m ;; k" := (pbind m (fun x => k))
  (at level 100, m at next level, right associativity) : parse_scope.
Notation "m ;;; k" := (pbind m (fun _ => k))
  (at level 100, right associativity) : parse_scope.
Open Scope parse_scope.

Definition current_token : P (option Token) := fun ts => Ok (hd_error ts, ts).

Definition advance : P unit := fun ts => Ok (tt, tl ts).

Definition peek : P (option Token) := fun ts => Ok (hd_error (tl ts), ts).

Definition fail {A : Type} (msg : pystr) : P A := fun _ => SyntaxError msg.

(** [s.replace(old, new)] for a two-character [old]. *)
Fixpoint replace_pair (a b : codepoint) (new : pystr) (s : pystr) : pystr :=
  match s with
  | x :: s' =>
      match s' with
      | y :: s'' =>
          if (x =? a) && (y =? b) then new ++ replace_pair a b new s''
          else x :: replace_pair a b new s'
      | [] => s
      end
  | [] => []
  end.

Section Parser.
Variable U : unicode_db.

(** [str(token)] for an optional token. *)
Definition token_str (t : option Token) : pystr :=
  match t with
  | None => py "None"
  | Some t =>
      py "Token(type=<TokenType." ++ member_name (type t) ++ py ": '" ++ member_value (type t)
      ++ py "'>, value=" ++ str_repr U (value t) ++ py ", position=" ++ str_of_int (position t)
      ++ py ")"
  end.

Definition is_type (tok : option Token) (t : TokenType) : bool :=
  match tok with
  | Some tok => TokenType_beq (type tok) t
  | None => false
  end.

(** [expect] *)
Definition expect (expected_type : TokenType) : P Token :=
  tok <- current_token ;;
  match tok with
  | Some t =>
      if TokenType_beq (type t) expected_type then advance ;;; pret t
      else fail (py "Expected TokenType." ++ member_name expected_type ++ py ", got " ++ token_str tok)
  | None => fail (py "Expected TokenType." ++ member_name expected_type ++ py ", got " ++ token_str tok)
  end.

(** [skip_comments] *)
Fixpoint skip_comments (ts : list Token) : result (unit * list Token) :=
  match ts with
  | t :: ts' => if TokenType_beq (type t) CMT then skip_comments ts' else Ok (tt, ts)
  | [] => Ok (tt, ts)
  end.

(** A [;] after a statement is consumed. *)
Definition optional_semicolon : P unit :=
  tok <- current_token ;;
  if is_type tok SEMICOLON then advance else pret tt.

(** [parse_statement], over the parser of expressions. *)
Definition parse_statement_with (parse_expression : P expr) : P (option stmt) :=
  tok <- current_token ;;
  match tok with
  | None => pret None
  | Some t =>
      if TokenType_beq (type t) CMT then
        advance ;;; pret (Some (SComment (value t)))
      else
        next <- peek ;;
        if TokenType_beq (type t) ID && is_type next ASSIGN then
          advance ;;;
          expect ASSIGN ;;;
          v <- parse_expression ;;
          optional_semicolon ;;;
          pret (Some (SExpression (EAssignment (value t) v)))
        else
          e <- parse_expression ;;
          optional_semicolon ;;;
          pret (Some (SExpression e))
  end.

Section Expression.
(** [parse_expression] called from inside an expression. *)
Variable parse_expression : P expr.

Definition parse_statement : P (option stmt) := parse_statement_with parse_expression.

(** The loop of [parse_block]; each round consumes a token. *)
Fixpoint block_loop (rounds : nat) (statements : list stmt) : P (list stmt) :=
  fun ts =>
    match ts with
    | [] => Ok (statements, ts)
    | t :: _ =>
        if TokenType_beq (type t) RBRACE then Ok (statements, ts)
        else
          match rounds with
          | O => OutOfFuel
          | S rounds' =>
              (skip_comments ;;;
               tok <- current_token ;;
               match tok with
               | None => block_loop rounds' statements
               | Some t' =>
                   if TokenType_beq (type t') RBRACE then block_loop rounds' statements
                   else
                     s <- parse_statement ;;
                     match s with
                     | Some s => block_loop rounds' (statements ++ [s])
                     | None => block_loop rounds' statements
                     end
               end) ts
          end
    end.

(** [parse_block] *)
Definition parse_block : P block :=
  expect LBRACE ;;;
  statements <- (fun ts => block_loop (length ts) [] ts) ;;
  expect RBRACE ;;;
  pret statements.

(** The loop shared by [parse_list], [parse_set] and the arguments of a
    call: expressions separated by commas up to [close]. *)
Fixpoint items_loop (rounds : nat) (close : TokenType) (items : list expr) : P (list expr) :=
  fun ts =>
    match ts with
    | [] => Ok (items, ts)
    | t :: _ =>
        if TokenType_beq (type t) close then Ok (items, ts)
        else
          match rounds with
          | O => OutOfFuel
          | S rounds' =>
              (e <- parse_expression ;;
               tok <- current_token ;;
               if is_type tok COMMA then advance ;;; items_loop rounds' close (items ++ [e])
               else
                 match tok with
                 | Some t' =>
                     if TokenType_beq (type t') close then items_loop rounds' close (items ++ [e])
                     else pret (items ++ [e])
                 | None => items_loop rounds' close (items ++ [e])
                 end) ts
          end
    end.

Definition parse_items (open close : TokenType) : P (list expr) :=
  expect open ;;;
  items <- (fun ts => items_loop (length ts) close [] ts) ;;
  expect close ;;;
  pret items.

(** [parse_list] *)
Definition parse_list : P expr :=
  items <- parse_items LBRACKET RBRACKET ;; pret (EList items).

(** [parse_set] *)
Definition parse_set : P expr :=
  items <- parse_items LBRACE RBRACE ;; pret (ESet items).

Fixpoint pairs_loop (rounds : nat) (items : list (expr * expr)) : P (list (expr * expr)) :=
  fun ts =>
    match ts with
    | [] => Ok (items, ts)
    | t :: _ =>
        if TokenType_beq (type t) RBRACE then Ok (items, ts)
        else
          match rounds with
          | O => OutOfFuel
          | S rounds' =>
              (key <- parse_expression ;;
               expect COLON ;;;
               val <- parse_expression ;;
               tok <- current_token ;;
               if is_type tok COMMA then advance ;;; pairs_loop rounds' (items ++ [(key, val)])
               else
                 match tok with
                 | Some t' =>
                     if TokenType_beq (type t') RBRACE
                     then pairs_loop rounds' (items ++ [(key, val)])
                     else pret (items ++ [(key, val)])
                 | None => pairs_loop rounds' (items ++ [(key, val)])
                 end) ts
          end
    end.

(** [parse_dictionary] *)
Definition parse_dictionary : P expr :=
  expect DICT_START ;;;
  items <- (fun ts => pairs_loop (length ts) [] ts) ;;
  expect RBRACE ;;;
  pret (EDictionary items).

(** The body of a function literal: a block, or one expression wrapped
    in a block. *)
Definition parse_body : P block :=
  tok <- current_token ;;
  if is_type tok LBRACE then parse_block
  else e <- parse_expression ;; pret [SExpression e].

(** The parameter loop of [parse_function]. *)
Fixpoint parameters_loop (ts : list Token) (parameters : list pystr)
  : result (list pystr * list Token) :=
  match ts with
  | [] => Ok (parameters, ts)
  | t :: ts' =>
      if TokenType_beq (type t) PIPE then Ok (parameters, ts)
      else if TokenType_beq (type t) ID then
        match ts' with
        | t' :: ts'' =>
            if TokenType_beq (type t') COMMA
            then parameters_loop ts'' (parameters ++ [value t])
            else parameters_loop ts' (parameters ++ [value t])
        | [] => Ok (parameters ++ [value t], ts')
        end
      else Ok (parameters, ts)
  end.

(** [parse_function] *)
Definition parse_function : P expr :=
  expect PIPE ;;;
  parameters <- (fun ts => parameters_loop ts []) ;;
  expect PIPE ;;;
  body <- parse_body ;;
  pret (EFunction parameters body).

(** [parse_zero_param_function] *)
Definition parse_zero_param_function : P expr :=
  expect OR ;;;
  body <- parse_body ;;
  pret (EFunction [] body).

(** [parse_let] *)
Definition parse_let : P expr :=
  expect LET ;;;
  tok <- current_token ;;
  is_mutable <- (if is_type tok MUT then advance ;;; pret true else pret false) ;;
  tok <- current_token ;;
  if is_type tok ID then
    match tok with
    | Some t =>
        advance ;;;
        expect ASSIGN ;;;
        v <- parse_expression ;;
        pret (if is_mutable : bool then EMutableLet (value t) v else ELet (value t) v)
    | None => fail (py "Expected identifier after let, got " ++ token_str tok)
    end
  else fail (py "Expected identifier after let, got " ++ token_str tok).

(** [parse_if] *)
Definition parse_if : P expr :=
  expect IF_ ;;;
  condition <- parse_expression ;;
  consequence <- parse_block ;;
  tok <- current_token ;;
  alternative <-
    (if is_type tok ELSE then advance ;;; alt <- parse_block ;; pret (Some alt)
     else pret None) ;;
  pret (EIf condition consequence alternative).

(** The text of a string literal: quotes removed, escapes replaced. *)
Definition unescape (raw_value : pystr) : pystr :=
  match raw_value with
  | 34 :: _ =>
      if (match rev raw_value with 34 :: _ => true | _ => false end) then
        let content := removelast (tl raw_value) in
        replace_pair 92 116 [9]
          (replace_pair 92 110 [10]
             (replace_pair 92 92 [92]
                (replace_pair 92 34 [34] content)))
      else raw_value
  | _ => raw_value
  end.

(** [parse_primary] *)
Definition parse_primary : P expr :=
  tok <- current_token ;;
  match tok with
  | None => fail (py "Unexpected end of input")
  | Some t =>
      match type t with
      | INT => advance ;;; pret (EInteger (value t))
      | DEC => advance ;;; pret (EDecimal (value t))
      | STR => advance ;;; pret (EString (unescape (value t)))
      | TRUE => advance ;;; pret (EBoolean true)
      | FALSE => advance ;;; pret (EBoolean false)
      | NIL => advance ;;; pret ENil
      | ID => advance ;;; pret (EIdentifier (value t))
      | LPAREN =>
          advance ;;;
          e <- parse_expression ;;
          expect RPAREN ;;;
          pret e
      | LET => parse_let
      | IF_ => parse_if
      | LBRACKET => parse_list
      | LBRACE => parse_set
      | DICT_START => parse_dictionary
      | PIPE => parse_function
      | OR => parse_zero_param_function
      | PLUS | MINUS | MULTIPLY | DIVIDE => advance ;;; pret (EIdentifier (value t))
      | _ => fail (py "Unexpected token: " ++ token_str tok)
      end
  end.

(** The loop of [parse_postfix]. *)
Fixpoint postfix_loop (rounds : nat) (left : expr) : P expr :=
  fun ts =>
    match rounds, ts with
    | S rounds', t :: ts' =>
        if TokenType_beq (type t) LBRACKET then
          (index <- parse_expression ;;
           expect RBRACKET ;;;
           postfix_loop rounds' (EIndex left index)) ts'
        else if TokenType_beq (type t) LPAREN then
          (arguments <- (fun ts => items_loop (length ts) RPAREN [] ts) ;;
           expect RPAREN ;;;
           postfix_loop rounds' (ECall left arguments)) ts'
        else Ok (left, ts)
    | O, t :: _ =>
        if TokenType_beq (type t) LBRACKET || TokenType_beq (type t) LPAREN then OutOfFuel
        else Ok (left, ts)
    | _, [] => Ok (left, ts)
    end.

(** [parse_postfix] *)
Definition parse_postfix : P expr :=
  left <- parse_primary ;;
  (fun ts => postfix_loop (length ts) left ts).

(** [parse_unary]: one round for each leading [-]. *)
Fixpoint unary_loop (rounds : nat) : P expr :=
  fun ts =>
    match ts with
    | t :: ts' =>
        if TokenType_beq (type t) MINUS then
          match rounds with
          | O => OutOfFuel
          | S rounds' =>
              (operand <- unary_loop rounds' ;; pret (EPrefix (value t) operand)) ts'
          end
        else parse_postfix ts
    | [] => parse_postfix ts
    end.

Definition parse_unary : P expr := fun ts => unary_loop (length ts) ts.

(** The loop of a level of left-associative infix operators. *)
Fixpoint infix_loop (rounds : nat) (operators : list TokenType) (operand : P expr) (left : expr)
  : P expr :=
  fun ts =>
    match ts with
    | t :: ts' =>
        if existsb (TokenType_beq (type t)) operators then
          match rounds with
          | O => OutOfFuel
          | S rounds' =>
              (right <- operand ;;
               infix_loop rounds' operators operand (EInfix (value t) left right)) ts'
          end
        else Ok (left, ts)
    | [] => Ok (left, ts)
    end.

Definition infix_level (operators : list TokenType) (operand : P expr) : P expr :=
  left <- operand ;;
  (fun ts => infix_loop (length ts) operators operand left ts).

(** [parse_multiplication] *)
Definition parse_multiplication : P expr := infix_level [MULTIPLY; DIVIDE] parse_unary.

(** [parse_addition] *)
Definition parse_addition : P expr := infix_level [PLUS; MINUS] parse_multiplication.

(** [parse_comparison] *)
Definition parse_comparison : P expr := infix_level [GT; LT; GE; LE] parse_addition.

(** [parse_equality] *)
Definition parse_equality : P expr := infix_level [EQ; NE] parse_comparison.

(** [parse_logical_and] *)
Definition parse_logical_and : P expr := infix_level [AND] parse_equality.

(** [parse_logical_or] *)
Definition parse_logical_or : P expr := infix_level [OR] parse_logical_and.

(** The loop that collects the operands of a chain of [>>] or [|>]. *)
Fixpoint chain_loop (rounds : nat) (operator : TokenType) (operand : P expr)
  (functions : list expr) : P (list expr) :=
  fun ts =>
    match ts with
    | t :: ts' =>
        if TokenType_beq (type t) operator then
          match rounds with
          | O => OutOfFuel
          | S rounds' =>
              (right <- operand ;;
               chain_loop rounds' operator operand (functions ++ [right])) ts'
          end
        else Ok (functions, ts)
    | [] => Ok (functions, ts)
    end.

(** [parse_composition] *)
Definition parse_composition : P expr :=
  left <- parse_logical_or ;;
  tok <- current_token ;;
  if is_type tok COMPOSE then
    functions <- (fun ts => chain_loop (length ts) COMPOSE parse_logical_or [left] ts) ;;
    pret (EFunctionComposition functions)
  else pret left.

(** [parse_threading] *)
Definition parse_threading : P expr :=
  left <- parse_composition ;;
  tok <- current_token ;;
  if is_type tok PIPE_OP then
    functions <- (fun ts => chain_loop (length ts) PIPE_OP parse_composition [] ts) ;;
    pret (EFunctionThread left functions)
  else pret left.

End Expression.

(** [parse_expression]: an expression nested [depth] deep needs [depth]
    rounds, and every level of nesting consumes a token first. *)
Fixpoint parse_expression (depth : nat) : P expr :=
  match depth with
  | O => fun _ => OutOfFuel
  | S depth' => parse_threading (parse_expression depth')
  end.

(** The loop of [parse]. *)
Fixpoint parse_loop (rounds : nat) (depth : nat) (statements : list stmt) : P (list stmt) :=
  fun ts =>
    match ts with
    | [] => Ok (statements, ts)
    | _ :: _ =>
        match rounds with
        | O => OutOfFuel
        | S rounds' =>
            (s <- parse_statement_with (parse_expression depth) ;;
             match s with
             | Some s => parse_loop rounds' depth (statements ++ [s])
             | None => parse_loop rounds' depth statements
             end) ts
        end
    end.

(** [Parser(source).parse()]: the statements of the program. *)
Definition parse (source : pystr) : result (list stmt) :=
  let tokens := tokenize U source in
  rbind (parse_loop (length tokens) (S (length tokens)) [] tokens) (fun r => Ok (fst r)).

End Parser.

End Parser.

(** ** The entry point *)

(** [evaluate_program(source)] of the program: the parser is that of
    parser.py, expressions are evaluated by [run] and values printed by
    [repr].  [fuel] bounds the depth of nested evaluations, as the
    recursion limit of the interpreter does; [None] stands for a run
    that is not followed to its end, [fuel] not covering it.  (Where
    Python meets its limit it raises a RecursionError, one more exception
    for the handler; at which depth, and with which text, depends on the
    interpreter and is not fixed here.) *)
Definition evaluate_program (U : unicode_db) (fuel : nat) (source : pystr) : option pystr :=
  Program.evaluate_program (Parser.parse U) (run U fuel) repr source.

(** ** Collections as Python objects

    The evaluator above keeps the items of a List, Set or Dictionary by
    value.  In the program they are Python [list] objects that several
    values may share and that [append] and item assignment change in
    place.  This second reading of [builtin_push], [builtin_assoc] and
    the collection cases of [add_values] keeps those objects in a store:
    a value holds the location of its [items], and every statement that
    builds, copies or changes a list acts on the store. *)

(** The by-value [add_values], [values_equal] and [assoc_loop], under the
    names the object reading uses for them. *)
Abbreviation pure_add_values := add_values.

Abbreviation pure_values_equal := values_equal.

Abbreviation pure_assoc_loop := assoc_loop.

Module Objects.

Definition loc := nat.

Inductive hvalue : Type :=
| HInteger (v : Z)
| HDecimal (v : decimal)
| HString (v : pystr)
| HBoolean (v : bool)
| HNil
| HList (items : loc)
| HSet (items : loc)
| HDictionary (items : loc)
| HFunction (f : value).

(** A list object: the items of a List or Set, or the pairs of a
    Dictionary. *)
Inductive cell : Type :=
| Items (l : list hvalue)
| Pairs (l : list (hvalue * hvalue)).

Definition store := list cell.

Definition H (A : Type) : Type := store -> result A * store.

Definition hret {A : Type} (a : A) : H A := fun s => (Ok a, s).

Definition hbind {A B : Type} (m : H A) (k : A -> H B) : H B :=
  fun s =>
    match m s with
    | (Ok a, s') => k a s'
    | (RuntimeError e, s') => (RuntimeError e, s')
    | (PyException e, s') => (PyException e, s')
    | (OutOfFuel, s') => (OutOfFuel, s')
    end.

Definition hlift {A : Type} (r : result A) : H A := fun s => (r, s).

Declare Scope heap_scope.
Delimit Scope heap_scope with heap.
Notation "x <- m ;; k" := (hbind m (fun x => k))
  (at level 100, m at next level, right associativity) : heap_scope.
Notation "m ;;; k" := (hbind m (fun _ => k))
  (at level 100, right associativity) : heap_scope.
Open Scope heap_scope.

(** A new list object. *)
Definition alloc (c : cell) : H loc := fun s => (Ok (length s), s ++ [c]).

(** The items of the list object at [l], as a loop reads them. *)
Definition items_at (l : loc) : H (list hvalue) :=
  fun s =>
    match nth_error s l with
    | Some (Items xs) => (Ok xs, s)
    | _ => (PyException type_error, s)
    end.

Definition pairs_at (l : loc) : H (list (hvalue * hvalue)) :=
  fun s =>
    match nth_error s l with
    | Some (Pairs xs) => (Ok xs, s)
    | _ => (PyException type_error, s)
    end.

(** [lst.append(x)] on the object at [l] *)
Definition append (l : loc) (x : hvalue) : H unit :=
  fun s =>
    (Ok tt, update_nth l (fun c => match c with Items xs => Items (xs ++ [x]) | _ => c end) s).

Definition append_pair (l : loc) (p : hvalue * hvalue) : H unit :=
  fun s =>
    (Ok tt, update_nth l (fun c => match c with Pairs xs => Pairs (xs ++ [p]) | _ => c end) s).

(** [lst[i] = p] on the object at [l] *)
Definition set_pair (l : loc) (i : nat) (p : hvalue * hvalue) : H unit :=
  fun s =>
    (Ok tt, update_nth l (fun c =>
              match c with Pairs xs => Pairs (update_nth i (fun _ => p) xs) | _ => c end) s).

Fixpoint all_some {A : Type} (l : list (option A)) : option (list A) :=
  match l with
  | [] => Some []
  | Some a :: l' => match all_some l' with Some r => Some (a :: r) | None => None end
  | None :: _ => None
  end.

(** The value an object stands for, its lists read out of the store;
    [depth] bounds the nesting followed. *)
Fixpoint read (depth : nat) (s : store) (v : hvalue) : option value :=
  match v with
  | HInteger z => Some (ElfInteger z)
  | HDecimal d => Some (ElfDecimal d)
  | HString x => Some (ElfString x)
  | HBoolean b => Some (ElfBoolean b)
  | HNil => Some ElfNil
  | HFunction f =>
      match f with
      | ElfFunction _ _ _ | ElfBuiltinFunction _ _ _ _ => Some f
      | _ => None
      end
  | HList l =>
      match depth, nth_error s l with
      | S depth', Some (Items xs) => option_map ElfList (all_some (map (read depth' s) xs))
      | _, _ => None
      end
  | HSet l =>
      match depth, nth_error s l with
      | S depth', Some (Items xs) => option_map ElfSet (all_some (map (read depth' s) xs))
      | _, _ => None
      end
  | HDictionary l =>
      match depth, nth_error s l with
      | S depth', Some (Pairs xs) =>
          option_map ElfDictionary
            (all_some (map (fun p =>
               match read depth' s (fst p), read depth' s (snd p) with
               | Some k, Some v => Some (k, v)
               | _, _ => None
               end) xs))
      | _, _ => None
      end
  end.

(** A value that holds no list is its own object. *)
Definition immediate (v : value) : option hvalue :=
  match v with
  | ElfInteger z => Some (HInteger z)
  | ElfDecimal d => Some (HDecimal d)
  | ElfString x => Some (HString x)
  | ElfBoolean b => Some (HBoolean b)
  | ElfNil => Some HNil
  | ElfFunction _ _ _ | ElfBuiltinFunction _ _ _ _ => Some (HFunction v)
  | _ => None
  end.

Definition hkind_name (v : hvalue) : pystr :=
  match v with
  | HInteger _ => py "Integer"
  | HDecimal _ => py "Decimal"
  | HString _ => py "String"
  | HBoolean _ => py "Boolean"
  | HNil => py "Nil"
  | HList _ => py "List"
  | HSet _ => py "Set"
  | HDictionary _ => py "Dictionary"
  | HFunction f => kind_name f
  end.

Section Primitives.
(** [values_equal] reads its operands and changes nothing: it is a
    function of the store. *)
Variable values_equal : store -> hvalue -> hvalue -> bool.

(** [any(values_equal(existing, item) for existing in lst)] on the
    object at [l] as it is now. *)
Definition contains (l : loc) (item : hvalue) : H bool :=
  existing <- items_at l ;;
  (fun s => (Ok (existsb (fun e => values_equal s e item) existing), s)).

(** [builtin_push] *)
Definition builtin_push (item collection : hvalue) : H hvalue :=
  match collection with
  | HList items =>
      old <- items_at items ;;
      new_items <- alloc (Items (old ++ [item])) ;;
      hret (HList new_items)
  | HSet items =>
      old <- items_at items ;;
      new_items <- alloc (Items old) ;;
      found <- contains new_items item ;;
      if found : bool then hret (HSet new_items)
      else append new_items item ;;; hret (HSet new_items)
  | _ => hlift (RuntimeError (py "Cannot push to " ++ hkind_name collection))
  end.

(** The loop of [builtin_assoc], appending to [new_pairs]. *)
Fixpoint assoc_loop (new_pairs : loc) (key val : hvalue) (items : list (hvalue * hvalue))
  (key_found : bool) : H bool :=
  match items with
  | [] => hret key_found
  | (existing_key, existing_value) :: rest =>
      eq <- (fun s => (Ok (values_equal s existing_key key), s)) ;;
      if eq : bool then
        append_pair new_pairs (key, val) ;;; assoc_loop new_pairs key val rest true
      else
        append_pair new_pairs (existing_key, existing_value) ;;;
        assoc_loop new_pairs key val rest key_found
  end.

(** [builtin_assoc] *)
Definition builtin_assoc (key val dictionary : hvalue) : H hvalue :=
  match dictionary with
  | HDictionary items =>
      new_pairs <- alloc (Pairs []) ;;
      old <- pairs_at items ;;
      key_found <- assoc_loop new_pairs key val old false ;;
      (if key_found : bool then hret tt else append_pair new_pairs (key, val)) ;;;
      hret (HDictionary new_pairs)
  | _ => hlift (RuntimeError (py "Cannot assoc to " ++ hkind_name dictionary))
  end.

(** The loop of the Set union, appending to [result_items]. *)
Fixpoint union_loop (result_items : loc) (right_items : list hvalue) : H unit :=
  match right_items with
  | [] => hret tt
  | item :: rest =>
      found <- contains result_items item ;;
      (if found : bool then hret tt else append result_items item) ;;;
      union_loop result_items rest
  end.

(** The index of the first pair of [pairs] whose key equals [key]. *)
Fixpoint find_key (s : store) (key : hvalue) (pairs : list (hvalue * hvalue)) (i : nat)
  : option nat :=
  match pairs with
  | [] => None
  | (left_key, _) :: rest =>
      if values_equal s left_key key then Some i else find_key s key rest (S i)
  end.

(** The loop of the Dictionary merge, updating [result_pairs]. *)
Fixpoint merge_loop (result_pairs : loc) (right_items : list (hvalue * hvalue)) : H unit :=
  match right_items with
  | [] => hret tt
  | (right_key, right_value) :: rest =>
      current <- pairs_at result_pairs ;;
      found <- (fun s => (Ok (find_key s right_key current 0), s)) ;;
      match found with
      | Some i => set_pair result_pairs i (right_key, right_value)
      | None => append_pair result_pairs (right_key, right_value)
      end ;;;
      merge_loop result_pairs rest
  end.

(** [add_values]: the cases of two collections act on list objects; in
    every other case the operands are read and the result holds no
    list. *)
Definition add_values (left right : hvalue) : H hvalue :=
  match left, right with
  | HList a, HList b =>
      xs <- items_at a ;;
      ys <- items_at b ;;
      new_items <- alloc (Items (xs ++ ys)) ;;
      hret (HList new_items)
  | HSet a, HSet b =>
      xs <- items_at a ;;
      result_items <- alloc (Items xs) ;;
      ys <- items_at b ;;
      union_loop result_items ys ;;;
      hret (HSet result_items)
  | HDictionary a, HDictionary b =>
      xs <- pairs_at a ;;
      result_pairs <- alloc (Pairs xs) ;;
      ys <- pairs_at b ;;
      merge_loop result_pairs ys ;;;
      hret (HDictionary result_pairs)
  | _, _ =>
      fun s =>
        match read (S (length s)) s left, read (S (length s)) s right with
        | Some l, Some r =>
            match pure_add_values l r with
            | Ok v => match immediate v with
                      | Some h => (Ok h, s)
                      | None => (PyException type_error, s)
                      end
            | RuntimeError e => (RuntimeError e, s)
            | PyException e => (PyException e, s)
            | OutOfFuel => (OutOfFuel, s)
            end
        | _, _ => (PyException type_error, s)
        end
  end.

End Primitives.

(** [values_equal] on objects: equality of the values they stand for. *)
Definition values_equal (s : store) (a b : hvalue) : bool :=
  match read (S (length s)) s a, read (S (length s)) s b with
  | Some x, Some y => pure_values_equal x y
  | _, _ => false
  end.

(** The three operations. *)
Inductive operation : Type :=
| Push (item collection : hvalue)
| Assoc (key val dictionary : hvalue)
| Add (left right : hvalue).

Definition perform (eq : store -> hvalue -> hvalue -> bool) (op : operation) : H hvalue :=
  match op with
  | Push item collection => builtin_push eq item collection
  | Assoc key val dictionary => builtin_assoc eq key val dictionary
  | Add l r => add_values eq l r
  end.

(** A collection the store [s] did not hold: its list object is new. *)
Definition fresh_in (s : store) (v : hvalue) : Prop :=
  match v with
  | HList l | HSet l | HDictionary l => (length s <= l)%nat
  | _ => True
  end.

(** [m], run on a store that begins with [s0], leaves that beginning in
    place, and its result satisfies [P]. *)
Definition frames {A : Type} (s0 : store) (P : A -> Prop) (m : H A) : Prop :=
  forall tail r s',
    m (s0 ++ tail) = (r, s') ->
    (exists tail', s' = s0 ++ tail') /\ (forall a, r = Ok a -> P a).

(** The object [v] stands for the value [x] in the store [s]. *)
Definition denotes (s : store) (v : hvalue) (x : value) : Prop :=
  read (S (length s)) s v = Some x.

(** The objects [xs] read, at [depth], as the values [vs]. *)
Definition reads (depth : nat) (s : store) (xs : list hvalue) (vs : list value) : Prop :=
  all_some (map (read depth s) xs) = Some vs.

Definition read_pair (depth : nat) (s : store) (p : hvalue * hvalue) : option (value * value) :=
  match read depth s (fst p), read depth s (snd p) with
  | Some k, Some v => Some (k, v)
  | _, _ => None
  end.

Definition reads_pairs (depth : nat) (s : store) (xs : list (hvalue * hvalue))
  (vs : list (value * value)) : Prop :=
  all_some (map (read_pair depth s) xs) = Some vs.

(** The outcome [r] of an operation on objects, in the store [s] it
    leaves, is the outcome [p] of the operation on values. *)
Definition agrees (s : store) (r : result hvalue) (p : result value) : Prop :=
  match p, r with
  | Ok pv, Ok hv => denotes s hv pv
  | RuntimeError e, RuntimeError e' => e = e'
  | PyException e, PyException e' => e = e'
  | OutOfFuel, OutOfFuel => True
  | _, _ => False
  end.

End Objects.

(** * Vocabulary of the properties *)

(** The position an index stands for: a negative index counts from the
    end. *)
Definition effective_index (length_ : nat) (idx : Z) : Z :=
  if idx <? 0 then Z.of_nat length_ + idx else idx.

(** What [&&] and [||] compute from the values of their operands. *)
Definition logical_and (l r : value) : value := ElfBoolean (is_truthy l && is_truthy r).

Definition logical_or (l r : value) : value := ElfBoolean (is_truthy l || is_truthy r).


(** A key that [<] orders: every key but that of a NaN Decimal. *)
Definition ordered_key (k : key) : Prop := k <> KDecimal FNaN.

(** The significand of a finite float with its sign. *)
Definition signed (neg : bool) (m : Z) : Z := if neg then - m else m.

(** The store of [xs = [1, 2]] and [d = #{1: 10}]. *)
Definition sample_store : Objects.store :=
  [Objects.Items [Objects.HInteger 1; Objects.HInteger 2];
   Objects.Pairs [(Objects.HInteger 1, Objects.HInteger 10)]].

Definition after (op : Objects.operation) : Objects.store :=
  snd (Objects.perform Objects.values_equal op sample_store).

(** Both facts of the witness below, from a frame theorem [frame] used
    at the operation [op]. *)
Ltac unchanged_after frame op :=
  destruct (frame Objects.values_equal op sample_store
              (after op) (fst (Objects.perform Objects.values_equal op sample_store)))
    as [_ [Hcell [Hread _]]];
  [ unfold after; now destruct (Objects.perform Objects.values_equal op sample_store)
  | split; [apply Hcell; reflexivity | apply Hread; reflexivity] ].

(** The output buffer of [st'] is that of [st] with more appended. *)
Definition grows (st st' : state) : Prop :=
  exists more, output_buffer st' = output_buffer st ++ more.

(** [m] only ever appends to the output buffer. *)
Definition appends {A : Type} (m : M A) : Prop :=
  forall st r st', m st = (r, st') -> grows st st'.

(** Whatever [m1] returns within its fuel, [m2] returns too. *)
Definition refines {A : Type} (m1 m2 : M A) : Prop :=
  forall st r st', m1 st = (r, st') -> r <> OutOfFuel -> m2 st = (r, st').

(** The function [f >> g] as [compose_functions] returns it, [name]
    being the text it is given for a name. *)
Definition composed (name : pystr) (f g : value) : value :=
  ElfBuiltinFunction name (composed_call f g) 1 [].

(** [h(g(f(x)))], each function called the way a composition calls its
    operands: a builtin through [call], a user function from the global
    environment. *)
Definition chain (U : unicode_db) (fuel : nat) (f g h x : value) : M value :=
  first <- apply_function (run U fuel) f [x] ;;
  second <- apply_function (run U fuel) g [first] ;;
  apply_function (run U fuel) h [second].

(** The outcome [r] of a parser run on the tokens [ts] is a result or a
    syntax error, and a result leaves fewer tokens than [ts] ([strict])
    or no more. *)
Definition settled {A : Type} (strict : bool) (ts : list Lexer.Token)
  (r : result (A * list Lexer.Token)) : Prop :=
  r <> OutOfFuel
  /\ (forall e, r <> RuntimeError e)
  /\ forall a ts', r = Ok (a, ts') ->
       if strict then (length ts' < length ts)%nat else (length ts' <= length ts)%nat.

(** [p] settles, consuming a token, on every list of tokens shorter than
    [ts] (not longer than [ts]). *)
Definition below {A : Type} (p : Parser.P A) (ts : list Lexer.Token) : Prop :=
  forall ts1, (length ts1 < length ts)%nat -> settled true ts1 (p ts1).

Definition upto {A : Type} (p : Parser.P A) (ts : list Lexer.Token) : Prop :=
  forall ts1, (length ts1 <= length ts)%nat -> settled true ts1 (p ts1).

(** ** What the lexer leaves of a source *)

(** In the tables of the interpreter every alphabetic character is
    alphanumeric. *)
Definition coherent (U : unicode_db) : Prop :=
  forall c, u_isalpha U c = true -> u_isalnum U c = true.

(** [source[pos : pos + n]] *)
Definition slice (source : pystr) (pos : Z) (n : nat) : pystr :=
  firstn n (skipn (Z.to_nat pos) source).

(** The spellings of the operators and brackets of the language. *)
Definition punctuation : list pystr :=
  [py "=="; py "!="; py ">="; py "<="; py "&&"; py "||"; py "|>"; py ">>"; py "#{";
   py "+"; py "-"; py "*"; py "/"; py "="; py ">"; py "<"; py "{"; py "}"; py "["; py "]";
   py ";"; py "("; py ")"; py ","; py ":"; py "|"].

(** [s.startswith(prefix)] *)
Fixpoint starts_with (prefix s : pystr) : bool :=
  match prefix, s with
  | [], _ => true
  | p :: prefix', c :: s' => (c =? p) && starts_with prefix' s'
  | _ :: _, [] => false
  end.

(** A token begins at the head of the text [s]: a digit, a double quote,
    a letter or an underscore stands there, or the spelling of an
    operator or bracket. *)
Definition begins_token (U : unicode_db) (s : pystr) : bool :=
  match s with
  | [] => false
  | c :: _ =>
      isdigit U c || (c =? 34) || isalpha U c || (c =? 95)
      || existsb (fun operator => starts_with operator s) punctuation
  end.

Definition white_space (c : codepoint) : bool :=
  (c =? 32) || (c =? 9) || (c =? 10) || (c =? 13).

(** The characters of [gap], which the text [after] follows, are such as
    the lexer passes over: each is white space, or stands where no token
    begins. *)
Fixpoint passed_over (U : unicode_db) (gap after : pystr) : bool :=
  match gap with
  | [] => true
  | c :: gap' =>
      (white_space c || negb (begins_token U (gap ++ after))) && passed_over U gap' after
  end.

(** The tokens [ts] spell the text [s] that begins at [pos]: [s] is the
    text of each token in turn, each at its position and none empty, with
    only characters that are passed over before, between and after
    them. *)
Fixpoint spells (U : unicode_db) (ts : list Lexer.Token) (pos : Z) (s : pystr) : Prop :=
  match ts with
  | [] => passed_over U s [] = true
  | t :: ts' =>
      exists gap rest,
        s = gap ++ Lexer.value t ++ rest
        /\ passed_over U gap (Lexer.value t ++ rest) = true
        /\ Lexer.position t = pos + Lexer.len gap
        /\ Lexer.value t <> []
        /\ spells U ts' (Lexer.position t + Lexer.len (Lexer.value t)) rest
  end.

(** The token [a] ends before the token [b] begins. *)
Definition precedes (a b : Lexer.Token) : Prop :=
  Lexer.position a + Lexer.len (Lexer.value a) <= Lexer.position b.

(** A digit or an underscore: what a number token holds besides its dot. *)
Definition digit_or_underscore (U : unicode_db) (c : codepoint) : Prop :=
  isdigit U c = true \/ c = 95.

Definition word_character (U : unicode_db) (c : codepoint) : Prop :=
  isalnum U c = true \/ c = 95.

(** The text a token of each type holds. *)
Definition well_formed (U : unicode_db) (t : Lexer.Token) : Prop :=
  match Lexer.type t with
  | Lexer.INT => Forall (digit_or_underscore U) (Lexer.value t)
  | Lexer.DEC =>
      exists whole fraction,
        Lexer.value t = whole ++ 46 :: fraction
        /\ Forall (digit_or_underscore U) whole /\ Forall (digit_or_underscore U) fraction
  | Lexer.STR => exists body, Lexer.value t = 34 :: body
  | Lexer.CMT => exists body, Lexer.value t = 47 :: 47 :: body /\ ~ In 10 body
  | Lexer.ID | Lexer.LET | Lexer.MUT | Lexer.IF_ | Lexer.ELSE
  | Lexer.TRUE | Lexer.FALSE | Lexer.NIL =>
      Lexer.keyword (Lexer.value t) = Lexer.type t /\ Forall (word_character U) (Lexer.value t)
  | operator => Lexer.value t = Lexer.member_value operator
  end.

(** ** lexer.py: tokenize_to_json_lines *)

(** What [json.dumps] writes for one character of a string when
    [ensure_ascii] is off: the quote, the backslash and the control
    characters are escaped, every other character stands for itself. *)
Definition json_escape (c : codepoint) : pystr :=
  if c =? 92 then [92; 92]
  else if c =? 34 then [92; 34]
  else if c =? 8 then py "\b"
  else if c =? 12 then py "\f"
  else if c =? 10 then py "\n"
  else if c =? 13 then py "\r"
  else if c =? 9 then py "\t"
  else if c <? 32 then py "\u" ++ hex_fixed 4 c
  else [c].

(** [json.dumps(s, ensure_ascii=False)] for a string. *)
Definition json_string (s : pystr) : pystr := dquote ++ flat_map json_escape s ++ dquote.

(** [json.dumps({"type": ..., "value": ...}, separators=(',', ':'), ensure_ascii=False)] *)
Definition token_json (t : Lexer.Token) : pystr :=
  py "{" ++ json_string (py "type") ++ py ":" ++ json_string (Lexer.member_value (Lexer.type t))
  ++ py "," ++ json_string (py "value") ++ py ":" ++ json_string (Lexer.value t) ++ py "}".

(** [tokenize_to_json_lines] *)
Definition tokenize_to_json_lines (U : unicode_db) (source : pystr) : pystr :=
  join [10] (map token_json (Lexer.tokenize U source)).

(** [s.count(c)] *)
Definition count (c : codepoint) (s : pystr) : nat := count_occ Z.eq_dec s c.

(** ** Collections *)

(** No item of [items] equals, by [values_equal], an item after it. *)
Fixpoint distinct (items : list value) : bool :=
  match items with
  | [] => true
  | x :: rest => negb (existsb (fun later => values_equal x later) rest) && distinct rest
  end.

(** [item] is in the Set with these [items], the way [push] and the
    union look for it. *)
Definition member (item : value) (items : list value) : bool :=
  existsb (fun existing => values_equal existing item) items.

(** A value that [values_equal] tells from every value but itself: an
    Integer, a String, a Boolean or Nil. *)
Definition is_scalar (v : value) : bool :=
  match v with
  | ElfInteger _ | ElfString _ | ElfBoolean _ | ElfNil => true
  | _ => false
  end.

(** The value of the last pair of [pairs] whose key equals [index]. *)
Fixpoint lookup_last (pairs : list (value * value)) (index : value) : option value :=
  match pairs with
  | [] => None
  | (key, val) :: rest =>
      match lookup_last rest index with
      | Some v => Some v
      | None => if values_equal key index then Some val else None
      end
  end.

(** One round of the merge: the pair is written over the first pair with
    an equal key, or appended. *)
Definition merge_pair (pairs : list (value * value)) (key val : value) : list (value * value) :=
  match update_first key val pairs with
  | Some updated => updated
  | None => pairs ++ [(key, val)]
  end.

(** A code point that UTF-8 encodes: not a surrogate. *)
Definition encodable (c : codepoint) : Prop :=
  0 <= c <= 1114111 /\ ~ (55296 <= c <= 57343).

(** A value built without a function and without a NaN Decimal. *)
Fixpoint plain (v : value) : bool :=
  match v with
  | ElfInteger _ | ElfString _ | ElfBoolean _ | ElfNil => true
  | ElfDecimal d => match d with DNaN => false | _ => true end
  | ElfList items | ElfSet items => forallb plain items
  | ElfDictionary items => forallb (fun p => plain (fst p) && plain (snd p)) items
  | _ => false
  end.

(** ** Higher-order primitives *)

(** [kept] is [items] with some items left out, the others in order. *)
Inductive subsequence {A : Type} : list A -> list A -> Prop :=
| subsequence_nil : subsequence [] []
| subsequence_skip (x : A) (kept items : list A) :
    subsequence kept items -> subsequence kept (x :: items)
| subsequence_keep (x : A) (kept items : list A) :
    subsequence kept items -> subsequence (x :: kept) (x :: items).

(** The builtin [+] as the global environment holds it. *)
Definition plus : value := ElfBuiltinFunction (py "+") builtin_add 2 [].

(** [sum(zs)] *)
Definition sum_integers (zs : list Z) : Z := fold_right Z.add 0 zs.

(** ** Literals *)

Definition ascii_digit (c : codepoint) : Prop := 48 <= c <= 57.

(** The sort key of an Integer, a String, a Boolean or Nil. *)
Definition scalar_key (v : value) : key :=
  match v with
  | ElfInteger z => KInteger z
  | ElfString s => KString s
  | ElfBoolean b => KBoolean b
  | _ => KNil
  end.

(** A character of a string with no backslash, as [ElfString.__repr__]
    writes it. *)
Definition escaped (c : codepoint) : pystr :=
  if c =? 9 then [92; 116] else if c =? 10 then [92; 110] else [c].

(** ** Division *)

(** The integer part of the float [m * 2^e]. *)
Definition float_floor (m e : Z) : Z := if 0 <=? e then m * 2 ^ e else m / 2 ^ (- e).

(** ** Sums of products, as token lists *)

(** An operand of one token: an Integer literal or an identifier. *)
Definition is_operand (t : Lexer.Token) : bool :=
  match Lexer.type t with
  | Lexer.INT | Lexer.ID => true
  | _ => false
  end.

Definition operand_expr (t : Lexer.Token) : expr :=
  match Lexer.type t with
  | Lexer.INT => EInteger (Lexer.value t)
  | _ => EIdentifier (Lexer.value t)
  end.

Definition has_type (types : list Lexer.TokenType) (t : Lexer.Token) : bool :=
  existsb (Lexer.TokenType_beq (Lexer.type t)) types.

(** [a * b / c ...]: a first operand, then operators each with its
    operand. *)
Definition product : Type := Lexer.Token * list (Lexer.Token * Lexer.Token).

Definition product_ok (p : product) : bool :=
  is_operand (fst p)
  && forallb (fun s => has_type [Lexer.MULTIPLY; Lexer.DIVIDE] (fst s) && is_operand (snd s))
       (snd p).

Definition product_tokens (p : product) : list Lexer.Token :=
  fst p :: flat_map (fun s => [fst s; snd s]) (snd p).

(** The expression of a product, grouped from the left. *)
Definition product_expr (p : product) : expr :=
  fold_left (fun left s => EInfix (Lexer.value (fst s)) left (operand_expr (snd s)))
    (snd p) (operand_expr (fst p)).

(** [p + q - r ...]: a first product, then operators each with its
    product. *)
Definition sum_of_products : Type := product * list (Lexer.Token * product).

Definition sum_ok (s : sum_of_products) : bool :=
  product_ok (fst s)
  && forallb (fun t => has_type [Lexer.PLUS; Lexer.MINUS] (fst t) && product_ok (snd t)) (snd s).

Definition sum_tokens (s : sum_of_products) : list Lexer.Token :=
  product_tokens (fst s) ++ flat_map (fun t => fst t :: product_tokens (snd t)) (snd s).

(** The expression of a sum, grouped from the left, each product one
    operand. *)
Definition sum_expr (s : sum_of_products) : expr :=
  fold_left (fun left t => EInfix (Lexer.value (fst t)) left (product_expr (snd t)))
    (snd s) (product_expr (fst s)).

(** The text [ts] is at its end, or goes on with a token of one of the
    [types]. *)
Definition ends_or_has_type (types : list Lexer.TokenType) (ts : list Lexer.Token) : Prop :=
  match ts with
  | [] => True
  | t :: _ => has_type types t = true
  end.

(** * Properties *)

(** ** Indexing (index_value) *)

Lemma index_seq_in_range {A : Type} (seq : list A) (idx : Z) (wrap : A -> value) :
  0 <= effective_index (length seq) idx < Z.of_nat (length seq) ->
  exists x, nth_error seq (Z.to_nat (effective_index (length seq) idx)) = Some x
            /\ index_seq seq idx wrap = wrap x.
Proof.
  unfold index_seq, effective_index. intros H.
  set (j := if idx <? 0 then Z.of_nat (length seq) + idx else idx) in *.
  destruct (nth_error seq (Z.to_nat j)) as [x|] eqn:E.
  - exists x. split; [reflexivity|].
    replace ((0 <=? j) && (j <? Z.of_nat (length seq))) with true; [reflexivity|].
    symmetry. apply andb_true_iff. split; [apply Z.leb_le | apply Z.ltb_lt]; lia.
  - apply nth_error_None in E. lia.
Qed.

Lemma index_seq_out_of_range {A : Type} (seq : list A) (idx : Z) (wrap : A -> value) :
  ~ (0 <= effective_index (length seq) idx < Z.of_nat (length seq)) ->
  index_seq seq idx wrap = ElfNil.
Proof.
  unfold index_seq, effective_index. intros H.
  set (j := if idx <? 0 then Z.of_nat (length seq) + idx else idx) in *.
  destruct ((0 <=? j) && (j <? Z.of_nat (length seq))) eqn:E; [|reflexivity].
  apply andb_true_iff in E. destruct E as [E1 E2].
  apply Z.leb_le in E1. apply Z.ltb_lt in E2. lia.
Qed.

(** C9.  Indexing a String or a List with an Integer never raises: with
    the index counted from the end when negative, a position inside the
    sequence gives the code point (as a one-character String) or the item
    at that position, and any other position gives Nil.  An index that is
    not an Integer raises
    [Unable to perform index operation, found: String[<Kind>]], or the
    same with [List]. *)
Theorem index_value_string_list :
  (forall (s : pystr) (idx : Z),
      (0 <= effective_index (length s) idx < Z.of_nat (length s) ->
       exists c, nth_error s (Z.to_nat (effective_index (length s) idx)) = Some c
                 /\ index_value (ElfString s) (ElfInteger idx) = Ok (ElfString [c]))
      /\ (~ (0 <= effective_index (length s) idx < Z.of_nat (length s)) ->
          index_value (ElfString s) (ElfInteger idx) = Ok ElfNil))
  /\ (forall (items : list value) (idx : Z),
      (0 <= effective_index (length items) idx < Z.of_nat (length items) ->
       exists x, nth_error items (Z.to_nat (effective_index (length items) idx)) = Some x
                 /\ index_value (ElfList items) (ElfInteger idx) = Ok x)
      /\ (~ (0 <= effective_index (length items) idx < Z.of_nat (length items)) ->
          index_value (ElfList items) (ElfInteger idx) = Ok ElfNil))
  /\ (forall (s : pystr) (index : value),
      (forall z, index <> ElfInteger z) ->
      index_value (ElfString s) index =
        RuntimeError (py "Unable to perform index operation, found: String["
                      ++ kind_name index ++ py "]"))
  /\ (forall (items : list value) (index : value),
      (forall z, index <> ElfInteger z) ->
      index_value (ElfList items) index =
        RuntimeError (py "Unable to perform index operation, found: List["
                      ++ kind_name index ++ py "]")).
Proof.
  split; [|split; [|split]].
  - intros s idx. split; intros H.
    + destruct (index_seq_in_range s idx (fun c => ElfString [c]) H) as [c [E1 E2]].
      exists c. split; [exact E1|]. simpl. now rewrite E2.
    + simpl. now rewrite index_seq_out_of_range.
  - intros items idx. split; intros H.
    + destruct (index_seq_in_range items idx (fun x => x) H) as [x [E1 E2]].
      exists x. split; [exact E1|]. simpl. now rewrite E2.
    + simpl. now rewrite index_seq_out_of_range.
  - intros s index H. destruct index; try reflexivity. now elim (H v).
  - intros items index H. destruct index; try reflexivity. now elim (H v).
Qed.

(** The last character of ["abc"] at index [-1], Nil at index [3], and
    the error for a String used as index. *)
Lemma index_value_string_list_witness :
  index_value (ElfString (py "abc")) (ElfInteger (-1)) = Ok (ElfString (py "c"))
  /\ index_value (ElfString (py "abc")) (ElfInteger 3) = Ok ElfNil
  /\ index_value (ElfList [ElfInteger 7; ElfInteger 8]) (ElfInteger (-2)) = Ok (ElfInteger 7)
  /\ index_value (ElfList [ElfInteger 7; ElfInteger 8]) (ElfInteger (-3)) = Ok ElfNil
  /\ index_value (ElfString (py "abc")) (ElfString (py "a")) =
       RuntimeError (py "Unable to perform index operation, found: String[String]")
  /\ index_value (ElfList []) ElfNil =
       RuntimeError (py "Unable to perform index operation, found: List[Nil]").
Proof.
  destruct index_value_string_list as [HS [HL [HSe HLe]]].
  split; [|split; [|split; [|split; [|split]]]].
  - destruct (HS (py "abc") (-1)) as [Hin _].
    destruct Hin as [c [E1 E2]]; [vm_compute; split; congruence|].
    vm_compute in E1. injection E1 as <-. exact E2.
  - destruct (HS (py "abc") 3) as [_ Hout]. apply Hout. vm_compute. intros [_ H]. discriminate H.
  - destruct (HL [ElfInteger 7; ElfInteger 8] (-2)) as [Hin _].
    destruct Hin as [x [E1 E2]]; [vm_compute; split; congruence|].
    vm_compute in E1. injection E1 as <-. exact E2.
  - destruct (HL [ElfInteger 7; ElfInteger 8] (-3)) as [_ Hout]. apply Hout.
    vm_compute. intros [H _]. now apply H.
  - apply (HSe (py "abc") (ElfString (py "a"))). intros z. discriminate.
  - apply (HLe [] ElfNil). intros z. discriminate.
Defined.

(** ** Logical operators (evaluate_infix) *)

Lemma evaluate_infix_and (U : unicode_db) (rec : request -> M value) (l r : expr) (env : nat) :
  evaluate_infix rec (py "&&") l r env =
  (left <- rec (Eval l env) ;; right <- rec (Eval r env) ;; ret (logical_and left right)).
Proof. reflexivity. Qed.

Lemma evaluate_infix_or (U : unicode_db) (rec : request -> M value) (l r : expr) (env : nat) :
  evaluate_infix rec (py "||") l r env =
  (left <- rec (Eval l env) ;; right <- rec (Eval r env) ;; ret (logical_or left right)).
Proof. reflexivity. Qed.

Lemma bind_ok_inv {A B : Type} (m : M A) (k : A -> M B) (st st' : state) (b : B) :
  bind m k st = (Ok b, st') ->
  exists a st1, m st = (Ok a, st1) /\ k a st1 = (Ok b, st').
Proof.
  unfold bind. destruct (m st) as [[a| | |] st1]; try discriminate.
  intros H. now exists a, st1.
Qed.

(** C10.  An [&&] or [||] expression evaluates its left operand, then its
    right operand in the state the left one leaves, and only then
    combines them: the result is the Boolean conjunction (disjunction) of
    the truthiness of the two values, never one of the operands; an error
    of the right operand is the error of the whole expression whatever
    the left value is. *)
Theorem logical_operators_evaluate_both (U : unicode_db) (fuel : nat) (l r : expr) (env : nat) :
  run U (S fuel) (Eval (EInfix (py "&&") l r) env) =
    (left <- run U fuel (Eval l env) ;; right <- run U fuel (Eval r env) ;;
     ret (logical_and left right))
  /\ run U (S fuel) (Eval (EInfix (py "||") l r) env) =
    (left <- run U fuel (Eval l env) ;; right <- run U fuel (Eval r env) ;;
     ret (logical_or left right))
  /\ (forall operator st v st',
        operator = py "&&" \/ operator = py "||" ->
        run U (S fuel) (Eval (EInfix operator l r) env) st = (Ok v, st') ->
        exists left st1 right,
          run U fuel (Eval l env) st = (Ok left, st1)
          /\ run U fuel (Eval r env) st1 = (Ok right, st')
          /\ v = (if pystr_eqb operator (py "&&") then logical_and left right
                  else logical_or left right))
  /\ (forall operator st left st1 e st2,
        operator = py "&&" \/ operator = py "||" ->
        run U fuel (Eval l env) st = (Ok left, st1) ->
        run U fuel (Eval r env) st1 = (RuntimeError e, st2) ->
        run U (S fuel) (Eval (EInfix operator l r) env) st = (RuntimeError e, st2)).
Proof.
  assert (Hand : run U (S fuel) (Eval (EInfix (py "&&") l r) env) =
                 (left <- run U fuel (Eval l env) ;; right <- run U fuel (Eval r env) ;;
                  ret (logical_and left right))) by reflexivity.
  assert (Hor : run U (S fuel) (Eval (EInfix (py "||") l r) env) =
                (left <- run U fuel (Eval l env) ;; right <- run U fuel (Eval r env) ;;
                 ret (logical_or left right))) by reflexivity.
  split; [exact Hand|]. split; [exact Hor|]. split.
  - intros operator st v st' Hop H.
    destruct Hop as [-> | ->]; [rewrite Hand in H | rewrite Hor in H];
      apply bind_ok_inv in H; destruct H as [left [st1 [H1 H]]];
      apply bind_ok_inv in H; destruct H as [right [st2 [H2 H]]];
      unfold ret in H; injection H as <- <-;
      exists left, st1, right; repeat split; assumption.
  - intros operator st left st1 e st2 Hop H1 H2.
    destruct Hop as [-> | ->]; [rewrite Hand | rewrite Hor];
      unfold bind; rewrite H1, H2; reflexivity.
Qed.

(** [false && (1 / 0)] at top level: the left operand alone decides a
    conjunction, and the division by zero on the right still aborts. *)
Lemma logical_operators_evaluate_both_witness :
  run ascii_db 3 (Eval (EInfix (py "&&") (EBoolean false)
                          (EInfix (py "/") (EInteger (py "1")) (EInteger (py "0")))) global_env)
      initial_state
  = (RuntimeError (py "Division by zero"), initial_state)
  /\ exists left st1 right,
       run ascii_db 1 (Eval (EInteger (py "0")) global_env) initial_state = (Ok left, st1)
       /\ run ascii_db 1 (Eval (EString (py "a")) global_env) st1 = (Ok right, initial_state)
       /\ ElfBoolean true = logical_or left right.
Proof.
  destruct (logical_operators_evaluate_both ascii_db 2 (EBoolean false)
              (EInfix (py "/") (EInteger (py "1")) (EInteger (py "0"))) global_env)
    as [_ [_ [_ Herr]]].
  destruct (logical_operators_evaluate_both ascii_db 1 (EInteger (py "0"))
              (EString (py "a")) global_env) as [_ [_ [Hok _]]].
  split.
  - apply (Herr (py "&&") initial_state (ElfBoolean false) initial_state).
    + left; reflexivity.
    + reflexivity.
    + reflexivity.
  - apply (Hok (py "||") initial_state (ElfBoolean true) initial_state).
    + right; reflexivity.
    + reflexivity.
Defined.

(** ** Set and Dictionary literals (evaluate_expression) *)

(** The Set branch returns every evaluated item, in order, once none of
    them is a Dictionary: nothing removes an item equal to an earlier
    one. *)
Lemma set_literal_keeps_every_item (U : unicode_db) (rec : request -> M value)
  (items : list expr) (env : nat) (st st' : state) (vs : list value) :
  mapM (fun item => rec (Eval item env)) items st = (Ok vs, st') ->
  existsb is_dictionary vs = false ->
  evaluate_expression U rec (ESet items) env st = (Ok (ElfSet vs), st').
Proof.
  intros H Hd. simpl. unfold bind. rewrite H, Hd. reflexivity.
Qed.

(** C2.  The program [{ 3, 1, 2, 1 }] prints [{1, 1, 2, 3}]: the Set the
    literal builds holds the structurally equal items [1] and [1], where
    the specification has [{1, 2, 3}]. *)
Theorem set_literal_keeps_duplicates :
  evaluate_program ascii_db 5 (py "{ 3, 1, 2, 1 }") = Some (py "{1, 1, 2, 3}")
  /\ run ascii_db 5 (Eval (ESet [EInteger (py "3"); EInteger (py "1"); EInteger (py "2");
                                 EInteger (py "1")]) global_env) initial_state
     = (Ok (ElfSet [ElfInteger 3; ElfInteger 1; ElfInteger 2; ElfInteger 1]), initial_state)
  /\ values_equal (ElfInteger 1) (ElfInteger 1) = true.
Proof. vm_compute. repeat split. Qed.

(** C5.  The program [#{1: 10, 1: 20}] builds a Dictionary with two pairs
    under the key [1]: it prints both, its size is 2, and a lookup finds
    the first pair written, where the specification has the key once, bound to
    the last value. *)
Theorem dictionary_literal_keeps_duplicate_keys :
  evaluate_program ascii_db 5 (py "#{1: 10, 1: 20}") = Some (py "#{1: 10, 1: 20}")
  /\ evaluate_program ascii_db 5 (py "let d = #{1: 10, 1: 20}; size(d)") = Some (py "2")
  /\ evaluate_program ascii_db 5 (py "let d = #{1: 10, 1: 20}; d[1]") = Some (py "10")
  /\ evaluate_program ascii_db 5 (py "let d = assoc(1, 20, #{1: 10}); d") = Some (py "#{1: 20}")
  /\ evaluate_program ascii_db 5 (py "#{1: 10} + #{1: 20}") = Some (py "#{1: 20}").
Proof. vm_compute. repeat split. Qed.

(** ** Division (divide_values) *)

Lemma divide_by_zero (a : Z) :
  divide_values (ElfInteger a) (ElfInteger 0) = RuntimeError (py "Division by zero").
Proof. reflexivity. Qed.

(** C4.  [9007199254740993 / 1] evaluates to [9007199254740992]: the
    quotient is taken as a float and then truncated, and 2^53 + 1 is not
    a float.  The quotient truncated toward zero is [9007199254740993].
    A quotient too large for a float raises [OverflowError], which is
    not a [RuntimeError], so the text returned has no [[Error]] prefix. *)
Theorem integer_division_goes_through_float :
  divide_values (ElfInteger 9007199254740993) (ElfInteger 1) = Ok (ElfInteger 9007199254740992)
  /\ Z.quot 9007199254740993 1 = 9007199254740993
  /\ evaluate_program ascii_db 5 (py "9007199254740993 / 1") = Some (py "9007199254740992")
  /\ divide_values (ElfInteger (10 ^ 400)) (ElfInteger 1)
     = PyException (py "integer division result too large for a float").
Proof. vm_compute. repeat split. Qed.

(** ** Partial application (call_user_function) *)

(** A user function defined by a literal, called with fewer arguments
    than parameters, returns a function of the remaining parameters whose
    closure is a dict of the bound arguments only: the environment [c] of
    the definition is not part of the result. *)
Lemma call_user_function_partial (rec : request -> M value) (parameters : list pystr)
  (body : block) (c : nat) (args : list value) (env : nat) (st : state) :
  (length args < length parameters)%nat ->
  call_user_function rec (ElfFunction parameters body (EnvRef c)) args env st
  = (Ok (ElfFunction (skipn (length args) parameters) body
           (EnvDict (bind_args [] parameters args))), st).
Proof.
  intros H. unfold call_user_function.
  apply Nat.ltb_lt in H. rewrite H. reflexivity.
Qed.

(** C1.  With [make = |c| |a, b| a + b + c] and [f = make(10)], the call
    [f(1, 2)] returns 13 while [f(1)(2)] raises
    [Identifier can not be found: c]: the function [f(1)] returns lost the
    environment in which [f] was defined, and looks [c] up in the
    environment of its caller. *)
Theorem partial_application_loses_closure :
  evaluate_program ascii_db 10
    (py "let make = |c| |a, b| a + b + c; let f = make(10); f(1, 2)") = Some (py "13")
  /\ evaluate_program ascii_db 10
    (py "let make = |c| |a, b| a + b + c; let f = make(10); f(1)(2)")
     = Some (py "[Error] Identifier can not be found: c")
  /\ evaluate_program ascii_db 10
    (py "let make = |c| |a, b| a + b + c; let f = make(10); let c = 500; f(1)(2)")
     = Some (py "503").
Proof. vm_compute. repeat split. Qed.

(** ** Composition (compose_functions) *)

(** C6.  [inc] is the partial application [add(1)] of
    [add = |a, b| a + b + z], and [id = |v| v].  Inside a function whose
    parameter is [z], called with 100 while the global [z] is 1000, the
    direct calls [id(id(inc(5)))] return 106 and both compositions,
    [((inc >> id) >> id)(5)] and [(inc >> (id >> id))(5)], return 1006:
    a composed function calls its operands from the global environment,
    and a partial application reads the environment of its caller. *)
Theorem composition_differs_from_direct_calls :
  evaluate_program ascii_db 12
    (py "let z = 1000; let add = |a, b| a + b + z; let inc = add(1); let id = |v| v; let t = |z| id(id(inc(5))); t(100)")
  = Some (py "106")
  /\ evaluate_program ascii_db 12
    (py "let z = 1000; let add = |a, b| a + b + z; let inc = add(1); let id = |v| v; let t = |z| ((inc >> id) >> id)(5); t(100)")
  = Some (py "1006")
  /\ evaluate_program ascii_db 12
    (py "let z = 1000; let add = |a, b| a + b + z; let inc = add(1); let id = |v| v; let t = |z| (inc >> (id >> id))(5); t(100)")
  = Some (py "1006").
Proof. vm_compute. repeat split. Qed.

(** ** The parser returns on every source *)

Module ParserFacts.
Import Lexer Parser.

Lemma settled_weaken {A : Type} (ts : list Token) (r : result (A * list Token)) :
  settled true ts r -> settled false ts r.
Proof.
  intros [H1 [H2 H3]]. split; [exact H1|]. split; [exact H2|].
  intros a ts' E. specialize (H3 a ts' E). simpl in *. lia.
Qed.

Lemma settled_longer {A : Type} (s : bool) (ts ts0 : list Token) (r : result (A * list Token)) :
  (length ts <= length ts0)%nat -> settled s ts r -> settled s ts0 r.
Proof.
  intros Hl [H1 [H2 H3]]. split; [exact H1|]. split; [exact H2|].
  intros a ts' E. specialize (H3 a ts' E). destruct s; lia.
Qed.

Lemma settled_shorter {A : Type} (ts ts0 : list Token) (r : result (A * list Token)) :
  (length ts < length ts0)%nat -> settled false ts r -> settled true ts0 r.
Proof.
  intros Hl [H1 [H2 H3]]. split; [exact H1|]. split; [exact H2|].
  intros a ts' E. specialize (H3 a ts' E). simpl in *. lia.
Qed.

Lemma settled_ok {A : Type} (a : A) (ts : list Token) : settled false ts (Ok (a, ts)).
Proof.
  split; [discriminate|]. split; [discriminate|].
  intros b ts' E. injection E as <- <-. simpl. lia.
Qed.

Lemma settled_ok_tl {A : Type} (a : A) (t : Token) (ts : list Token) :
  settled true (t :: ts) (Ok (a, ts)).
Proof.
  split; [discriminate|]. split; [discriminate|].
  intros b ts' E. injection E as <- <-. simpl. lia.
Qed.

Lemma settled_error {A : Type} (s : bool) (msg : pystr) (ts : list Token) :
  settled s ts (@SyntaxError (A * list Token) msg).
Proof. split; [discriminate|]. split; discriminate. Qed.

Lemma settled_rbind {A B : Type} (s : bool) (ts : list Token) (r : result (A * list Token))
  (k : A * list Token -> result (B * list Token)) :
  settled false ts r ->
  (forall a ts1, r = Ok (a, ts1) -> settled s ts1 (k (a, ts1))) ->
  settled s ts (rbind r k).
Proof.
  intros [H1 [H2 H3]] Hk.
  destruct r as [[a ts1]| | |]; simpl.
  - apply (settled_longer s ts1 ts); [apply (H3 a ts1 eq_refl) | now apply Hk].
  - now elim (H2 msg).
  - split; [discriminate|]. split; discriminate.
  - now elim H1.
Qed.

Lemma settled_rbind_first {A B : Type} (ts : list Token) (r : result (A * list Token))
  (k : A * list Token -> result (B * list Token)) :
  settled true ts r ->
  (forall a ts1, r = Ok (a, ts1) -> (length ts1 < length ts)%nat ->
                 settled false ts1 (k (a, ts1))) ->
  settled true ts (rbind r k).
Proof.
  intros [H1 [H2 H3]] Hk.
  destruct r as [[a ts1]| | |]; simpl.
  - apply (settled_shorter ts1 ts); [apply (H3 a ts1 eq_refl)|].
    apply Hk; [reflexivity | apply (H3 a ts1 eq_refl)].
  - now elim (H2 msg).
  - split; [discriminate|]. split; discriminate.
  - now elim H1.
Qed.

Section Totality.
Variable U : unicode_db.

Lemma settles_expect (t : TokenType) (ts : list Token) : settled true ts (expect U t ts).
Proof.
  destruct ts as [|tok ts]; unfold expect, pbind; simpl.
  - apply settled_error.
  - destruct (TokenType_beq (type tok) t); simpl.
    + apply settled_ok_tl.
    + apply settled_error.
Qed.

Lemma settles_skip_comments (ts : list Token) : settled false ts (skip_comments ts).
Proof.
  induction ts as [|t ts IH]; simpl.
  - apply settled_ok.
  - destruct (TokenType_beq (type t) CMT).
    + apply (settled_longer false ts); [simpl; lia | exact IH].
    + apply settled_ok.
Qed.

Lemma settles_optional_semicolon (ts : list Token) :
  settled false ts (optional_semicolon ts).
Proof.
  unfold optional_semicolon, pbind. simpl.
  destruct (is_type (hd_error ts) SEMICOLON); simpl; [|apply settled_ok].
  destruct ts; simpl; [apply settled_ok | apply settled_weaken, settled_ok_tl].
Qed.

(** The end of a statement: an optional [;], then the statement. *)
Lemma settles_semicolon_then {A : Type} (a : A) (ts : list Token) :
  settled false ts (pbind optional_semicolon (fun _ => pret a) ts).
Proof.
  unfold pbind. apply settled_rbind; [apply settles_optional_semicolon|].
  intros x ts1 _. apply settled_ok.
Qed.

Lemma settles_parse_statement_with (pe : P expr) (t : Token) (ts : list Token) :
  upto pe (t :: ts) -> settled true (t :: ts) (parse_statement_with U pe (t :: ts)).
Proof.
  intros Hpe. unfold parse_statement_with, pbind at 1. simpl.
  destruct (TokenType_beq (type t) CMT); [apply settled_ok_tl|].
  unfold pbind at 1. simpl.
  destruct (TokenType_beq (type t) ID && is_type (hd_error ts) ASSIGN).
  - unfold pbind at 1. simpl. unfold pbind at 1.
    apply (settled_shorter ts); [simpl; lia|].
    apply settled_rbind; [apply settled_weaken, settles_expect|]. intros x ts1 E1. simpl.
    unfold pbind at 1.
    apply settled_rbind.
    + apply settled_weaken, Hpe.
      destruct (settles_expect ASSIGN ts) as [_ [_ H]]. specialize (H x ts1 E1).
      simpl in *. lia.
    + intros v ts2 _. apply settles_semicolon_then.
  - unfold pbind at 1. apply settled_rbind_first; [apply Hpe; lia|].
    intros e ts1 _ _. apply settles_semicolon_then.
Qed.

Lemma skip_comments_length (ts ts1 : list Token) (x : unit) :
  skip_comments ts = Ok (x, ts1) -> (length ts1 <= length ts)%nat.
Proof.
  intros E. destruct (settles_skip_comments ts) as [_ [_ H]]. apply (H x ts1 E).
Qed.

Section Expression.
Variable rec : P expr.

Lemma settles_block_loop (rounds : nat) (statements : list stmt) (ts : list Token) :
  upto rec ts -> (length ts <= rounds)%nat ->
  settled false ts (block_loop U rec rounds statements ts).
Proof.
  revert statements ts. induction rounds as [|rounds IH]; intros statements ts Hrec Hl.
  - destruct ts; [apply settled_ok | simpl in Hl; lia].
  - destruct ts as [|t ts]; [apply settled_ok|]. simpl.
    destruct (TokenType_beq (type t) RBRACE) eqn:ERB; [apply settled_ok|].
    unfold pbind at 1. apply settled_rbind; [apply settles_skip_comments|].
    intros x ts1 E. pose proof (skip_comments_length _ _ _ E) as Hl1.
    unfold pbind at 1. simpl.
    destruct ts1 as [|t' ts1]; simpl.
    + apply IH; [intros ts2 H2; apply Hrec; simpl in *; lia | simpl; lia].
    + destruct (TokenType_beq (type t') RBRACE) eqn:ERB'.
      * apply IH; [intros ts2 H2; apply Hrec; simpl in *; lia|].
        simpl in E. destruct (TokenType_beq (type t) CMT).
        -- apply skip_comments_length in E. simpl in *. lia.
        -- injection E as <- <-. congruence.
      * unfold pbind at 1. apply settled_rbind.
        -- apply settled_weaken, settles_parse_statement_with.
           intros ts2 H2. apply Hrec. simpl in *. lia.
        -- intros s ts2 E2.
           assert (Hl2 : (length ts2 < length (t' :: ts1))%nat).
           { destruct (settles_parse_statement_with rec t' ts1) as [_ [_ H]].
             - intros ts3 H3. apply Hrec. simpl in *. lia.
             - apply (H s ts2 E2). }
           destruct s; apply IH; try (intros ts3 H3; apply Hrec; simpl in *; lia);
             simpl in *; lia.
Qed.

Lemma settles_parse_block (ts : list Token) :
  below rec ts -> settled true ts (parse_block U rec ts).
Proof.
  intros Hrec. unfold parse_block, pbind at 1.
  apply settled_rbind_first; [apply settles_expect|]. intros x ts1 _ H1. simpl.
  unfold pbind at 1. apply settled_rbind.
  - apply settles_block_loop; [|lia]. intros ts2 H2. apply Hrec. lia.
  - intros statements ts2 _. simpl. unfold pbind at 1.
    apply settled_rbind; [apply settled_weaken, settles_expect|].
    intros y ts3 _. apply settled_ok.
Qed.

Lemma settles_items_loop (rounds : nat) (close : TokenType) (items : list expr)
  (ts : list Token) :
  upto rec ts -> (length ts <= rounds)%nat ->
  settled false ts (items_loop rec rounds close items ts).
Proof.
  revert items ts. induction rounds as [|rounds IH]; intros items ts Hrec Hl.
  - destruct ts; [apply settled_ok | simpl in Hl; lia].
  - destruct ts as [|t ts]; [apply settled_ok|]. simpl.
    destruct (TokenType_beq (type t) close); [apply settled_ok|].
    unfold pbind at 1. apply settled_rbind; [apply settled_weaken, Hrec; lia|].
    intros e ts1 E.
    assert (Hl1 : (length ts1 < length (t :: ts))%nat).
    { destruct (Hrec (t :: ts) (Nat.le_refl _)) as [_ [_ H]]. apply (H e ts1 E). }
    simpl. unfold pbind at 1. simpl.
    assert (Hloop : forall ts2, (length ts2 <= length ts1)%nat ->
              settled false ts2 (items_loop rec rounds close (items ++ [e]) ts2)).
    { intros ts2 H2. apply IH; [intros ts3 H3; apply Hrec; simpl in *; lia|].
      simpl in *. lia. }
    destruct (is_type (hd_error ts1) COMMA).
    + unfold pbind at 1. simpl.
      apply (settled_longer false (tl ts1)); [destruct ts1; simpl; lia|].
      apply Hloop. destruct ts1; simpl; lia.
    + destruct (hd_error ts1) as [t'|].
      * destruct (TokenType_beq (type t') close); [apply Hloop; lia | apply settled_ok].
      * apply Hloop; lia.
Qed.

Lemma settles_parse_items (open close : TokenType) (ts : list Token) :
  below rec ts -> settled true ts (parse_items U rec open close ts).
Proof.
  intros Hrec. unfold parse_items, pbind at 1.
  apply settled_rbind_first; [apply settles_expect|]. intros x ts1 _ H1. simpl.
  unfold pbind at 1. apply settled_rbind.
  - apply settles_items_loop; [|lia]. intros ts2 H2. apply Hrec. lia.
  - intros items ts2 _. simpl. unfold pbind at 1.
    apply settled_rbind; [apply settled_weaken, settles_expect|].
    intros y ts3 _. apply settled_ok.
Qed.

Lemma settles_parse_list (ts : list Token) :
  below rec ts -> settled true ts (parse_list U rec ts).
Proof.
  intros Hrec. unfold parse_list, pbind at 1.
  apply settled_rbind_first; [now apply settles_parse_items|].
  intros items ts1 _ _. apply settled_ok.
Qed.

Lemma settles_parse_set (ts : list Token) :
  below rec ts -> settled true ts (parse_set U rec ts).
Proof.
  intros Hrec. unfold parse_set, pbind at 1.
  apply settled_rbind_first; [now apply settles_parse_items|].
  intros items ts1 _ _. apply settled_ok.
Qed.

Lemma settles_pairs_loop (rounds : nat) (items : list (expr * expr)) (ts : list Token) :
  upto rec ts -> (length ts <= rounds)%nat ->
  settled false ts (pairs_loop U rec rounds items ts).
Proof.
  revert items ts. induction rounds as [|rounds IH]; intros items ts Hrec Hl.
  - destruct ts; [apply settled_ok | simpl in Hl; lia].
  - destruct ts as [|t ts]; [apply settled_ok|]. simpl.
    destruct (TokenType_beq (type t) RBRACE); [apply settled_ok|].
    unfold pbind at 1. apply settled_rbind; [apply settled_weaken, Hrec; lia|].
    intros key ts1 E.
    assert (Hl1 : (length ts1 < length (t :: ts))%nat).
    { destruct (Hrec (t :: ts) (Nat.le_refl _)) as [_ [_ H]]. apply (H key ts1 E). }
    simpl. unfold pbind at 1.
    apply settled_rbind; [apply settled_weaken, settles_expect|]. intros x ts2 E2.
    assert (Hl2 : (length ts2 < length ts1)%nat).
    { destruct (settles_expect COLON ts1) as [_ [_ H]]. apply (H x ts2 E2). }
    simpl. unfold pbind at 1.
    apply settled_rbind; [apply settled_weaken, Hrec; simpl in *; lia|]. intros val ts3 E3.
    assert (Hl3 : (length ts3 < length ts2)%nat).
    { destruct (Hrec ts2) as [_ [_ H]]; [simpl in *; lia|]. apply (H val ts3 E3). }
    simpl. unfold pbind at 1. simpl.
    assert (Hloop : forall ts4, (length ts4 <= length ts3)%nat ->
              settled false ts4 (pairs_loop U rec rounds (items ++ [(key, val)]) ts4)).
    { intros ts4 H4. apply IH; [intros ts5 H5; apply Hrec; simpl in *; lia|].
      simpl in *. lia. }
    destruct (is_type (hd_error ts3) COMMA).
    + unfold pbind at 1. simpl.
      apply (settled_longer false (tl ts3)); [destruct ts3; simpl; lia|].
      apply Hloop. destruct ts3; simpl; lia.
    + destruct (hd_error ts3) as [t'|].
      * destruct (TokenType_beq (type t') RBRACE); [apply Hloop; lia | apply settled_ok].
      * apply Hloop; lia.
Qed.

Lemma settles_parse_dictionary (ts : list Token) :
  below rec ts -> settled true ts (parse_dictionary U rec ts).
Proof.
  intros Hrec. unfold parse_dictionary, pbind at 1.
  apply settled_rbind_first; [apply settles_expect|]. intros x ts1 _ H1. simpl.
  unfold pbind at 1. apply settled_rbind.
  - apply settles_pairs_loop; [|lia]. intros ts2 H2. apply Hrec. lia.
  - intros items ts2 _. simpl. unfold pbind at 1.
    apply settled_rbind; [apply settled_weaken, settles_expect|].
    intros y ts3 _. apply settled_ok.
Qed.

Lemma settles_parse_body (ts : list Token) :
  upto rec ts -> settled false ts (parse_body U rec ts).
Proof.
  intros Hrec. unfold parse_body, pbind at 1. simpl.
  destruct (is_type (hd_error ts) LBRACE).
  - apply settled_weaken, settles_parse_block. intros ts1 H1. apply Hrec. lia.
  - unfold pbind at 1. apply settled_rbind; [apply settled_weaken, Hrec; lia|].
    intros e ts1 _. apply settled_ok.
Qed.

Lemma settles_parameters_loop (ts : list Token) (parameters : list pystr) :
  settled false ts (parameters_loop ts parameters).
Proof.
  remember (length ts) as n eqn:Hn. revert ts parameters Hn.
  induction n as [n IH] using lt_wf_ind. intros ts parameters Hn.
  destruct ts as [|t ts]; [apply settled_ok|]. simpl.
  destruct (TokenType_beq (type t) PIPE); [apply settled_ok|].
  destruct (TokenType_beq (type t) ID); [|apply settled_ok].
  destruct ts as [|t' ts]; [apply settled_weaken, settled_ok_tl|].
  destruct (TokenType_beq (type t') COMMA).
  - apply (settled_longer false ts); [simpl; lia|].
    apply (IH (length ts)); [simpl in Hn; lia | reflexivity].
  - apply (settled_longer false (t' :: ts)); [simpl; lia|].
    apply (IH (length (t' :: ts))); [simpl in *; lia | reflexivity].
Qed.

Lemma settles_parse_function (ts : list Token) :
  below rec ts -> settled true ts (parse_function U rec ts).
Proof.
  intros Hrec. unfold parse_function, pbind at 1.
  apply settled_rbind_first; [apply settles_expect|]. intros x ts1 _ H1. simpl.
  unfold pbind at 1. apply settled_rbind; [apply settles_parameters_loop|].
  intros parameters ts2 E2.
  assert (Hl2 : (length ts2 <= length ts1)%nat).
  { destruct (settles_parameters_loop ts1 []) as [_ [_ H]]. apply (H parameters ts2 E2). }
  simpl. unfold pbind at 1.
  apply settled_rbind; [apply settled_weaken, settles_expect|]. intros y ts3 E3.
  assert (Hl3 : (length ts3 < length ts2)%nat).
  { destruct (settles_expect PIPE ts2) as [_ [_ H]]. apply (H y ts3 E3). }
  simpl. unfold pbind at 1. apply settled_rbind.
  - apply settles_parse_body. intros ts4 H4. apply Hrec. lia.
  - intros body ts4 _. apply settled_ok.
Qed.

Lemma settles_parse_zero_param_function (ts : list Token) :
  below rec ts -> settled true ts (parse_zero_param_function U rec ts).
Proof.
  intros Hrec. unfold parse_zero_param_function, pbind at 1.
  apply settled_rbind_first; [apply settles_expect|]. intros x ts1 _ H1. simpl.
  unfold pbind at 1. apply settled_rbind.
  - apply settles_parse_body. intros ts4 H4. apply Hrec. lia.
  - intros body ts4 _. apply settled_ok.
Qed.

Lemma settles_parse_let (ts : list Token) :
  below rec ts -> settled true ts (parse_let U rec ts).
Proof.
  intros Hrec. unfold parse_let, pbind at 1.
  apply settled_rbind_first; [apply settles_expect|]. intros x ts1 _ H1. simpl.
  unfold pbind at 1. simpl. unfold pbind at 1.
  apply (settled_rbind false ts1
           ((if is_type (hd_error ts1) MUT then pbind advance (fun _ => pret true)
             else pret false) ts1)).
  - destruct (is_type (hd_error ts1) MUT); [|apply settled_ok].
    unfold pbind. simpl. destruct ts1; [apply settled_ok | apply settled_weaken, settled_ok_tl].
  - intros is_mutable ts2 E2. simpl. unfold pbind at 1. simpl.
    assert (Hl2 : (length ts2 <= length ts1)%nat).
    { destruct (is_type (hd_error ts1) MUT).
      - unfold pbind in E2. simpl in E2. injection E2 as _ <-. destruct ts1; simpl; lia.
      - injection E2 as _ <-. lia. }
    destruct (is_type (hd_error ts2) ID); [|apply settled_error].
    destruct ts2 as [|t ts2]; simpl; [apply settled_error|].
    unfold pbind at 1. simpl. unfold pbind at 1.
    apply (settled_longer false ts2); [simpl; lia|].
    apply settled_rbind; [apply settled_weaken, settles_expect|]. intros y ts3 E3.
    assert (Hl3 : (length ts3 < length ts2)%nat).
    { destruct (settles_expect ASSIGN ts2) as [_ [_ H]]. apply (H y ts3 E3). }
    simpl. unfold pbind at 1.
    apply settled_rbind; [apply settled_weaken, Hrec; simpl in *; lia|].
    intros v ts4 _. apply settled_ok.
Qed.

Lemma settles_parse_if (ts : list Token) :
  below rec ts -> settled true ts (parse_if U rec ts).
Proof.
  intros Hrec. unfold parse_if, pbind at 1.
  apply settled_rbind_first; [apply settles_expect|]. intros x ts1 _ H1. simpl.
  unfold pbind at 1.
  apply settled_rbind; [apply settled_weaken, Hrec; lia|]. intros condition ts2 E2.
  assert (Hl2 : (length ts2 < length ts1)%nat).
  { destruct (Hrec ts1 H1) as [_ [_ H]]. apply (H condition ts2 E2). }
  simpl. unfold pbind at 1.
  assert (Hblock : forall ts3, (length ts3 <= length ts2)%nat ->
            settled true ts3 (parse_block U rec ts3)).
  { intros ts3 H3. apply settles_parse_block. intros ts4 H4. apply Hrec. lia. }
  apply settled_rbind; [apply settled_weaken, Hblock; lia|]. intros consequence ts3 E3.
  assert (Hl3 : (length ts3 < length ts2)%nat).
  { destruct (Hblock ts2 (Nat.le_refl _)) as [_ [_ H]]. apply (H consequence ts3 E3). }
  simpl. unfold pbind at 1. simpl. unfold pbind at 1.
  apply (settled_rbind false ts3
           ((if is_type (hd_error ts3) ELSE
             then pbind advance (fun _ => pbind (parse_block U rec) (fun alt => pret (Some alt)))
             else pret None) ts3)).
  - destruct (is_type (hd_error ts3) ELSE); [|apply settled_ok].
    unfold pbind at 1. simpl. unfold pbind at 1.
    apply (settled_longer false (tl ts3)); [destruct ts3; simpl; lia|].
    apply settled_rbind.
    + apply settled_weaken, Hblock. destruct ts3; simpl in *; lia.
    + intros alt ts4 _. apply settled_ok.
  - intros alternative ts4 _. apply settled_ok.
Qed.

Lemma settles_parse_primary (ts : list Token) :
  below rec ts -> settled true ts (parse_primary U rec ts).
Proof.
  intros Hrec. unfold parse_primary, pbind at 1. simpl.
  destruct ts as [|t ts]; simpl; [apply settled_error|].
  destruct (type t) eqn:Et;
    try (unfold pbind; simpl; apply settled_ok_tl);
    try apply settled_error.
  - now apply settles_parse_let.
  - now apply settles_parse_if.
  - now apply settles_parse_zero_param_function.
  - now apply settles_parse_dictionary.
  - now apply settles_parse_set.
  - now apply settles_parse_list.
  - unfold pbind at 1. simpl. unfold pbind at 1.
    apply (settled_shorter ts); [simpl; lia|].
    apply settled_rbind; [apply settled_weaken, Hrec; simpl; lia|]. intros e ts1 _.
    simpl. unfold pbind at 1.
    apply settled_rbind; [apply settled_weaken, settles_expect|].
    intros y ts2 _. apply settled_ok.
  - now apply settles_parse_function.
Qed.

Lemma settles_postfix_loop (rounds : nat) (left : expr) (ts : list Token) :
  below rec ts -> (length ts <= rounds)%nat ->
  settled false ts (postfix_loop U rec rounds left ts).
Proof.
  revert left ts. induction rounds as [|rounds IH]; intros left ts Hrec Hl.
  - destruct ts; [apply settled_ok | simpl in Hl; lia].
  - destruct ts as [|t ts]; [apply settled_ok|]. simpl.
    assert (Hloop : forall l ts1, (length ts1 <= length ts)%nat ->
              settled false ts1 (postfix_loop U rec rounds l ts1)).
    { intros l ts1 H1. apply IH; [intros ts2 H2; apply Hrec; simpl; lia | simpl in *; lia]. }
    destruct (TokenType_beq (type t) LBRACKET).
    + apply (settled_longer false ts); [simpl; lia|]. unfold pbind at 1.
      apply settled_rbind; [apply settled_weaken, Hrec; simpl; lia|]. intros index ts1 E1.
      assert (Hl1 : (length ts1 < length ts)%nat).
      { destruct (Hrec ts) as [_ [_ H]]; [simpl; lia|]. apply (H index ts1 E1). }
      simpl. unfold pbind at 1.
      apply settled_rbind; [apply settled_weaken, settles_expect|]. intros y ts2 E2.
      assert (Hl2 : (length ts2 < length ts1)%nat).
      { destruct (settles_expect RBRACKET ts1) as [_ [_ H]]. apply (H y ts2 E2). }
      apply Hloop. simpl. lia.
    + destruct (TokenType_beq (type t) LPAREN); [|apply settled_ok].
      apply (settled_longer false ts); [simpl; lia|]. unfold pbind at 1.
      apply settled_rbind.
      * apply settles_items_loop; [|lia]. intros ts1 H1. apply Hrec. simpl. lia.
      * intros arguments ts1 E1.
        assert (Hl1 : (length ts1 <= length ts)%nat).
        { destruct (settles_items_loop (length ts) RPAREN [] ts) as [_ [_ H]].
          - intros ts2 H2. apply Hrec. simpl. lia.
          - lia.
          - apply (H arguments ts1 E1). }
        simpl. unfold pbind at 1.
        apply settled_rbind; [apply settled_weaken, settles_expect|]. intros y ts2 E2.
        assert (Hl2 : (length ts2 < length ts1)%nat).
        { destruct (settles_expect RPAREN ts1) as [_ [_ H]]. apply (H y ts2 E2). }
        apply Hloop. simpl. lia.
Qed.

Lemma settles_parse_postfix (ts : list Token) :
  below rec ts -> settled true ts (parse_postfix U rec ts).
Proof.
  intros Hrec. unfold parse_postfix, pbind at 1.
  apply settled_rbind_first; [now apply settles_parse_primary|]. intros left ts1 _ H1.
  simpl. apply settles_postfix_loop; [|lia]. intros ts2 H2. apply Hrec. lia.
Qed.

Lemma settles_unary_loop (rounds : nat) (ts : list Token) :
  below rec ts -> (length ts <= rounds)%nat ->
  settled true ts (unary_loop U rec rounds ts).
Proof.
  revert ts. induction rounds as [|rounds IH]; intros ts Hrec Hl.
  - destruct ts; [|simpl in Hl; lia]. simpl. now apply settles_parse_postfix.
  - destruct ts as [|t ts]; simpl; [now apply settles_parse_postfix|].
    destruct (TokenType_beq (type t) MINUS); [|now apply settles_parse_postfix].
    apply (settled_longer true ts); [simpl; lia|]. unfold pbind at 1.
    apply settled_rbind_first.
    + apply IH; [intros ts1 H1; apply Hrec; simpl; lia | simpl in Hl; lia].
    + intros operand ts1 _ _. apply settled_ok.
Qed.

Lemma settles_parse_unary (ts : list Token) :
  below rec ts -> settled true ts (parse_unary U rec ts).
Proof. intros Hrec. unfold parse_unary. now apply settles_unary_loop. Qed.

End Expression.

(** A level of infix operators settles where its operand does. *)
Lemma settles_infix_loop (rounds : nat) (operators : list TokenType) (operand : P expr)
  (left : expr) (ts : list Token) :
  upto operand ts -> (length ts <= rounds)%nat ->
  settled false ts (infix_loop rounds operators operand left ts).
Proof.
  revert left ts. induction rounds as [|rounds IH]; intros left ts Hop Hl.
  - destruct ts; [apply settled_ok | simpl in Hl; lia].
  - destruct ts as [|t ts]; [apply settled_ok|]. simpl.
    destruct (existsb (TokenType_beq (type t)) operators); [|apply settled_ok].
    apply (settled_longer false ts); [simpl; lia|]. unfold pbind at 1.
    apply settled_rbind; [apply settled_weaken, Hop; simpl; lia|]. intros right ts1 E1.
    assert (Hl1 : (length ts1 < length ts)%nat).
    { destruct (Hop ts) as [_ [_ H]]; [simpl; lia|]. apply (H right ts1 E1). }
    simpl. apply IH; [intros ts2 H2; apply Hop; simpl; lia | simpl in *; lia].
Qed.

Lemma settles_infix_level (operators : list TokenType) (operand : P expr) (ts : list Token) :
  upto operand ts -> settled true ts (infix_level operators operand ts).
Proof.
  intros Hop. unfold infix_level, pbind at 1.
  apply settled_rbind_first; [apply Hop; lia|]. intros left ts1 _ H1.
  simpl. apply settles_infix_loop; [|lia]. intros ts2 H2. apply Hop. lia.
Qed.

Lemma settles_chain_loop (rounds : nat) (operator : TokenType) (operand : P expr)
  (functions : list expr) (ts : list Token) :
  upto operand ts -> (length ts <= rounds)%nat ->
  settled false ts (chain_loop rounds operator operand functions ts).
Proof.
  revert functions ts. induction rounds as [|rounds IH]; intros functions ts Hop Hl.
  - destruct ts; [apply settled_ok | simpl in Hl; lia].
  - destruct ts as [|t ts]; [apply settled_ok|]. simpl.
    destruct (TokenType_beq (type t) operator); [|apply settled_ok].
    apply (settled_longer false ts); [simpl; lia|]. unfold pbind at 1.
    apply settled_rbind; [apply settled_weaken, Hop; simpl; lia|]. intros right ts1 E1.
    assert (Hl1 : (length ts1 < length ts)%nat).
    { destruct (Hop ts) as [_ [_ H]]; [simpl; lia|]. apply (H right ts1 E1). }
    simpl. apply IH; [intros ts2 H2; apply Hop; simpl; lia | simpl in *; lia].
Qed.

Section Levels.
Variable rec : P expr.

Lemma settles_parse_multiplication (ts : list Token) :
  below rec ts -> settled true ts (parse_multiplication U rec ts).
Proof.
  intros Hrec. apply settles_infix_level. intros ts1 H1.
  apply settles_parse_unary. intros ts2 H2. apply Hrec. lia.
Qed.

Lemma settles_parse_addition (ts : list Token) :
  below rec ts -> settled true ts (parse_addition U rec ts).
Proof.
  intros Hrec. apply settles_infix_level. intros ts1 H1.
  apply settles_parse_multiplication. intros ts2 H2. apply Hrec. lia.
Qed.

Lemma settles_parse_comparison (ts : list Token) :
  below rec ts -> settled true ts (parse_comparison U rec ts).
Proof.
  intros Hrec. apply settles_infix_level. intros ts1 H1.
  apply settles_parse_addition. intros ts2 H2. apply Hrec. lia.
Qed.

Lemma settles_parse_equality (ts : list Token) :
  below rec ts -> settled true ts (parse_equality U rec ts).
Proof.
  intros Hrec. apply settles_infix_level. intros ts1 H1.
  apply settles_parse_comparison. intros ts2 H2. apply Hrec. lia.
Qed.

Lemma settles_parse_logical_and (ts : list Token) :
  below rec ts -> settled true ts (parse_logical_and U rec ts).
Proof.
  intros Hrec. apply settles_infix_level. intros ts1 H1.
  apply settles_parse_equality. intros ts2 H2. apply Hrec. lia.
Qed.

Lemma settles_parse_logical_or (ts : list Token) :
  below rec ts -> settled true ts (parse_logical_or U rec ts).
Proof.
  intros Hrec. apply settles_infix_level. intros ts1 H1.
  apply settles_parse_logical_and. intros ts2 H2. apply Hrec. lia.
Qed.

Lemma settles_parse_composition (ts : list Token) :
  below rec ts -> settled true ts (parse_composition U rec ts).
Proof.
  intros Hrec. unfold parse_composition, pbind at 1.
  apply settled_rbind_first; [now apply settles_parse_logical_or|]. intros left ts1 _ H1.
  simpl. unfold pbind at 1. simpl.
  destruct (is_type (hd_error ts1) COMPOSE); [|apply settled_ok].
  unfold pbind at 1. apply settled_rbind.
  - apply settles_chain_loop; [|lia]. intros ts2 H2.
    apply settles_parse_logical_or. intros ts3 H3. apply Hrec. lia.
  - intros functions ts2 _. apply settled_ok.
Qed.

Lemma settles_parse_threading (ts : list Token) :
  below rec ts -> settled true ts (parse_threading U rec ts).
Proof.
  intros Hrec. unfold parse_threading, pbind at 1.
  apply settled_rbind_first; [now apply settles_parse_composition|]. intros left ts1 _ H1.
  simpl. unfold pbind at 1. simpl.
  destruct (is_type (hd_error ts1) PIPE_OP); [|apply settled_ok].
  unfold pbind at 1. apply settled_rbind.
  - apply settles_chain_loop; [|lia]. intros ts2 H2.
    apply settles_parse_composition. intros ts3 H3. apply Hrec. lia.
  - intros functions ts2 _. apply settled_ok.
Qed.

End Levels.

(** An expression over [ts] nests less deep than [ts] is long. *)
Lemma settles_parse_expression (depth : nat) (ts : list Token) :
  (length ts < depth)%nat -> settled true ts (parse_expression U depth ts).
Proof.
  revert ts. induction depth as [|depth IH]; intros ts Hl; [lia|].
  simpl. apply settles_parse_threading. intros ts1 H1. apply IH. lia.
Qed.

Lemma settles_parse_loop (rounds depth : nat) (statements : list stmt) (ts : list Token) :
  (length ts <= rounds)%nat -> (length ts < depth)%nat ->
  settled false ts (parse_loop U rounds depth statements ts).
Proof.
  revert statements ts. induction rounds as [|rounds IH]; intros statements ts Hl Hd.
  - destruct ts; [apply settled_ok | simpl in Hl; lia].
  - destruct ts as [|t ts]; [apply settled_ok|]. simpl.
    unfold pbind at 1. apply settled_rbind.
    + apply settled_weaken, settles_parse_statement_with.
      intros ts1 H1. apply settles_parse_expression. lia.
    + intros s ts1 E1.
      assert (Hl1 : (length ts1 < length (t :: ts))%nat).
      { destruct (settles_parse_statement_with (parse_expression U depth) t ts) as [_ [_ H]].
        - intros ts2 H2. apply settles_parse_expression. lia.
        - apply (H s ts1 E1). }
      destruct s; apply IH; simpl in *; lia.
Qed.

(** The parser returns on every source: the statements of a program, or
    a syntax error. *)
Lemma parse_total (source : pystr) :
  (exists ast, parse U source = Ok ast) \/ (exists msg, parse U source = SyntaxError msg).
Proof.
  unfold parse.
  destruct (settles_parse_loop (length (tokenize U source)) (S (length (tokenize U source)))
              [] (tokenize U source)) as [H1 [H2 _]]; [lia | lia |].
  destruct (parse_loop U _ _ [] (tokenize U source)) as [[ast ts]|e|e|]; simpl.
  - left. now exists ast.
  - now elim (H2 e).
  - right. now exists e.
  - now elim H1.
Qed.
End Totality.

End ParserFacts.

(** ** The text evaluate_program returns *)





(** ** The order of the printed form (ElfSet, ElfDictionary) *)

Section InsertionSort.
Context {A : Type}.
Variable lt : A -> A -> bool.
Variable good : A -> Prop.
Hypothesis lt_asym : forall a b, lt a b = true -> lt b a = false.
Hypothesis le_trans : forall a b c,
  good a -> good b -> good c -> lt b a = false -> lt c b = false -> lt c a = false.

Lemma insert_sorted_perm (x : A) (l : list A) : Permutation (insert_sorted lt x l) (x :: l).
Proof.
  induction l as [|y l IH]; simpl.
  - apply Permutation_refl.
  - destruct (lt x y).
    + apply Permutation_refl.
    + eapply Permutation_trans; [apply perm_skip, IH | apply perm_swap].
Qed.

Lemma sorted_from_perm (l acc : list A) :
  Permutation (fold_left (fun acc x => insert_sorted lt x acc) l acc) (acc ++ l).
Proof.
  revert acc. induction l as [|x l IH]; intros acc; simpl.
  - rewrite app_nil_r. apply Permutation_refl.
  - eapply Permutation_trans; [apply IH|].
    eapply Permutation_trans; [apply Permutation_app_tail, insert_sorted_perm|].
    simpl. apply Permutation_middle.
Qed.

Lemma sorted_perm (l : list A) : Permutation (sorted lt l) l.
Proof. apply (sorted_from_perm l []). Qed.

Lemma insert_sorted_strongly (x : A) (l : list A) :
  good x -> Forall good l ->
  StronglySorted (fun a b => lt b a = false) l ->
  StronglySorted (fun a b => lt b a = false) (insert_sorted lt x l).
Proof.
  intros Hx Hl Hs. induction Hs as [|y l Hs IH Hy]; simpl.
  - constructor; constructor.
  - inversion Hl as [|? ? Hgy Hgl]; subst.
    destruct (lt x y) eqn:E.
    + constructor; [constructor; assumption|].
      constructor; [apply lt_asym; exact E|].
      rewrite Forall_forall in *. intros z Hz.
      apply (le_trans x y z); auto.
    + constructor; [apply IH; assumption|].
      apply (Permutation_Forall (Permutation_sym (insert_sorted_perm x l))).
      constructor; assumption.
Qed.

Lemma sorted_from_strongly (l acc : list A) :
  Forall good l -> Forall good acc ->
  StronglySorted (fun a b => lt b a = false) acc ->
  StronglySorted (fun a b => lt b a = false)
    (fold_left (fun acc x => insert_sorted lt x acc) l acc).
Proof.
  revert acc. induction l as [|x l IH]; intros acc Hl Hacc Hs; simpl.
  - exact Hs.
  - inversion Hl; subst. apply IH; [assumption| |].
    + apply (Permutation_Forall (Permutation_sym (insert_sorted_perm x acc))).
      constructor; assumption.
    + apply insert_sorted_strongly; assumption.
Qed.

Lemma sorted_strongly (l : list A) :
  Forall good l -> StronglySorted (fun a b => lt b a = false) (sorted lt l).
Proof.
  intros H. apply sorted_from_strongly; [exact H | constructor | constructor].
Qed.

End InsertionSort.






(** *** [<] on the payloads *)

Lemma pystr_ltb_asym (a b : pystr) : pystr_ltb a b = true -> pystr_ltb b a = false.
Proof.
  revert b. induction a as [|x a IH]; intros [|y b]; simpl; try reflexivity; try discriminate.
  intros H. apply orb_true_iff in H. apply orb_false_iff.
  destruct H as [H | H].
  - apply Z.ltb_lt in H. split; [apply Z.ltb_ge; lia|].
    apply andb_false_iff. left. apply Z.eqb_neq. lia.
  - apply andb_true_iff in H. destruct H as [H1 H2]. apply Z.eqb_eq in H1. subst y.
    split; [apply Z.ltb_irrefl|]. rewrite Z.eqb_refl. simpl. now apply IH.
Qed.

Lemma pystr_ltb_false_inv (x y : Z) (a b : pystr) :
  pystr_ltb (y :: b) (x :: a) = false -> x <= y /\ (x = y -> pystr_ltb b a = false).
Proof.
  simpl. intros H. apply orb_false_iff in H. destruct H as [H1 H2].
  apply Z.ltb_ge in H1. split; [exact H1|].
  intros ->. now rewrite Z.eqb_refl in H2.
Qed.

Lemma pystr_le_trans (a b c : pystr) :
  pystr_ltb b a = false -> pystr_ltb c b = false -> pystr_ltb c a = false.
Proof.
  revert b c. induction a as [|x a IH]; intros b c Hba Hcb.
  - destruct c; reflexivity.
  - destruct b as [|y b]; [discriminate Hba|].
    destruct c as [|z c]; [discriminate Hcb|].
    apply pystr_ltb_false_inv in Hba. apply pystr_ltb_false_inv in Hcb.
    destruct Hba as [Hxy Hba]. destruct Hcb as [Hyz Hcb].
    simpl. apply orb_false_iff. split; [apply Z.ltb_ge; lia|].
    destruct (z =? x) eqn:E; [|reflexivity]. apply Z.eqb_eq in E. subst z. simpl.
    assert (x = y) by lia. subst y. apply (IH b c); auto.
Qed.

(** Two finite floats compare as their significands do once both are
    brought to a common exponent [E] below their own. *)
Lemma float_compare_fin_scale (n1 : bool) (m1 e1 : Z) (n2 : bool) (m2 e2 E : Z) :
  E <= e1 -> E <= e2 ->
  float_compare_fin n1 m1 e1 n2 m2 e2
  = Z.compare (signed n1 m1 * 2 ^ (e1 - E)) (signed n2 m2 * 2 ^ (e2 - E)).
Proof.
  intros H1 H2. unfold float_compare_fin. fold (signed n1 m1). fold (signed n2 m2).
  set (e0 := Z.min e1 e2).
  assert (He0 : E <= e0) by (unfold e0; lia).
  assert (He1 : e0 <= e1) by (unfold e0; lia).
  assert (He2 : e0 <= e2) by (unfold e0; lia).
  replace (e1 - E) with ((e1 - e0) + (e0 - E)) by lia.
  replace (e2 - E) with ((e2 - e0) + (e0 - E)) by lia.
  rewrite !Z.pow_add_r by lia. rewrite !Z.mul_assoc.
  assert (Hp : 0 < 2 ^ (e0 - E)) by (apply Z.pow_pos_nonneg; lia).
  generalize dependent (2 ^ (e0 - E)). intros p Hp.
  generalize (signed n1 m1 * 2 ^ (e1 - e0)) (signed n2 m2 * 2 ^ (e2 - e0)). intros a b.
  destruct (Z.compare_spec a b) as [H | H | H]; symmetry.
  - apply Z.compare_eq_iff. now subst.
  - apply Z.compare_lt_iff. nia.
  - apply Z.compare_gt_iff. nia.
Qed.

Lemma float_ltb_fin (n1 : bool) (m1 e1 : Z) (n2 : bool) (m2 e2 E : Z) :
  E <= e1 -> E <= e2 ->
  float_ltb (FFin n1 m1 e1) (FFin n2 m2 e2)
  = (signed n1 m1 * 2 ^ (e1 - E) <? signed n2 m2 * 2 ^ (e2 - E)).
Proof.
  intros H1 H2. simpl. rewrite (float_compare_fin_scale n1 m1 e1 n2 m2 e2 E H1 H2).
  unfold Z.ltb. destruct (_ ?= _); reflexivity.
Qed.

Lemma float_ltb_asym (x y : pyfloat) : float_ltb x y = true -> float_ltb y x = false.
Proof.
  destruct x as [n1 m1 e1|n1|], y as [n2 m2 e2|n2|]; try (simpl; congruence);
    try (destruct n1; simpl; congruence); try (destruct n2; simpl; congruence).
  - rewrite (float_ltb_fin n1 m1 e1 n2 m2 e2 (Z.min e1 e2)) by lia.
    rewrite (float_ltb_fin n2 m2 e2 n1 m1 e1 (Z.min e1 e2)) by lia.
    intros H. apply Z.ltb_lt in H. apply Z.ltb_ge. lia.
  - destruct n1, n2; simpl; congruence.
Qed.

Lemma float_le_trans (x y z : pyfloat) :
  x <> FNaN -> y <> FNaN -> z <> FNaN ->
  float_ltb y x = false -> float_ltb z y = false -> float_ltb z x = false.
Proof.
  intros Hx Hy Hz.
  destruct x as [n1 m1 e1|n1|]; [| |congruence];
  destruct y as [n2 m2 e2|n2|]; try congruence;
  destruct z as [n3 m3 e3|n3|]; try congruence;
  try (destruct n1; simpl; congruence);
  try (destruct n2; simpl; congruence);
  try (destruct n3; simpl; congruence);
  try (destruct n1, n2; simpl; congruence);
  try (destruct n1, n3; simpl; congruence);
  try (destruct n2, n3; simpl; congruence);
  try (destruct n1, n2, n3; simpl; congruence).
  set (E := Z.min e1 (Z.min e2 e3)).
  rewrite (float_ltb_fin n2 m2 e2 n1 m1 e1 E) by (unfold E; lia).
  rewrite (float_ltb_fin n3 m3 e3 n2 m2 e2 E) by (unfold E; lia).
  rewrite (float_ltb_fin n3 m3 e3 n1 m1 e1 E) by (unfold E; lia).
  intros H1 H2. apply Z.ltb_ge in H1, H2. apply Z.ltb_ge. lia.
Qed.

(** *** [<] on the sort keys *)

Lemma key_ltb_asym (a b : key) : key_ltb a b = true -> key_ltb b a = false.
Proof.
  destruct a, b; simpl; try reflexivity; try discriminate.
  - intros H. apply Z.ltb_lt in H. apply Z.ltb_ge. lia.
  - apply float_ltb_asym.
  - apply pystr_ltb_asym.
  - destruct b, b0; simpl; congruence.
  - apply pystr_ltb_asym.
Qed.

Lemma key_le_trans (a b c : key) :
  ordered_key a -> ordered_key b -> ordered_key c ->
  key_ltb b a = false -> key_ltb c b = false -> key_ltb c a = false.
Proof.
  unfold ordered_key. intros Ha Hb Hc.
  destruct a, b, c; simpl; try reflexivity; try discriminate.
  - intros H1 H2. apply Z.ltb_ge in H1, H2. apply Z.ltb_ge. lia.
  - apply float_le_trans; congruence.
  - apply pystr_le_trans.
  - destruct b, b0, b1; simpl; congruence.
  - apply pystr_le_trans.
Qed.


(** *** The printed form *)



Lemma ordered_keys (keys : list key) : Forall ordered_key keys -> unordered keys = false.
Proof.
  intros H. unfold unordered.
  replace (existsb is_nan_key keys) with false; [reflexivity|].
  symmetry. induction H as [|k keys Hk Hkeys IH]; [reflexivity|].
  cbn [existsb]. rewrite IH, orb_false_r.
  unfold ordered_key in Hk. destruct k as [| [| |] | | | |]; try reflexivity. contradiction.
Qed.






(** ** push, assoc and + on list objects (Objects) *)

Module ObjectsFacts.
Import Objects.

Lemma frames_weaken {A : Type} (s0 : store) (P Q : A -> Prop) (m : H A) :
  (forall a, P a -> Q a) -> frames s0 P m -> frames s0 Q m.
Proof.
  intros HPQ Hm tail r s' E. destruct (Hm tail r s' E) as [H1 H2].
  split; [exact H1|]. intros a Ha. apply HPQ. now apply H2.
Qed.

Lemma frames_hret {A : Type} (s0 : store) (P : A -> Prop) (a : A) :
  P a -> frames s0 P (hret a).
Proof.
  intros Ha tail r s' E. injection E as <- <-. split; [now exists tail|].
  intros b Hb. injection Hb as <-. exact Ha.
Qed.

Lemma frames_hlift_error {A : Type} (s0 : store) (P : A -> Prop) (e : pystr) :
  frames s0 P (hlift (RuntimeError e)).
Proof.
  intros tail r s' E. injection E as <- <-. split; [now exists tail|]. discriminate.
Qed.

Lemma frames_hbind {A B : Type} (s0 : store) (P : A -> Prop) (Q : B -> Prop)
  (m : H A) (k : A -> H B) :
  frames s0 P m -> (forall a, P a -> frames s0 Q (k a)) -> frames s0 Q (hbind m k).
Proof.
  intros Hm Hk tail r s' E. unfold hbind in E.
  destruct (m (s0 ++ tail)) as [ra s1] eqn:Em.
  destruct (Hm tail ra s1 Em) as [[tail1 ->] HP].
  destruct ra as [a| | |].
  - apply (Hk a (HP a eq_refl) tail1 r s' E).
  - injection E as <- <-. split; [now exists tail1 | discriminate].
  - injection E as <- <-. split; [now exists tail1 | discriminate].
  - injection E as <- <-. split; [now exists tail1 | discriminate].
Qed.

(** A step that only reads the store. *)
Lemma frames_read {A : Type} (s0 : store) (f : store -> result A) :
  frames s0 (fun _ => True) (fun s => (f s, s)).
Proof.
  intros tail r s' E. injection E as <- <-. split; [now exists tail | trivial].
Qed.

Lemma frames_items_at (s0 : store) (l : loc) : frames s0 (fun _ => True) (items_at l).
Proof.
  intros tail r s' E. unfold items_at in E.
  destruct (nth_error (s0 ++ tail) l) as [[xs|xs]|]; injection E as <- <-;
    (split; [now exists tail | trivial]).
Qed.

Lemma frames_pairs_at (s0 : store) (l : loc) : frames s0 (fun _ => True) (pairs_at l).
Proof.
  intros tail r s' E. unfold pairs_at in E.
  destruct (nth_error (s0 ++ tail) l) as [[xs|xs]|]; injection E as <- <-;
    (split; [now exists tail | trivial]).
Qed.

Lemma frames_alloc (s0 : store) (c : cell) :
  frames s0 (fun l => (length s0 <= l)%nat) (alloc c).
Proof.
  intros tail r s' E. unfold alloc in E. injection E as <- <-. split.
  - exists (tail ++ [c]). now rewrite app_assoc.
  - intros a Ha. injection Ha as <-. rewrite length_app. lia.
Qed.

Lemma update_nth_app_r {A : Type} (f : A -> A) (l1 l2 : list A) (n : nat) :
  (length l1 <= n)%nat ->
  update_nth n f (l1 ++ l2) = l1 ++ update_nth (n - length l1) f l2.
Proof.
  revert n. induction l1 as [|x l1 IH]; intros n H; simpl.
  - now rewrite Nat.sub_0_r.
  - destruct n as [|n]; [simpl in H; lia|]. simpl in H. simpl.
    rewrite IH by lia. reflexivity.
Qed.

(** A change in place of a list object that [s0] does not hold. *)
Lemma frames_update (s0 : store) (l : loc) (f : cell -> cell) :
  (length s0 <= l)%nat ->
  frames s0 (fun _ => True) (fun s => (Ok tt, update_nth l f s)).
Proof.
  intros Hl tail r s' E. injection E as <- <-. split; [|trivial].
  exists (update_nth (l - length s0) f tail). now apply update_nth_app_r.
Qed.

Section Frames.
Variable eq : store -> hvalue -> hvalue -> bool.
Variable s0 : store.

Lemma frames_contains (l : loc) (item : hvalue) : frames s0 (fun _ => True) (contains eq l item).
Proof.
  unfold contains. eapply frames_hbind; [apply frames_items_at|].
  intros existing _. apply (frames_read s0 (fun s => Ok (existsb (fun e => eq s e item) existing))).
Qed.

Lemma frames_builtin_push (item collection : hvalue) :
  frames s0 (fresh_in s0) (builtin_push eq item collection).
Proof.
  destruct collection; simpl; try apply frames_hlift_error.
  - eapply frames_hbind; [apply frames_items_at|]. intros old _.
    eapply frames_hbind; [apply frames_alloc|]. intros l Hl.
    now apply frames_hret.
  - eapply frames_hbind; [apply frames_items_at|]. intros old _.
    eapply frames_hbind; [apply frames_alloc|]. intros l Hl.
    eapply frames_hbind; [apply frames_contains|]. intros [|] _.
    + now apply frames_hret.
    + eapply frames_hbind; [apply (frames_update s0 l _ Hl)|]. intros _ _.
      now apply frames_hret.
Qed.

Lemma frames_assoc_loop (l : loc) (key val : hvalue) (items : list (hvalue * hvalue))
  (key_found : bool) :
  (length s0 <= l)%nat ->
  frames s0 (fun _ => True) (assoc_loop eq l key val items key_found).
Proof.
  intros Hl. revert key_found. induction items as [|[k v] items IH]; intros key_found; simpl.
  - now apply frames_hret.
  - eapply frames_hbind; [apply (frames_read s0 (fun s => Ok (eq s k key)))|]. intros [|] _.
    + eapply frames_hbind; [apply (frames_update s0 l _ Hl)|]. intros _ _. apply IH.
    + eapply frames_hbind; [apply (frames_update s0 l _ Hl)|]. intros _ _. apply IH.
Qed.

Lemma frames_builtin_assoc (key val dictionary : hvalue) :
  frames s0 (fresh_in s0) (builtin_assoc eq key val dictionary).
Proof.
  destruct dictionary; simpl; try apply frames_hlift_error.
  eapply frames_hbind; [apply frames_alloc|]. intros l Hl.
  eapply frames_hbind; [apply frames_pairs_at|]. intros old _.
  eapply frames_hbind; [apply (frames_assoc_loop l key val old false Hl)|]. intros [|] _.
  - eapply frames_hbind; [apply (frames_hret s0 (fun _ => True)); trivial|]. intros _ _.
    now apply frames_hret.
  - eapply frames_hbind; [apply (frames_update s0 l _ Hl)|]. intros _ _.
    now apply frames_hret.
Qed.

Lemma frames_union_loop (l : loc) (right_items : list hvalue) :
  (length s0 <= l)%nat -> frames s0 (fun _ => True) (union_loop eq l right_items).
Proof.
  intros Hl. induction right_items as [|item rest IH]; simpl.
  - now apply frames_hret.
  - eapply frames_hbind; [apply frames_contains|]. intros [|] _.
    + eapply frames_hbind; [apply (frames_hret s0 (fun _ => True)); trivial|]. intros _ _.
      apply IH.
    + eapply frames_hbind; [apply (frames_update s0 l _ Hl)|]. intros _ _. apply IH.
Qed.

Lemma frames_merge_loop (l : loc) (right_items : list (hvalue * hvalue)) :
  (length s0 <= l)%nat -> frames s0 (fun _ => True) (merge_loop eq l right_items).
Proof.
  intros Hl. induction right_items as [|[k v] rest IH]; simpl.
  - now apply frames_hret.
  - eapply frames_hbind; [apply frames_pairs_at|]. intros current _.
    eapply frames_hbind;
      [apply (frames_read s0 (fun s => Ok (find_key eq s k current 0)))|]. intros found _.
    eapply frames_hbind; [|intros _ _; apply IH].
    destruct found as [i|]; apply (frames_update s0 l _ Hl).
Qed.

Lemma frames_add_values (left right : hvalue) :
  frames s0 (fresh_in s0) (add_values eq left right).
Proof.
  assert (Hother : frames s0 (fresh_in s0)
    (fun s =>
       match read (S (length s)) s left, read (S (length s)) s right with
       | Some l, Some r =>
           match pure_add_values l r with
           | Ok v => match immediate v with
                     | Some h => (Ok h, s)
                     | None => (PyException type_error, s)
                     end
           | RuntimeError e => (RuntimeError e, s)
           | PyException e => (PyException e, s)
           | OutOfFuel => (OutOfFuel, s)
           end
       | _, _ => (PyException type_error, s)
       end)).
  { intros tail r s' E.
    destruct (read _ _ left) as [l|]; [destruct (read _ _ right) as [r0|]|];
      [destruct (pure_add_values l r0) as [v| | |]; [destruct (immediate v) as [h|] eqn:Eh|..]|..];
      injection E as <- <-; (split; [now exists tail|]); try discriminate.
    intros a Ha. injection Ha as <-.
    destruct v; simpl in Eh; try discriminate; injection Eh as <-; exact I. }
  destruct left, right; try exact Hother; simpl.
  - eapply frames_hbind; [apply frames_items_at|]. intros xs _.
    eapply frames_hbind; [apply frames_items_at|]. intros ys _.
    eapply frames_hbind; [apply frames_alloc|]. intros l Hl.
    now apply frames_hret.
  - eapply frames_hbind; [apply frames_items_at|]. intros xs _.
    eapply frames_hbind; [apply frames_alloc|]. intros l Hl.
    eapply frames_hbind; [apply frames_items_at|]. intros ys _.
    eapply frames_hbind; [apply (frames_union_loop l ys Hl)|]. intros _ _.
    now apply frames_hret.
  - eapply frames_hbind; [apply frames_pairs_at|]. intros xs _.
    eapply frames_hbind; [apply frames_alloc|]. intros l Hl.
    eapply frames_hbind; [apply frames_pairs_at|]. intros ys _.
    eapply frames_hbind; [apply (frames_merge_loop l ys Hl)|]. intros _ _.
    now apply frames_hret.
Qed.

End Frames.

End ObjectsFacts.

Lemma all_some_map_mono {A B : Type} (f g : A -> option B) (xs : list A) (ys : list B) :
  (forall a b, f a = Some b -> g a = Some b) ->
  Objects.all_some (map f xs) = Some ys -> Objects.all_some (map g xs) = Some ys.
Proof.
  intros Hfg. revert ys. induction xs as [|a xs IH]; intros ys H; simpl in *.
  - exact H.
  - destruct (f a) as [b|] eqn:Ea; [|discriminate]. rewrite (Hfg a b Ea).
    destruct (Objects.all_some (map f xs)) as [r|]; [|discriminate].
    now rewrite (IH r eq_refl).
Qed.

Lemma nth_error_extends {A : Type} (s tail : list A) (l : nat) (c : A) :
  nth_error s l = Some c -> nth_error (s ++ tail) l = Some c.
Proof.
  intros H. rewrite nth_error_app1; [exact H|].
  apply nth_error_Some. congruence.
Qed.

(** What an object stood for in a store it still stands for in a store
    that only has more list objects. *)
Lemma read_extends (depth : nat) (s tail : Objects.store) (v : Objects.hvalue) (x : value) :
  Objects.read depth s v = Some x -> Objects.read depth (s ++ tail) v = Some x.
Proof.
  revert v x. induction depth as [|d IH]; intros v x H; destruct v; simpl in *;
    try exact H; try discriminate.
  - destruct (nth_error s items) as [[xs|xs]|] eqn:E; try discriminate.
    rewrite (nth_error_extends s tail items _ E).
    destruct (Objects.all_some (map (Objects.read d s) xs)) as [ys|] eqn:Ey; [|discriminate].
    now rewrite (all_some_map_mono _ (Objects.read d (s ++ tail)) xs ys (IH) Ey).
  - destruct (nth_error s items) as [[xs|xs]|] eqn:E; try discriminate.
    rewrite (nth_error_extends s tail items _ E).
    destruct (Objects.all_some (map (Objects.read d s) xs)) as [ys|] eqn:Ey; [|discriminate].
    now rewrite (all_some_map_mono _ (Objects.read d (s ++ tail)) xs ys (IH) Ey).
  - destruct (nth_error s items) as [[xs|xs]|] eqn:E; try discriminate.
    rewrite (nth_error_extends s tail items _ E).
    match type of H with
    | option_map _ (Objects.all_some (map ?f xs)) = _ =>
        destruct (Objects.all_some (map f xs)) as [ys|] eqn:Ey; [|discriminate]
    end.
    erewrite all_some_map_mono; [exact H| |exact Ey].
    intros p kv Hp. simpl in Hp.
    destruct (Objects.read d s (fst p)) as [k|] eqn:Ek; [|discriminate].
    destruct (Objects.read d s (snd p)) as [w|] eqn:Ew; [|discriminate].
    now rewrite (IH _ _ Ek), (IH _ _ Ew).
Qed.

(** C8.  [push(item, v)], [assoc(key, value, v)] and [l + r] leave every
    list object of the store as it was, whatever [values_equal] answers:
    the store after the operation is the store before it followed by new
    objects.  So every value reads after the operation as it read before,
    the operands among them, and a collection that is returned has its
    items in a new object. *)
Theorem collection_operations_leave_operands_unchanged
  (values_equal : Objects.store -> Objects.hvalue -> Objects.hvalue -> bool)
  (op : Objects.operation) (s s' : Objects.store) (r : result Objects.hvalue) :
  Objects.perform values_equal op s = (r, s') ->
  (exists new_objects, s' = s ++ new_objects)
  /\ (forall l c, nth_error s l = Some c -> nth_error s' l = Some c)
  /\ (forall depth v x, Objects.read depth s v = Some x -> Objects.read depth s' v = Some x)
  /\ (forall v, r = Ok v -> Objects.fresh_in s v).
Proof.
  intros H.
  assert (Hf : Objects.frames s (Objects.fresh_in s) (Objects.perform values_equal op)).
  { destruct op; simpl.
    - apply ObjectsFacts.frames_builtin_push.
    - apply ObjectsFacts.frames_builtin_assoc.
    - apply ObjectsFacts.frames_add_values. }
  rewrite <- (app_nil_r s) in H at 1.
  destruct (Hf [] r s' H) as [[tail ->] Hfresh].
  split; [now exists tail|]. split; [|split].
  - intros l c. apply nth_error_extends.
  - intros depth v x. apply read_extends.
  - exact Hfresh.
Qed.

(** After [push(3, xs)], after [xs + xs] and after [assoc(1, 20, d)] the
    object of [xs] still holds 1 and 2, and [d] still reads [#{1: 10}]. *)
Lemma collection_operations_leave_operands_unchanged_witness :
  (nth_error (after (Objects.Push (Objects.HInteger 3) (Objects.HList 0%nat))) 0%nat
   = Some (Objects.Items [Objects.HInteger 1; Objects.HInteger 2])
   /\ Objects.read 1%nat (after (Objects.Push (Objects.HInteger 3) (Objects.HList 0%nat)))
        (Objects.HDictionary 1%nat)
      = Some (ElfDictionary [(ElfInteger 1, ElfInteger 10)]))
  /\ (nth_error (after (Objects.Add (Objects.HList 0%nat) (Objects.HList 0%nat))) 0%nat
      = Some (Objects.Items [Objects.HInteger 1; Objects.HInteger 2])
      /\ Objects.read 1%nat (after (Objects.Add (Objects.HList 0%nat) (Objects.HList 0%nat)))
           (Objects.HDictionary 1%nat)
         = Some (ElfDictionary [(ElfInteger 1, ElfInteger 10)]))
  /\ (nth_error (after (Objects.Assoc (Objects.HInteger 1) (Objects.HInteger 20)
                          (Objects.HDictionary 1%nat))) 0%nat
      = Some (Objects.Items [Objects.HInteger 1; Objects.HInteger 2])
      /\ Objects.read 1%nat (after (Objects.Assoc (Objects.HInteger 1) (Objects.HInteger 20)
                                  (Objects.HDictionary 1%nat)))
           (Objects.HDictionary 1%nat)
         = Some (ElfDictionary [(ElfInteger 1, ElfInteger 10)])).
Proof.
  split; [|split].
  - unchanged_after collection_operations_leave_operands_unchanged
      (Objects.Push (Objects.HInteger 3) (Objects.HList 0%nat)).
  - unchanged_after collection_operations_leave_operands_unchanged
      (Objects.Add (Objects.HList 0%nat) (Objects.HList 0%nat)).
  - unchanged_after collection_operations_leave_operands_unchanged
      (Objects.Assoc (Objects.HInteger 1) (Objects.HInteger 20) (Objects.HDictionary 1%nat)).
Defined.

(** ** The list objects and the values of the evaluator

    What [push], [assoc] and [+] return on list objects is what
    [builtin_push_impl], [builtin_assoc_impl] and [add_values] return on
    the values those objects stand for, error texts included. *)

Module ObjectsAgree.
Import Objects.

(** Reading with more depth reads the same. *)
Lemma read_deeper (depth : nat) (s : store) (v : hvalue) (x : value) :
  read depth s v = Some x -> read (S depth) s v = Some x.
Proof.
  revert v x. induction depth as [|d IH]; intros v x H.
  - destruct v; simpl in *; try exact H; discriminate.
  - destruct v; try exact H.
    + simpl in H. change (read (S (S d)) s (HList items))
        with (match nth_error s items with
              | Some (Items xs) => option_map ElfList (all_some (map (read (S d) s) xs))
              | _ => None
              end).
      destruct (nth_error s items) as [[xs|xs]|]; try discriminate.
      destruct (all_some (map (read d s) xs)) as [ys|] eqn:E; [|discriminate].
      now rewrite (all_some_map_mono _ (read (S d) s) xs ys IH E).
    + simpl in H. change (read (S (S d)) s (HSet items))
        with (match nth_error s items with
              | Some (Items xs) => option_map ElfSet (all_some (map (read (S d) s) xs))
              | _ => None
              end).
      destruct (nth_error s items) as [[xs|xs]|]; try discriminate.
      destruct (all_some (map (read d s) xs)) as [ys|] eqn:E; [|discriminate].
      now rewrite (all_some_map_mono _ (read (S d) s) xs ys IH E).
    + simpl in H. change (read (S (S d)) s (HDictionary items))
        with (match nth_error s items with
              | Some (Pairs xs) =>
                  option_map ElfDictionary (all_some (map (read_pair (S d) s) xs))
              | _ => None
              end).
      destruct (nth_error s items) as [[xs|xs]|]; try discriminate.
      change (option_map ElfDictionary (all_some (map (read_pair d s) xs)) = Some x) in H.
      destruct (all_some (map (read_pair d s) xs)) as [ys|] eqn:E; [|discriminate].
      erewrite all_some_map_mono; [exact H| |exact E].
      intros p kv Hp. unfold read_pair in *.
      destruct (read d s (fst p)) as [k|] eqn:Ek; [|discriminate].
      destruct (read d s (snd p)) as [w|] eqn:Ew; [|discriminate].
      now rewrite (IH _ _ Ek), (IH _ _ Ew).
Qed.

Lemma read_deep (d d' : nat) (s : store) (v : hvalue) (x : value) :
  (d <= d')%nat -> read d s v = Some x -> read d' s v = Some x.
Proof.
  intros H. induction H as [|m H IH]; [auto|]. intros E. apply read_deeper. now apply IH.
Qed.

(** What is read in a store is read, at any greater depth, in a store
    with more objects. *)
Lemma read_later (d d' : nat) (s tail : store) (v : hvalue) (x : value) :
  (d <= d')%nat -> read d s v = Some x -> read d' (s ++ tail) v = Some x.
Proof. intros H E. apply read_extends. now apply (read_deep d d'). Qed.

Lemma denotes_later (s tail : store) (v : hvalue) (x : value) :
  denotes s v x -> denotes (s ++ tail) v x.
Proof.
  unfold denotes. intros H. apply (read_later (S (length s))); [|exact H].
  rewrite length_app. lia.
Qed.

Lemma all_some_app {A : Type} (l1 l2 : list (option A)) (v1 v2 : list A) :
  all_some l1 = Some v1 -> all_some l2 = Some v2 -> all_some (l1 ++ l2) = Some (v1 ++ v2).
Proof.
  revert v1. induction l1 as [|[a|] l1 IH]; intros v1 H1 H2; simpl in *.
  - now injection H1 as <-.
  - destruct (all_some l1) as [r|]; [|discriminate]. injection H1 as <-.
    now rewrite (IH r eq_refl H2).
  - discriminate.
Qed.

Lemma reads_app (d : nat) (s : store) (xs ys : list hvalue) (vs ws : list value) :
  reads d s xs vs -> reads d s ys ws -> reads d s (xs ++ ys) (vs ++ ws).
Proof. unfold reads. intros H1 H2. rewrite map_app. now apply all_some_app. Qed.

Lemma reads_one (d : nat) (s : store) (v : hvalue) (x : value) :
  read d s v = Some x -> reads d s [v] [x].
Proof. unfold reads. simpl. now intros ->. Qed.

Lemma reads_later (d d' : nat) (s tail : store) (xs : list hvalue) (vs : list value) :
  (d <= d')%nat -> reads d s xs vs -> reads d' (s ++ tail) xs vs.
Proof.
  unfold reads. intros Hd. apply all_some_map_mono. intros a b. now apply read_later.
Qed.

Lemma read_pair_later (d d' : nat) (s tail : store) (p : hvalue * hvalue) (kv : value * value) :
  (d <= d')%nat -> read_pair d s p = Some kv -> read_pair d' (s ++ tail) p = Some kv.
Proof.
  unfold read_pair. intros Hd H.
  destruct (read d s (fst p)) as [k|] eqn:Ek; [|discriminate].
  destruct (read d s (snd p)) as [w|] eqn:Ew; [|discriminate].
  now rewrite (read_later d d' s tail _ _ Hd Ek), (read_later d d' s tail _ _ Hd Ew).
Qed.

Lemma read_pair_deep (d d' : nat) (s : store) (p : hvalue * hvalue) (kv : value * value) :
  (d <= d')%nat -> read_pair d s p = Some kv -> read_pair d' s p = Some kv.
Proof. intros Hd H. rewrite <- (app_nil_r s). now apply (read_pair_later d). Qed.

Lemma reads_pairs_app (d : nat) (s : store) (xs ys : list (hvalue * hvalue))
  (vs ws : list (value * value)) :
  reads_pairs d s xs vs -> reads_pairs d s ys ws -> reads_pairs d s (xs ++ ys) (vs ++ ws).
Proof. unfold reads_pairs. intros H1 H2. rewrite map_app. now apply all_some_app. Qed.

Lemma reads_pairs_one (d : nat) (s : store) (p : hvalue * hvalue) (kv : value * value) :
  read_pair d s p = Some kv -> reads_pairs d s [p] [kv].
Proof. unfold reads_pairs. simpl. now intros ->. Qed.

Lemma reads_pairs_later (d d' : nat) (s tail : store) (xs : list (hvalue * hvalue))
  (vs : list (value * value)) :
  (d <= d')%nat -> reads_pairs d s xs vs -> reads_pairs d' (s ++ tail) xs vs.
Proof.
  unfold reads_pairs. intros Hd. apply all_some_map_mono. intros a b. now apply read_pair_later.
Qed.

Lemma read_pair_of (d : nat) (s : store) (k v : hvalue) (x y : value) :
  read d s k = Some x -> read d s v = Some y -> read_pair d s (k, v) = Some (x, y).
Proof. unfold read_pair. simpl. now intros -> ->. Qed.

(** *** What a collection denotes *)

Lemma denotes_list (s : store) (l : loc) (c : value) :
  denotes s (HList l) c ->
  exists xs vs, nth_error s l = Some (Items xs) /\ c = ElfList vs /\ reads (length s) s xs vs.
Proof.
  unfold denotes, reads. simpl. destruct (nth_error s l) as [[xs|xs]|]; try discriminate.
  destruct (all_some (map (read (length s) s) xs)) as [vs|] eqn:E; [|discriminate].
  intros H. injection H as <-. now exists xs, vs.
Qed.

Lemma denotes_set (s : store) (l : loc) (c : value) :
  denotes s (HSet l) c ->
  exists xs vs, nth_error s l = Some (Items xs) /\ c = ElfSet vs /\ reads (length s) s xs vs.
Proof.
  unfold denotes, reads. simpl. destruct (nth_error s l) as [[xs|xs]|]; try discriminate.
  destruct (all_some (map (read (length s) s) xs)) as [vs|] eqn:E; [|discriminate].
  intros H. injection H as <-. now exists xs, vs.
Qed.

Lemma denotes_dictionary (s : store) (l : loc) (c : value) :
  denotes s (HDictionary l) c ->
  exists xs vs,
    nth_error s l = Some (Pairs xs) /\ c = ElfDictionary vs /\ reads_pairs (length s) s xs vs.
Proof.
  unfold denotes, reads_pairs. simpl. destruct (nth_error s l) as [[xs|xs]|]; try discriminate.
  change (option_map ElfDictionary (all_some (map (read_pair (length s) s) xs)) = Some c ->
          exists xs0 vs, Some (Pairs xs) = Some (Pairs xs0) /\ c = ElfDictionary vs
                         /\ all_some (map (read_pair (length s) s) xs0) = Some vs).
  destruct (all_some (map (read_pair (length s) s) xs)) as [vs|] eqn:E; [|discriminate].
  intros H. injection H as <-. now exists xs, vs.
Qed.

(** The new object at the end of the store *)
Lemma nth_error_last {A : Type} (s : list A) (c : A) : nth_error (s ++ [c]) (length s) = Some c.
Proof. rewrite nth_error_app2 by lia. now rewrite Nat.sub_diag. Qed.

Lemma update_nth_last {A : Type} (f : A -> A) (s : list A) (c : A) :
  update_nth (length s) f (s ++ [c]) = s ++ [f c].
Proof.
  rewrite ObjectsFacts.update_nth_app_r by lia. now rewrite Nat.sub_diag.
Qed.

Lemma denotes_new_list (s : store) (xs : list hvalue) (vs : list value) :
  reads (S (length s)) (s ++ [Items xs]) xs vs ->
  denotes (s ++ [Items xs]) (HList (length s)) (ElfList vs).
Proof.
  unfold denotes, reads. intros H. simpl. rewrite nth_error_last.
  rewrite length_app. simpl. rewrite Nat.add_1_r. now rewrite H.
Qed.

Lemma denotes_new_set (s : store) (xs : list hvalue) (vs : list value) :
  reads (S (length s)) (s ++ [Items xs]) xs vs ->
  denotes (s ++ [Items xs]) (HSet (length s)) (ElfSet vs).
Proof.
  unfold denotes, reads. intros H. simpl. rewrite nth_error_last.
  rewrite length_app. simpl. rewrite Nat.add_1_r. now rewrite H.
Qed.

Lemma denotes_new_dictionary (s : store) (xs : list (hvalue * hvalue))
  (vs : list (value * value)) :
  reads_pairs (S (length s)) (s ++ [Pairs xs]) xs vs ->
  denotes (s ++ [Pairs xs]) (HDictionary (length s)) (ElfDictionary vs).
Proof.
  unfold denotes, reads_pairs. intros H. simpl. rewrite nth_error_last.
  rewrite length_app. simpl. rewrite Nat.add_1_r.
  change (option_map ElfDictionary
            (all_some (map (read_pair (S (length s)) (s ++ [Pairs xs])) xs))
          = Some (ElfDictionary vs)).
  now rewrite H.
Qed.

(** *** Equality *)

Lemma values_equal_denotes (s : store) (a b : hvalue) (x y : value) :
  denotes s a x -> denotes s b y -> Objects.values_equal s a b = pure_values_equal x y.
Proof. unfold denotes, Objects.values_equal. now intros -> ->. Qed.

Lemma existsb_denotes (s : store) (xs : list hvalue) (vs : list value) (item : hvalue)
  (x : value) :
  reads (S (length s)) s xs vs -> denotes s item x ->
  existsb (fun e => Objects.values_equal s e item) xs
  = existsb (fun existing => pure_values_equal existing x) vs.
Proof.
  unfold reads. intros H Hx. revert vs H.
  induction xs as [|e xs IH]; intros vs H; cbn [map all_some] in H.
  - now injection H as <-.
  - destruct (read (S (length s)) s e) as [v|] eqn:Ee; [|discriminate].
    destruct (all_some (map (read (S (length s)) s) xs)) as [r|]; [|discriminate].
    injection H as <-. cbn [existsb]. rewrite (values_equal_denotes s e item v x Ee Hx).
    now rewrite (IH r eq_refl).
Qed.

Lemma hkind_name_denotes (s : store) (v : hvalue) (x : value) :
  denotes s v x -> hkind_name v = kind_name x.
Proof.
  unfold denotes. destruct v; simpl; try (intros H; injection H as <-; reflexivity);
    try (destruct f; intros H; try discriminate; injection H as <-; reflexivity).
  - destruct (nth_error s items) as [[xs|xs]|]; try discriminate.
    destruct (all_some _); [|discriminate]. simpl. intros H. now injection H as <-.
  - destruct (nth_error s items) as [[xs|xs]|]; try discriminate.
    destruct (all_some _); [|discriminate]. simpl. intros H. now injection H as <-.
  - destruct (nth_error s items) as [[xs|xs]|]; try discriminate.
    destruct (all_some _); [|discriminate]. simpl. intros H. now injection H as <-.
Qed.

(** *** push *)

(** [push] on list objects returns the collection, or raises the error,
    that [builtin_push_impl] gives on the values the operands stand for. *)
Lemma builtin_push_agrees (s s' : store) (item collection : hvalue) (x c : value)
  (r : result hvalue) :
  denotes s item x -> denotes s collection c ->
  builtin_push Objects.values_equal item collection s = (r, s') ->
  agrees s' r (builtin_push_impl x c).
Proof.
  intros Hx Hc H.
  destruct collection;
    try (unfold denotes in Hc; simpl in Hc; injection Hc as <-;
         simpl in H; unfold hlift in H; injection H as <- <-; reflexivity).
  - destruct (denotes_list s items c Hc) as (xs & vs & Hn & -> & Hr).
    simpl in H. unfold hbind, items_at, alloc, hret in H. rewrite Hn in H.
    injection H as <- <-. simpl.
    apply denotes_new_list. apply reads_app.
    + apply (reads_later (length s)); [lia | exact Hr].
    + apply reads_one. now apply (read_later (S (length s))).
  - destruct (denotes_set s items c Hc) as (xs & vs & Hn & -> & Hr).
    simpl in H. unfold hbind, items_at, alloc, hret, contains, hbind, items_at, append in H.
    rewrite Hn in H. rewrite nth_error_last in H.
    assert (Hr1 : reads (S (length (s ++ [Items xs]))) (s ++ [Items xs]) xs vs).
    { apply (reads_later (length s)); [rewrite length_app; simpl; lia | exact Hr]. }
    rewrite (existsb_denotes (s ++ [Items xs]) xs vs item x Hr1 (denotes_later s _ item x Hx))
      in H.
    simpl.
    destruct (existsb _ vs).
    + injection H as <- <-. simpl. apply denotes_new_set.
      apply (reads_later (length s)); [lia | exact Hr].
    + rewrite update_nth_last in H. injection H as <- <-. simpl.
      apply denotes_new_set. apply reads_app.
      * apply (reads_later (length s)); [lia | exact Hr].
      * apply reads_one. now apply (read_later (S (length s))).
  - destruct (denotes_dictionary s items c Hc) as (xs & vs & Hn & -> & Hr).
    simpl in H. unfold hlift in H. injection H as <- <-. reflexivity.
  - unfold denotes in Hc. simpl in Hc.
    destruct f; try discriminate; injection Hc as <-; simpl in H; unfold hlift in H;
      injection H as <- <-; reflexivity.
Qed.

(** *** assoc *)

Section Assoc.
Variable s : store.
Variables key val : hvalue.
Variables kx vx : value.
Hypothesis Hkey : denotes s key kx.
Hypothesis Hval : denotes s val vx.

(** The loop appends to [new_pairs] the pairs that the loop on values
    returns, and finds the key when that loop does. *)
Lemma assoc_loop_agrees (items : list (hvalue * hvalue)) (itemsv : list (value * value)) :
  reads_pairs (length s) s items itemsv ->
  forall (new_pairs : list (hvalue * hvalue)) (key_found : bool),
  exists more,
    assoc_loop Objects.values_equal (length s) key val items key_found (s ++ [Pairs new_pairs])
    = (Ok (key_found || snd (pure_assoc_loop kx vx itemsv)), s ++ [Pairs (new_pairs ++ more)])
    /\ reads_pairs (S (length s)) s more (fst (pure_assoc_loop kx vx itemsv)).
Proof.
  unfold reads_pairs. revert itemsv.
  induction items as [|[ek ev] items IH]; intros itemsv H new_pairs key_found;
    cbn [map all_some] in H.
  - injection H as <-. exists []. split; [|reflexivity].
    simpl. unfold hret. now rewrite orb_false_r, app_nil_r.
  - destruct (read_pair (length s) s (ek, ev)) as [[ekx evx]|] eqn:Ep; [|discriminate].
    destruct (all_some (map (read_pair (length s) s) items)) as [restv|] eqn:Er; [|discriminate].
    injection H as <-.
    assert (Hek : denotes (s ++ [Pairs new_pairs]) ek ekx).
    { unfold read_pair in Ep. simpl in Ep.
      destruct (read (length s) s ek) as [k|] eqn:Ek; [|discriminate].
      destruct (read (length s) s ev) as [w|]; [|discriminate].
      injection Ep as -> ->. apply (read_later (length s)); [|exact Ek].
      rewrite length_app. lia. }
    cbn [assoc_loop]. unfold hbind at 1.
    rewrite (values_equal_denotes _ ek key ekx kx Hek (denotes_later s _ key kx Hkey)).
    cbn [pure_assoc_loop].
    destruct (pure_assoc_loop kx vx restv) as [new_pairsv found] eqn:El.
    match goal with |- context [if ?b then _ else _] => destruct b eqn:Eeq end.
    + unfold hbind, append_pair. rewrite update_nth_last.
      destruct (IH restv eq_refl (new_pairs ++ [(key, val)]) true) as (more & Hm & Hr).
      rewrite El in Hm, Hr. cbn [fst snd] in Hm, Hr.
      exists ([(key, val)] ++ more). split.
      * rewrite Hm. cbn [fst snd]. now rewrite orb_true_r, <- app_assoc.
      * apply (reads_pairs_app _ _ [(key, val)] more [(kx, vx)] new_pairsv); [|exact Hr].
        apply reads_pairs_one. now apply read_pair_of.
    + unfold hbind, append_pair. rewrite update_nth_last.
      destruct (IH restv eq_refl (new_pairs ++ [(ek, ev)]) key_found) as (more & Hm & Hr).
      rewrite El in Hm, Hr. cbn [fst snd] in Hm, Hr.
      exists ([(ek, ev)] ++ more). split.
      * rewrite Hm. cbn [fst snd]. now rewrite <- app_assoc.
      * apply (reads_pairs_app _ _ [(ek, ev)] more [(ekx, evx)] new_pairsv); [|exact Hr].
        apply reads_pairs_one. apply (read_pair_deep (length s)); [lia | exact Ep].
Qed.

End Assoc.

(** [assoc] on list objects against [builtin_assoc_impl]. *)
Lemma builtin_assoc_agrees (s s' : store) (key val dictionary : hvalue) (kx vx d : value)
  (r : result hvalue) :
  denotes s key kx -> denotes s val vx -> denotes s dictionary d ->
  builtin_assoc Objects.values_equal key val dictionary s = (r, s') ->
  agrees s' r (builtin_assoc_impl kx vx d).
Proof.
  intros Hk Hv Hd H.
  destruct dictionary.
  1-5: unfold denotes in Hd; simpl in Hd; injection Hd as <-;
       simpl in H; unfold hlift in H; injection H as <- <-; reflexivity.
  - destruct (denotes_list s items d Hd) as (xs & vs & Hn & -> & Hr).
    simpl in H. unfold hlift in H. injection H as <- <-. reflexivity.
  - destruct (denotes_set s items d Hd) as (xs & vs & Hn & -> & Hr).
    simpl in H. unfold hlift in H. injection H as <- <-. reflexivity.
  - destruct (denotes_dictionary s items d Hd) as (xs & vs & Hn & -> & Hr).
    cbn [builtin_assoc] in H. unfold hbind at 1, alloc in H.
    unfold hbind at 1, pairs_at in H.
    rewrite (nth_error_extends s [Pairs []] items _ Hn) in H.
    unfold hbind at 1 in H.
    destruct (assoc_loop_agrees s key val kx vx Hk Hv xs vs Hr [] false)
      as (more & Hm & Hmr).
    rewrite Hm in H. simpl in H. unfold builtin_assoc_impl.
    destruct (pure_assoc_loop kx vx vs) as [new_pairsv found]. simpl in H, Hmr.
    assert (Hlater : forall ps pv, reads_pairs (S (length s)) s ps pv ->
                     reads_pairs (S (length s)) (s ++ [Pairs ps]) ps pv).
    { intros ps pv Hp. apply (reads_pairs_later (S (length s))); [lia | exact Hp]. }
    destruct found.
    + unfold hbind, hret in H. injection H as <- <-. simpl.
      apply denotes_new_dictionary. now apply Hlater.
    + unfold hbind, hret, append_pair in H. rewrite update_nth_last in H.
      injection H as <- <-. simpl.
      apply denotes_new_dictionary. apply Hlater. apply reads_pairs_app; [exact Hmr|].
      apply reads_pairs_one. now apply read_pair_of.
  - unfold denotes in Hd. simpl in Hd.
    destruct f; try discriminate; injection Hd as <-; simpl in H; unfold hlift in H;
      injection H as <- <-; reflexivity.
Qed.

(** *** + *)

Lemma denotes_of_read (s tail : store) (v : hvalue) (x : value) :
  read (length s) s v = Some x -> denotes (s ++ tail) v x.
Proof.
  intros H. apply (read_later (length s)); [|exact H]. rewrite length_app. lia.
Qed.

Lemma reads_head (d : nat) (s : store) (v : hvalue) (xs : list hvalue) (vs : list value) :
  reads d s (v :: xs) vs ->
  exists x rest, vs = x :: rest /\ read d s v = Some x /\ reads d s xs rest.
Proof.
  unfold reads. cbn [map all_some]. destruct (read d s v) as [x|]; [|discriminate].
  destruct (all_some (map (read d s) xs)) as [rest|]; [|discriminate].
  intros H. injection H as <-. now exists x, rest.
Qed.

Lemma reads_pairs_head (d : nat) (s : store) (p : hvalue * hvalue)
  (xs : list (hvalue * hvalue)) (vs : list (value * value)) :
  reads_pairs d s (p :: xs) vs ->
  exists k v rest,
    vs = (k, v) :: rest /\ read d s (fst p) = Some k /\ read d s (snd p) = Some v
    /\ reads_pairs d s xs rest.
Proof.
  unfold reads_pairs. cbn [map all_some]. unfold read_pair at 1.
  destruct (read d s (fst p)) as [k|]; [|discriminate].
  destruct (read d s (snd p)) as [v|]; [|discriminate].
  destruct (all_some (map (read_pair d s) xs)) as [rest|]; [|discriminate].
  intros H. injection H as <-. now exists k, v, rest.
Qed.

(** The loop leaves in [result_items] the union that [set_union] builds. *)
Lemma union_loop_agrees (s : store) (ys : list hvalue) (ysv : list value) :
  reads (length s) s ys ysv ->
  forall (cur : list hvalue) (curv : list value),
  reads (length s) s cur curv ->
  exists cur',
    union_loop Objects.values_equal (length s) ys (s ++ [Items cur])
    = (Ok tt, s ++ [Items cur'])
    /\ reads (length s) s cur' (set_union curv ysv).
Proof.
  revert ysv. induction ys as [|item ys IH]; intros ysv Hys cur curv Hcur.
  - injection Hys as <-. now exists cur.
  - destruct (reads_head _ _ _ _ _ Hys) as (x & rest & -> & Hitem & Hrest).
    cbn [union_loop set_union]. unfold hbind at 1, contains, hbind at 1, items_at.
    rewrite nth_error_last.
    rewrite (existsb_denotes (s ++ [Items cur]) cur curv item x).
    + unfold hbind at 1.
      match goal with |- context [if ?b then _ else _] => destruct b end.
      * unfold hret at 1. apply (IH rest Hrest cur curv Hcur).
      * unfold append. rewrite update_nth_last.
        apply (IH rest Hrest (cur ++ [item]) (curv ++ [x])).
        apply reads_app; [exact Hcur | now apply reads_one].
    + apply (reads_later (length s)); [|exact Hcur]. rewrite length_app. lia.
    + now apply denotes_of_read.
Qed.

Lemma reads_pairs_update (d : nat) (s : store) (p : hvalue * hvalue) (pv : value * value)
  (cur : list (hvalue * hvalue)) (curv : list (value * value)) (j : nat) :
  read_pair d s p = Some pv -> reads_pairs d s cur curv ->
  reads_pairs d s (update_nth j (fun _ => p) cur) (update_nth j (fun _ => pv) curv).
Proof.
  unfold reads_pairs. intros Hp. revert curv j.
  induction cur as [|q cur IH]; intros curv j H; cbn [map all_some] in H.
  - injection H as <-. now destruct j.
  - destruct (read_pair d s q) as [qv|] eqn:Eq; [|discriminate].
    destruct (all_some (map (read_pair d s) cur)) as [rest|] eqn:Er; [|discriminate].
    injection H as <-. destruct j as [|j]; cbn [update_nth map all_some].
    + now rewrite Hp, Er.
    + now rewrite Eq, (IH rest j eq_refl).
Qed.

(** The pair the merge overwrites is the one [update_first] overwrites. *)
Lemma find_key_agrees (s1 : store) (d : nat) (s : store) (key : hvalue) (kx vx : value) :
  denotes s1 key kx ->
  (forall e x, read d s e = Some x -> denotes s1 e x) ->
  forall (cur : list (hvalue * hvalue)) (curv : list (value * value)) (i : nat),
  reads_pairs d s cur curv ->
  match find_key Objects.values_equal s1 key cur i with
  | Some j =>
      exists j0, j = (i + j0)%nat
                 /\ update_first kx vx curv = Some (update_nth j0 (fun _ => (kx, vx)) curv)
  | None => update_first kx vx curv = None
  end.
Proof.
  intros Hkey Hread. induction cur as [|[ek ev] cur IH]; intros curv i H.
  - injection H as <-. reflexivity.
  - destruct (reads_pairs_head _ _ _ _ _ H) as (ekx & evx & rest & -> & Hek & Hev & Hrest).
    cbn [find_key update_first]. cbn [fst] in Hek.
    rewrite (values_equal_denotes s1 ek key ekx kx (Hread _ _ Hek) Hkey).
    match goal with |- context [if ?b then _ else _] => destruct b end.
    + exists 0%nat. split; [lia | reflexivity].
    + specialize (IH rest (S i) Hrest).
      destruct (find_key Objects.values_equal s1 key cur (S i)) as [j|].
      * destruct IH as (j0 & -> & ->). exists (S j0). split; [lia | reflexivity].
      * now rewrite IH.
Qed.

(** The loop leaves in [result_pairs] the pairs that [dict_merge] builds. *)
Lemma merge_loop_agrees (s : store) (ys : list (hvalue * hvalue))
  (ysv : list (value * value)) :
  reads_pairs (length s) s ys ysv ->
  forall (cur : list (hvalue * hvalue)) (curv : list (value * value)),
  reads_pairs (length s) s cur curv ->
  exists cur',
    merge_loop Objects.values_equal (length s) ys (s ++ [Pairs cur])
    = (Ok tt, s ++ [Pairs cur'])
    /\ reads_pairs (length s) s cur' (dict_merge curv ysv).
Proof.
  revert ysv. induction ys as [|[k v] ys IH]; intros ysv Hys cur curv Hcur.
  - injection Hys as <-. now exists cur.
  - destruct (reads_pairs_head _ _ _ _ _ Hys) as (kx & vx & rest & -> & Hk & Hv & Hrest).
    cbn [fst snd] in Hk, Hv.
    cbn [merge_loop dict_merge]. unfold hbind at 1, pairs_at. rewrite nth_error_last.
    unfold hbind at 1. unfold hbind at 1.
    pose proof (find_key_agrees (s ++ [Pairs cur]) (length s) s k kx vx
                  (denotes_of_read s _ k kx Hk)
                  (fun e x => denotes_of_read s _ e x) cur curv 0%nat Hcur) as Hfind.
    destruct (find_key Objects.values_equal (s ++ [Pairs cur]) k cur 0) as [j|].
    + destruct Hfind as (j0 & -> & ->). unfold set_pair. rewrite update_nth_last.
      apply (IH rest Hrest). apply reads_pairs_update; [|exact Hcur].
      now apply read_pair_of.
    + rewrite Hfind. unfold append_pair. rewrite update_nth_last.
      apply (IH rest Hrest). apply reads_pairs_app; [exact Hcur|].
      apply reads_pairs_one. now apply read_pair_of.
Qed.

Lemma immediate_denotes (s : store) (v : value) (h : hvalue) :
  immediate v = Some h -> denotes s h v.
Proof.
  unfold denotes. destruct v; simpl; intros H; try discriminate; now injection H as <-.
Qed.

(** Only two Lists, two Sets or two Dictionaries add up to a collection. *)
Lemma add_values_immediate (x y v : value) :
  pure_add_values x y = Ok v ->
  match x, y with
  | ElfList _, ElfList _ | ElfSet _, ElfSet _ | ElfDictionary _, ElfDictionary _ => True
  | _, _ => immediate v <> None
  end.
Proof.
  destruct x, y; try exact (fun _ => I); cbn [pure_add_values];
    unfold float_arith, unsupported, rbind;
    repeat match goal with
           | |- context [match ?r with Ok _ => _ | _ => _ end] => destruct r
           end;
    intros H; try discriminate; injection H as <-; discriminate.
Qed.

Lemma denotes_collection (s : store) (h : hvalue) (x : value) :
  denotes s h x ->
  match x with
  | ElfList _ => exists l, h = HList l
  | ElfSet _ => exists l, h = HSet l
  | ElfDictionary _ => exists l, h = HDictionary l
  | _ => True
  end.
Proof.
  intros H. destruct h as [| | | | |l|l|l|f].
  1-5: unfold denotes in H; simpl in H; injection H as <-; exact I.
  - destruct (denotes_list s l x H) as (xs & vs & _ & -> & _). now exists l.
  - destruct (denotes_set s l x H) as (xs & vs & _ & -> & _). now exists l.
  - destruct (denotes_dictionary s l x H) as (xs & vs & _ & -> & _). now exists l.
  - unfold denotes in H. simpl in H.
    destruct f; try discriminate; injection H as <-; exact I.
Qed.

(** [+] on list objects against [add_values]. *)
Lemma add_values_agrees (s s' : store) (left right : hvalue) (x y : value)
  (r : result hvalue) :
  denotes s left x -> denotes s right y ->
  add_values Objects.values_equal left right s = (r, s') ->
  agrees s' r (pure_add_values x y).
Proof.
  intros Hx Hy.
  assert (Hother :
    match x, y with
    | ElfList _, ElfList _ | ElfSet _, ElfSet _ | ElfDictionary _, ElfDictionary _ => False
    | _, _ => True
    end ->
    match read (S (length s)) s left, read (S (length s)) s right with
    | Some l, Some r =>
        match pure_add_values l r with
        | Ok v => match immediate v with
                  | Some h => (Ok h, s)
                  | None => (PyException type_error, s)
                  end
        | RuntimeError e => (RuntimeError e, s)
        | PyException e => (PyException e, s)
        | OutOfFuel => (OutOfFuel, s)
        end
    | _, _ => (PyException type_error, s)
    end = (r, s') ->
    agrees s' r (pure_add_values x y)).
  { intros Hkind H. unfold denotes in Hx, Hy. rewrite Hx, Hy in H.
    pose proof (add_values_immediate x y) as Him.
    destruct (pure_add_values x y) as [v| | |].
    - specialize (Him v eq_refl).
      destruct (immediate v) as [h|] eqn:Eh.
      + injection H as <- <-. now apply immediate_denotes.
      + exfalso. destruct x, y; try (now apply Him); exact Hkind.
    - now injection H as <- <-.
    - now injection H as <- <-.
    - now injection H as <- <-. }
  pose proof (denotes_collection s left x Hx) as Hkl.
  pose proof (denotes_collection s right y Hy) as Hkr.
  intros H.
  destruct left as [| | | | |a|a|a|f]; destruct right as [| | | | |b|b|b|g];
    try (apply Hother; [|exact H];
         destruct x, y; try exact I;
         (destruct Hkl as [l E]; discriminate E) || (destruct Hkr as [l E]; discriminate E)).
  - destruct (denotes_list s a x Hx) as (xs & xv & Hxn & -> & Hxr).
    destruct (denotes_list s b y Hy) as (ys & yv & Hyn & -> & Hyr).
    cbn [add_values] in H. unfold hbind, items_at, alloc, hret in H.
    rewrite Hxn, Hyn in H. injection H as <- <-. simpl.
    apply denotes_new_list. apply (reads_later (length s)); [lia|].
    now apply reads_app.
  - destruct (denotes_set s a x Hx) as (xs & xv & Hxn & -> & Hxr).
    destruct (denotes_set s b y Hy) as (ys & yv & Hyn & -> & Hyr).
    cbn [add_values] in H. unfold hbind at 1, items_at in H. rewrite Hxn in H.
    unfold hbind at 1, alloc in H. unfold hbind at 1 in H.
    rewrite (nth_error_extends s [Items xs] b _ Hyn) in H.
    destruct (union_loop_agrees s ys yv Hyr xs xv Hxr) as (cur' & Hu & Hr).
    unfold hbind in H. rewrite Hu in H. unfold hret in H. injection H as <- <-. simpl.
    apply denotes_new_set. apply (reads_later (length s)); [lia | exact Hr].
  - destruct (denotes_dictionary s a x Hx) as (xs & xv & Hxn & -> & Hxr).
    destruct (denotes_dictionary s b y Hy) as (ys & yv & Hyn & -> & Hyr).
    cbn [add_values] in H. unfold hbind at 1, pairs_at in H. rewrite Hxn in H.
    unfold hbind at 1, alloc in H. unfold hbind at 1 in H.
    rewrite (nth_error_extends s [Pairs xs] b _ Hyn) in H.
    destruct (merge_loop_agrees s ys yv Hyr xs xv Hxr) as (cur' & Hu & Hr).
    unfold hbind in H. rewrite Hu in H. unfold hret in H. injection H as <- <-. simpl.
    apply denotes_new_dictionary. apply (reads_pairs_later (length s)); [lia | exact Hr].
Qed.

End ObjectsAgree.

(** In the evaluator proper the three primitives are functions of their
    arguments: a call of [push], [assoc] or [+] returns the state it was
    given, so no variable is rebound by it. *)
Lemma collection_builtins_keep_state (rec : request -> M value) (func : native)
  (args : list value) (st st' : state) (r : result value) :
  func = builtin_push \/ func = builtin_assoc \/ func = builtin_add ->
  apply_native rec func args st = (r, st') -> st' = st.
Proof.
  intros [-> | [-> | ->]] H; simpl in H;
    repeat (match type of H with
            | context [match ?l with [] => _ | _ :: _ => _ end] => destruct l
            end; simpl in H);
    unfold lift in H; now injection H.
Qed.

(** ** The output buffer is append-only *)

Lemma grows_refl (st : state) : grows st st.
Proof. exists []. now rewrite app_nil_r. Qed.

Lemma grows_trans (a b c : state) : grows a b -> grows b c -> grows a c.
Proof.
  intros [m1 H1] [m2 H2]. exists (m1 ++ m2). now rewrite H2, H1, app_assoc.
Qed.

Lemma appends_ret {A : Type} (a : A) : appends (ret a).
Proof. intros st r st' H. injection H as <- <-. apply grows_refl. Qed.

Lemma appends_lift {A : Type} (x : result A) : appends (lift x).
Proof. intros st r st' H. injection H as <- <-. apply grows_refl. Qed.

Lemma appends_raise {A : Type} (msg : pystr) : appends (@raise A msg).
Proof. intros st r st' H. injection H as <- <-. apply grows_refl. Qed.

Lemma appends_bind {A B : Type} (m : M A) (k : A -> M B) :
  appends m -> (forall a, appends (k a)) -> appends (bind m k).
Proof.
  intros Hm Hk st r st' H. unfold bind in H.
  destruct (m st) as [[a| | |] st1] eqn:E; try (injection H as <- <-; now apply (Hm st _ _ E)).
  apply (grows_trans st st1 st'); [apply (Hm st _ _ E) | apply (Hk a st1 _ _ H)].
Qed.

Lemma appends_get (env : nat) (name : pystr) : appends (get env name).
Proof. intros st r st' H. injection H as <- <-. apply grows_refl. Qed.

Lemma appends_define (env : nat) (name : pystr) (v : value) (m : bool) :
  appends (define env name v m).
Proof. intros st r st' H. injection H as <- <-. exists []. simpl. now rewrite app_nil_r. Qed.

Lemma appends_new_env (p : option nat) : appends (new_env p).
Proof. intros st r st' H. injection H as <- <-. exists []. simpl. now rewrite app_nil_r. Qed.

Lemma appends_assign (env : nat) (name : pystr) (v : value) : appends (assign env name v).
Proof.
  intros st r st' H. unfold assign in H.
  destruct (assign_target _ _ _ _); injection H as <- <-;
    try apply grows_refl. exists []. simpl. now rewrite app_nil_r.
Qed.

Lemma appends_emit (s : pystr) : appends (emit s).
Proof. intros st r st' H. injection H as <- <-. now exists [s]. Qed.

Lemma appends_mapM {A B : Type} (f : A -> M B) (l : list A) :
  (forall a, appends (f a)) -> appends (mapM f l).
Proof.
  intros Hf. induction l as [|x l IH]; simpl; [apply appends_ret|].
  apply appends_bind; [apply Hf|]. intros y.
  apply appends_bind; [apply IH|]. intros ys. apply appends_ret.
Qed.

(** One step of a proof that a computation appends: split a [bind],
    close a leaf, or take a case of a [match] or an [if]. *)
Ltac appends_step :=
  first
    [ apply appends_ret | apply appends_lift | apply appends_raise
    | apply appends_get | apply appends_define | apply appends_new_env
    | apply appends_assign | apply appends_emit
    | apply appends_bind; [|intro]
    | apply appends_mapM; intro
    | assumption
    | match goal with
      | |- appends (match ?x with _ => _ end) => destruct x
      | |- appends (if ?b then _ else _) => destruct b
      | |- appends (let '(_, _) := ?x in _) => destruct x
      end ].

Section Appends.
Variable U : unicode_db.
Variable rec : request -> M value.
Hypothesis rec_appends : forall r, appends (rec r).

Lemma appends_evaluate_statement (s : stmt) (env : nat) : appends (evaluate_statement rec s env).
Proof. destruct s; simpl; [apply rec_appends | apply appends_ret]. Qed.

Lemma appends_evaluate_statements (stmts : list stmt) (env : nat) (result : value) :
  appends (evaluate_statements rec stmts env result).
Proof.
  revert result. induction stmts as [|s stmts IH]; intros result; simpl.
  - apply appends_ret.
  - apply appends_bind; [apply appends_evaluate_statement | intro; apply IH].
Qed.

Lemma appends_evaluate_block (b : block) (env : nat) : appends (evaluate_block rec b env).
Proof. apply appends_evaluate_statements. Qed.

Lemma appends_define_all (env : nat) (bindings : list (pystr * value)) :
  appends (define_all env bindings).
Proof.
  induction bindings as [|[name v] rest IH]; simpl; repeat appends_step.
Qed.

Lemma appends_call_user_function (func : value) (args : list value) (env : nat) :
  appends (call_user_function rec func args env).
Proof.
  unfold call_user_function.
  repeat first [ apply appends_define_all | apply appends_evaluate_block | appends_step ].
Qed.

Lemma appends_apply_function (func : value) (args : list value) :
  appends (apply_function rec func args).
Proof.
  unfold apply_function.
  destruct func; try apply appends_call_user_function. apply rec_appends.
Qed.

Lemma appends_puts_args (args : list value) : appends (puts_args args).
Proof. induction args as [|a args IH]; simpl; repeat appends_step. Qed.

Lemma appends_filter_loop (predicate : value) (items : list value) :
  appends (filter_loop rec predicate items).
Proof.
  induction items as [|x items IH]; simpl;
    repeat first [ apply appends_apply_function | appends_step ].
Qed.

Lemma appends_fold_loop (func accumulator : value) (items : list value) :
  appends (fold_loop rec func accumulator items).
Proof.
  revert accumulator. induction items as [|x items IH]; intros accumulator; simpl.
  - apply appends_ret.
  - apply appends_bind; [apply appends_apply_function | intro; apply IH].
Qed.

Lemma appends_apply_native (func : native) (args : list value) :
  appends (apply_native rec func args).
Proof.
  unfold apply_native, builtin_puts_impl, builtin_map_impl, builtin_filter_impl,
    builtin_fold_impl, composed_call_impl.
  repeat first [ apply appends_puts_args | apply appends_filter_loop | apply appends_fold_loop
               | apply appends_apply_function | appends_step ].
Qed.

Lemma appends_call (f : value) (args : list value) : appends (call rec f args).
Proof.
  unfold call. repeat first [ apply appends_apply_native | appends_step ].
Qed.

Lemma appends_compose_functions (left right : value) : appends (compose_functions left right).
Proof. unfold compose_functions. repeat appends_step. Qed.

Lemma appends_thread_value (v func : value) : appends (thread_value rec v func).
Proof.
  unfold thread_value.
  repeat first [ apply appends_call | apply appends_call_user_function | appends_step ].
Qed.

Lemma appends_evaluate_pairs (pairs : list (expr * expr)) (env : nat) :
  appends (evaluate_pairs rec pairs env).
Proof.
  induction pairs as [|[k v] rest IH]; simpl; repeat first [ apply rec_appends | appends_step ].
Qed.

Lemma appends_compose_all (result : value) (functions : list value) :
  appends (compose_all result functions).
Proof.
  revert result. induction functions as [|f rest IH]; intros result; simpl.
  - apply appends_ret.
  - apply appends_bind; [apply appends_compose_functions | intro; apply IH].
Qed.

Lemma appends_thread_all (v : value) (functions : list value) :
  appends (thread_all rec v functions).
Proof.
  revert v. induction functions as [|f rest IH]; intros v; simpl.
  - apply appends_ret.
  - apply appends_bind; [apply appends_thread_value | intro; apply IH].
Qed.

Lemma appends_evaluate_infix (operator : pystr) (l r : expr) (env : nat) :
  appends (evaluate_infix rec operator l r env).
Proof.
  unfold evaluate_infix.
  repeat first [ apply rec_appends | apply appends_compose_functions
               | apply appends_thread_value | appends_step ].
Qed.

Lemma appends_evaluate_expression (e : expr) (env : nat) :
  appends (evaluate_expression U rec e env).
Proof.
  destruct e; simpl;
    try (unfold evaluate_prefix);
    repeat first [ apply rec_appends | apply appends_evaluate_infix | apply appends_call
                 | apply appends_call_user_function | apply appends_evaluate_block
                 | apply appends_evaluate_pairs | apply appends_compose_all
                 | apply appends_thread_all | appends_step ].
Qed.

Lemma appends_step_ (r : request) : appends (step U rec r).
Proof.
  destruct r; simpl; [apply appends_evaluate_expression | apply appends_call].
Qed.

End Appends.

(** Whatever the evaluator is asked, it only appends to the output
    buffer: what [puts] has written stays written. *)
Lemma run_appends (U : unicode_db) (fuel : nat) (r : request) : appends (run U fuel r).
Proof.
  revert r. induction fuel as [|fuel IH]; intros r; simpl.
  - intros st res st' H. injection H as <- <-. apply grows_refl.
  - apply appends_step_. exact IH.
Qed.

Lemma program_loop_appends (U : unicode_db) (fuel : nat) (stmts : list stmt) (last : value) :
  appends (program_loop U fuel stmts last).
Proof.
  revert last. induction stmts as [|s stmts IH]; intros last; simpl.
  - apply appends_ret.
  - apply appends_bind; [|intro; apply IH].
    apply appends_evaluate_statement. intro. apply run_appends.
Qed.

(** ** More fuel does not change a result *)

Lemma refines_refl {A : Type} (m : M A) : refines m m.
Proof. intros st r st' H _. exact H. Qed.

Lemma refines_trans {A : Type} (m1 m2 m3 : M A) :
  refines m1 m2 -> refines m2 m3 -> refines m1 m3.
Proof. intros H1 H2 st r st' H Hr. apply H2; [apply H1|]; assumption. Qed.

Lemma refines_bind {A B : Type} (m1 m2 : M A) (k1 k2 : A -> M B) :
  refines m1 m2 -> (forall a, refines (k1 a) (k2 a)) -> refines (bind m1 k1) (bind m2 k2).
Proof.
  intros Hm Hk st r st' H Hr. unfold bind in *.
  destruct (m1 st) as [[a| | |] st1] eqn:E.
  - rewrite (Hm st _ _ E) by discriminate. now apply Hk.
  - rewrite (Hm st _ _ E) by discriminate. exact H.
  - rewrite (Hm st _ _ E) by discriminate. exact H.
  - injection H as <- <-. now elim Hr.
Qed.

Lemma refines_mapM {A B : Type} (f1 f2 : A -> M B) (l : list A) :
  (forall a, refines (f1 a) (f2 a)) -> refines (mapM f1 l) (mapM f2 l).
Proof.
  intros Hf. induction l as [|x l IH]; simpl; [apply refines_refl|].
  apply refines_bind; [apply Hf|]. intros y.
  apply refines_bind; [apply IH|]. intros ys. apply refines_refl.
Qed.

(** One step of a proof that a computation refines the same computation
    over a better [rec]. *)
Ltac refines_step :=
  first
    [ apply refines_refl
    | assumption
    | apply refines_bind; [|intro]
    | apply refines_mapM; intro
    | match goal with
      | |- refines (match ?x with _ => _ end) _ => destruct x
      | |- refines (if ?b then _ else _) _ => destruct b
      end ].

Section Refines.
Variable U : unicode_db.
Variables rec1 rec2 : request -> M value.
Hypothesis rec_refines : forall r, refines (rec1 r) (rec2 r).

Lemma refines_evaluate_statement (s : stmt) (env : nat) :
  refines (evaluate_statement rec1 s env) (evaluate_statement rec2 s env).
Proof. destruct s; simpl; [apply rec_refines | apply refines_refl]. Qed.

Lemma refines_evaluate_statements (stmts : list stmt) (env : nat) (result : value) :
  refines (evaluate_statements rec1 stmts env result) (evaluate_statements rec2 stmts env result).
Proof.
  revert result. induction stmts as [|s stmts IH]; intros result; simpl.
  - apply refines_refl.
  - apply refines_bind; [apply refines_evaluate_statement | intro; apply IH].
Qed.

Lemma refines_evaluate_block (b : block) (env : nat) :
  refines (evaluate_block rec1 b env) (evaluate_block rec2 b env).
Proof. apply refines_evaluate_statements. Qed.

Lemma refines_call_user_function (func : value) (args : list value) (env : nat) :
  refines (call_user_function rec1 func args env) (call_user_function rec2 func args env).
Proof.
  unfold call_user_function.
  repeat first [ apply refines_evaluate_block | refines_step ].
Qed.

Lemma refines_apply_function (func : value) (args : list value) :
  refines (apply_function rec1 func args) (apply_function rec2 func args).
Proof.
  unfold apply_function.
  destruct func; try apply refines_call_user_function. apply rec_refines.
Qed.

Lemma refines_filter_loop (predicate : value) (items : list value) :
  refines (filter_loop rec1 predicate items) (filter_loop rec2 predicate items).
Proof.
  induction items as [|x items IH]; simpl;
    repeat first [ apply refines_apply_function | refines_step ].
Qed.

Lemma refines_fold_loop (func accumulator : value) (items : list value) :
  refines (fold_loop rec1 func accumulator items) (fold_loop rec2 func accumulator items).
Proof.
  revert accumulator. induction items as [|x items IH]; intros accumulator; simpl.
  - apply refines_refl.
  - apply refines_bind; [apply refines_apply_function | intro; apply IH].
Qed.

Lemma refines_apply_native (func : native) (args : list value) :
  refines (apply_native rec1 func args) (apply_native rec2 func args).
Proof.
  unfold apply_native, builtin_map_impl, builtin_filter_impl, builtin_fold_impl,
    composed_call_impl.
  repeat first [ apply refines_filter_loop | apply refines_fold_loop
               | apply refines_apply_function | refines_step ].
Qed.

Lemma refines_call (f : value) (args : list value) : refines (call rec1 f args) (call rec2 f args).
Proof.
  unfold call. repeat first [ apply refines_apply_native | refines_step ].
Qed.

Lemma refines_thread_value (v func : value) :
  refines (thread_value rec1 v func) (thread_value rec2 v func).
Proof.
  unfold thread_value.
  repeat first [ apply refines_call | apply refines_call_user_function | refines_step ].
Qed.

Lemma refines_evaluate_pairs (pairs : list (expr * expr)) (env : nat) :
  refines (evaluate_pairs rec1 pairs env) (evaluate_pairs rec2 pairs env).
Proof.
  induction pairs as [|[k v] rest IH]; simpl; repeat first [ apply rec_refines | refines_step ].
Qed.

Lemma refines_thread_all (v : value) (functions : list value) :
  refines (thread_all rec1 v functions) (thread_all rec2 v functions).
Proof.
  revert v. induction functions as [|f rest IH]; intros v; simpl.
  - apply refines_refl.
  - apply refines_bind; [apply refines_thread_value | intro; apply IH].
Qed.

Lemma refines_evaluate_infix (operator : pystr) (l r : expr) (env : nat) :
  refines (evaluate_infix rec1 operator l r env) (evaluate_infix rec2 operator l r env).
Proof.
  unfold evaluate_infix.
  repeat first [ apply rec_refines | apply refines_thread_value | refines_step ].
Qed.

Lemma refines_evaluate_expression (e : expr) (env : nat) :
  refines (evaluate_expression U rec1 e env) (evaluate_expression U rec2 e env).
Proof.
  destruct e; simpl;
    try (unfold evaluate_prefix);
    repeat first [ apply rec_refines | apply refines_evaluate_infix | apply refines_call
                 | apply refines_call_user_function | apply refines_evaluate_block
                 | apply refines_evaluate_pairs | apply refines_thread_all | refines_step ].
Qed.

Lemma refines_step_ (r : request) : refines (step U rec1 r) (step U rec2 r).
Proof.
  destruct r; simpl; [apply refines_evaluate_expression | apply refines_call].
Qed.

End Refines.

Lemma run_S (U : unicode_db) (fuel : nat) (r : request) :
  refines (run U fuel r) (run U (S fuel) r).
Proof.
  revert r. induction fuel as [|fuel IH]; intros r.
  - intros st res st' H Hr. injection H as <- <-. now elim Hr.
  - change (refines (step U (run U fuel) r) (step U (run U (S fuel)) r)).
    apply refines_step_. exact IH.
Qed.

(** A result the evaluator reaches with some fuel it reaches with any
    larger fuel, in the same state. *)
Lemma run_more_fuel (U : unicode_db) (fuel fuel' : nat) (r : request) :
  (fuel <= fuel')%nat -> refines (run U fuel r) (run U fuel' r).
Proof.
  intros H. induction H as [|m H IH]; [apply refines_refl|].
  eapply refines_trans; [exact IH | apply run_S].
Qed.

(** ** Composition is associative *)

Lemma bind_assoc {A B C : Type} (m : M A) (k : A -> M B) (k' : B -> M C) (st : state) :
  bind (bind m k) k' st = bind m (fun a => bind (k a) k') st.
Proof. unfold bind. destruct (m st) as [[a| | |] st1]; reflexivity. Qed.

Lemma repr_callable (f : value) : is_callable f = true -> exists text, repr f = Ok text.
Proof.
  destruct f; try discriminate; intros _; simpl; [eexists; reflexivity|].
  destruct partial_args; eexists; reflexivity.
Qed.

Lemma compose_functions_callable (f g : value) (st : state) :
  is_callable f = true -> is_callable g = true ->
  exists name, compose_functions f g st = (Ok (composed name f g), st).
Proof.
  intros Hf Hg. unfold compose_functions. rewrite Hf, Hg. simpl.
  destruct (repr_callable f Hf) as [l Hl]. destruct (repr_callable g Hg) as [r Hr].
  unfold bind, lift. rewrite Hl, Hr. eexists. reflexivity.
Qed.

Lemma apply_function_more_fuel (U : unicode_db) (fuel fuel' : nat) (f : value)
  (args : list value) :
  (fuel <= fuel')%nat ->
  refines (apply_function (run U fuel) f args) (apply_function (run U fuel') f args).
Proof.
  intros H. apply refines_apply_function. intros r. now apply run_more_fuel.
Qed.

Lemma run_composed_left (U : unicode_db) (fuel : nat) (n1 n2 : pystr) (f g h x : value)
  (st : state) :
  run U (S (S fuel)) (CallBuiltin (composed n1 (composed n2 f g) h) [x]) st
  = (first <- apply_function (run U fuel) f [x] ;;
     second <- apply_function (run U fuel) g [first] ;;
     apply_function (run U (S fuel)) h [second]) st.
Proof.
  change (run U (S (S fuel)) (CallBuiltin (composed n1 (composed n2 f g) h) [x]))
    with (bind (bind (apply_function (run U fuel) f [x])
                     (fun first => apply_function (run U fuel) g [first]))
               (fun second => apply_function (run U (S fuel)) h [second])).
  apply bind_assoc.
Qed.

Lemma run_composed_right (U : unicode_db) (fuel : nat) (n1 n2 : pystr) (f g h x : value) :
  run U (S (S fuel)) (CallBuiltin (composed n1 f (composed n2 g h)) [x])
  = (first <- apply_function (run U (S fuel)) f [x] ;;
     second <- apply_function (run U fuel) g [first] ;;
     apply_function (run U fuel) h [second]).
Proof. reflexivity. Qed.

(** X27.  Composition is associative: both [(f >> g) >> h] and
    [f >> (g >> h)], called on [x], return what
    the chain [h(g(f(x)))] returns whose calls are made from the global
    environment: with [fuel] a call returns what the chain returns, and
    what the chain returns with [fuel] a call returns with two more. *)
Lemma composition_associative (U : unicode_db) (fuel : nat) (n1 n2 n3 n4 : pystr)
  (f g h x : value) :
  refines (run U fuel (CallBuiltin (composed n1 (composed n2 f g) h) [x])) (chain U fuel f g h x)
  /\ refines (chain U fuel f g h x)
       (run U (S (S fuel)) (CallBuiltin (composed n1 (composed n2 f g) h) [x]))
  /\ refines (run U fuel (CallBuiltin (composed n3 f (composed n4 g h)) [x]))
       (chain U fuel f g h x)
  /\ refines (chain U fuel f g h x)
       (run U (S (S fuel)) (CallBuiltin (composed n3 f (composed n4 g h)) [x])).
Proof.
  assert (Hup : forall a b w args, (a <= b)%nat ->
            refines (apply_function (run U a) w args) (apply_function (run U b) w args))
    by (intros; now apply apply_function_more_fuel).
  split; [|split; [|split]].
  - destruct fuel as [|[|n]].
    + intros st r st' H Hr. injection H as <- <-. now elim Hr.
    + intros st r st' H Hr. injection H as <- <-. now elim Hr.
    + intros st r st' H Hr. rewrite run_composed_left in H. revert st r st' H Hr.
      unfold chain. apply refines_bind; [apply Hup; lia|]. intros first.
      apply refines_bind; [apply Hup; lia|]. intros second. apply Hup; lia.
  - intros st r st' H Hr. rewrite run_composed_left. revert st r st' H Hr.
    unfold chain. apply refines_bind; [apply refines_refl|]. intros first.
    apply refines_bind; [apply refines_refl|]. intros second. apply Hup; lia.
  - destruct fuel as [|[|n]].
    + intros st r st' H Hr. injection H as <- <-. now elim Hr.
    + intros st r st' H Hr.
      change (run U 1 (CallBuiltin (composed n3 f (composed n4 g h)) [x]))
        with (bind (apply_function (run U 0) f [x])
                   (fun first => run U 0 (CallBuiltin (composed n4 g h) [first]))) in H.
      unfold bind in H.
      destruct (apply_function (run U 0) f [x] st) as [[a| | |] st1] eqn:E.
      * injection H as <- <-. now elim Hr.
      * injection H as <- <-. unfold chain, bind.
        rewrite (Hup 0%nat 1%nat f [x] (Nat.le_0_l 1) st _ _ E) by discriminate. reflexivity.
      * injection H as <- <-. unfold chain, bind.
        rewrite (Hup 0%nat 1%nat f [x] (Nat.le_0_l 1) st _ _ E) by discriminate. reflexivity.
      * injection H as <- <-. now elim Hr.
    + rewrite run_composed_right. unfold chain.
      apply refines_bind; [apply Hup; lia|]. intros first.
      apply refines_bind; [apply Hup; lia|]. intros second. apply Hup; lia.
  - rewrite run_composed_right. unfold chain.
    apply refines_bind; [apply Hup; lia|]. intros first.
    apply refines_bind; [apply refines_refl|]. intros second. apply refines_refl.
Qed.

(** * Further properties of the lexer, the environments and the builtins *)

(** ** Environments (Environment.define, get, assign) *)

Lemma pystr_eqb_eq (a b : pystr) : pystr_eqb a b = true <-> a = b.
Proof.
  revert b. induction a as [|x a IH]; intros [|y b]; simpl; split; try easy.
  - intros H. apply andb_true_iff in H. destruct H as [Hx Hab].
    apply Z.eqb_eq in Hx. apply IH in Hab. now subst.
  - intros H. injection H as -> ->. rewrite Z.eqb_refl. now apply IH.
Qed.

Lemma pystr_eqb_refl (a : pystr) : pystr_eqb a a = true.
Proof. now apply pystr_eqb_eq. Qed.

Lemma dict_get_set_same {V : Type} (d : list (pystr * V)) (name : pystr) (v : V) :
  dict_get (dict_set d name v) name = Some v.
Proof.
  induction d as [|[k v0] d IH]; simpl.
  - now rewrite pystr_eqb_refl.
  - destruct (pystr_eqb k name) eqn:E; simpl; now rewrite E.
Qed.

Lemma dict_get_set_other {V : Type} (d : list (pystr * V)) (name other : pystr) (v : V) :
  name <> other -> dict_get (dict_set d name v) other = dict_get d other.
Proof.
  intros Hne. induction d as [|[k v0] d IH]; simpl.
  - destruct (pystr_eqb name other) eqn:E; [|reflexivity].
    apply pystr_eqb_eq in E. contradiction.
  - destruct (pystr_eqb k name) eqn:E; simpl.
    + apply pystr_eqb_eq in E. subst k.
      destruct (pystr_eqb name other) eqn:E'; [|reflexivity].
      apply pystr_eqb_eq in E'. contradiction.
    + now rewrite IH.
Qed.

Lemma length_update_nth {A : Type} (n : nat) (f : A -> A) (l : list A) :
  length (update_nth n f l) = length l.
Proof.
  revert n. induction l as [|x l IH]; intros [|n]; simpl; try reflexivity. now rewrite IH.
Qed.

Lemma nth_error_update_nth_same {A : Type} (n : nat) (f : A -> A) (l : list A) :
  nth_error (update_nth n f l) n = option_map f (nth_error l n).
Proof.
  revert n. induction l as [|x l IH]; intros [|n]; simpl; try reflexivity. apply IH.
Qed.

Lemma nth_error_update_nth_other {A : Type} (n m : nat) (f : A -> A) (l : list A) :
  n <> m -> nth_error (update_nth n f l) m = nth_error l m.
Proof.
  revert n m. induction l as [|x l IH]; intros [|n] [|m] H; simpl; try reflexivity.
  - contradiction.
  - apply IH. congruence.
Qed.

(** The store after [define]. *)
Lemma envs_define (env : nat) (name : pystr) (v : value) (m : bool) (st : state) :
  envs (snd (define env name v m st))
  = update_nth env (fun f => {| parent := parent f;
                                variables := dict_set (variables f) name v;
                                mutable := dict_set (mutable f) name m |}) (envs st).
Proof. reflexivity. Qed.

(** A lookup of another name does not see a change of [name]. *)
Lemma get_from_other (fuel : nat) (es : list Environment) (target : nat)
  (g : Environment -> Environment) (other : pystr) (env : nat) :
  (forall f, parent (g f) = parent f) ->
  (forall f, dict_get (variables (g f)) other = dict_get (variables f) other) ->
  get_from fuel (update_nth target g es) env other = get_from fuel es env other.
Proof.
  intros Hp Hv. revert env. induction fuel as [|fuel IH]; intros env; [reflexivity|]. simpl.
  destruct (Nat.eq_dec target env) as [->|Hne].
  - rewrite nth_error_update_nth_same. destruct (nth_error es env) as [f|]; [|reflexivity].
    simpl. rewrite Hv, Hp. destruct (dict_get (variables f) other); [reflexivity|].
    destruct (parent f); [apply IH | reflexivity].
  - rewrite nth_error_update_nth_other by exact Hne.
    destruct (nth_error es env) as [f|]; [|reflexivity].
    destruct (dict_get (variables f) other); [reflexivity|].
    destruct (parent f); [apply IH | reflexivity].
Qed.

(** X3.  [define] binds the name in its environment: a [get] of the name
    there returns the value just defined, whatever the name was bound to
    before, and a [get] of any other name, from any environment, returns
    what it returned before. *)
Theorem define_then_get (st : state) (env : nat) (name : pystr) (v : value) (m : bool) :
  (env < length (envs st))%nat ->
  let st' := snd (define env name v m st) in
  get env name st' = (Ok v, st')
  /\ forall env' other, other <> name -> fst (get env' other st') = fst (get env' other st).
Proof.
  intros Henv st'. split.
  - unfold get. f_equal. subst st'. rewrite envs_define, length_update_nth.
    destruct (length (envs st)) as [|n] eqn:El; [lia|]. simpl.
    rewrite nth_error_update_nth_same.
    destruct (nth_error (envs st) env) as [f|] eqn:Ef.
    + simpl. now rewrite dict_get_set_same.
    + apply nth_error_None in Ef. lia.
  - intros env' other Hne. unfold get. cbn [fst]. subst st'.
    rewrite envs_define, length_update_nth. apply get_from_other.
    + reflexivity.
    + intros f. simpl. apply dict_get_set_other. congruence.
Qed.

(** In the state after [Evaluator()]: after [let x = 5], [x] is 5 and
    [push] is the builtin it was. *)
Lemma define_then_get_witness :
  get global_env (py "x") (snd (define global_env (py "x") (ElfInteger 5) false initial_state))
  = (Ok (ElfInteger 5), snd (define global_env (py "x") (ElfInteger 5) false initial_state))
  /\ fst (get global_env (py "push")
            (snd (define global_env (py "x") (ElfInteger 5) false initial_state)))
     = Ok (ElfBuiltinFunction (py "push") builtin_push 2 []).
Proof.
  destruct (define_then_get initial_state global_env (py "x") (ElfInteger 5) false)
    as [Hget Hother]; [unfold global_env; simpl; lia|].
  split; [exact Hget|].
  rewrite (Hother global_env (py "push")); [reflexivity | discriminate].
Defined.

(** ** The lexer (lexer.py) *)

Section LexerFacts.
Variable U : unicode_db.
Hypothesis HU : coherent U.

Lemma read_number_text (has_decimal : bool) (s text rest : pystr) (d : bool) :
  Lexer.read_number U has_decimal s = (text, rest, d) -> s = text ++ rest.
Proof.
  revert has_decimal text rest d. induction s as [|c s IH]; intros hd text rest d H; simpl in H.
  - now injection H as <- <- _.
  - destruct (isdigit U c || (c =? 46) || (c =? 95)).
    + destruct ((c =? 46) && hd).
      * now injection H as <- <- _.
      * destruct (Lexer.read_number U (hd || (c =? 46)) s) as [[t r] d'] eqn:E.
        injection H as <- <- _. simpl. f_equal. now apply (IH _ _ _ _ E).
    + now injection H as <- <- _.
Qed.

Lemma read_string_text (s text rest : pystr) :
  Lexer.read_string s = (text, rest) -> s = text ++ rest.
Proof.
  assert (H : forall n s, (length s <= n)%nat ->
            forall text rest, Lexer.read_string s = (text, rest) -> s = text ++ rest).
  { clear. induction n as [|n IH]; intros s Hn text rest H.
    - destruct s; [|simpl in Hn; lia]. now injection H as <- <-.
    - destruct s as [|c s]; simpl in H.
      + now injection H as <- <-.
      + destruct (c =? 34); [now injection H as <- <-|].
        destruct (c =? 92).
        * destruct s as [|c' s]; [now injection H as <- <-|].
          destruct (Lexer.read_string s) as [t r] eqn:E. injection H as <- <-.
          simpl. do 2 f_equal. apply (IH s); [simpl in Hn; lia | exact E].
        * destruct (Lexer.read_string s) as [t r] eqn:E. injection H as <- <-.
          simpl. f_equal. apply (IH s); [simpl in Hn; lia | exact E]. }
  apply (H (length s) s). lia.
Qed.

Lemma read_identifier_text (s text rest : pystr) :
  Lexer.read_identifier U s = (text, rest) -> s = text ++ rest.
Proof.
  revert text rest. induction s as [|c s IH]; intros text rest H; simpl in H.
  - now injection H as <- <-.
  - destruct (isalnum U c || (c =? 95)).
    + destruct (Lexer.read_identifier U s) as [t r] eqn:E. injection H as <- <-.
      simpl. f_equal. now apply IH.
    + now injection H as <- <-.
Qed.

Lemma read_comment_text (s text rest : pystr) :
  Lexer.read_comment s = (text, rest) -> s = text ++ rest.
Proof.
  revert text rest. induction s as [|c s IH]; intros text rest H; simpl in H.
  - now injection H as <- <-.
  - destruct (c =? 10).
    + now injection H as <- <-.
    + destruct (Lexer.read_comment s) as [t r] eqn:E. injection H as <- <-.
      simpl. f_equal. now apply IH.
Qed.

Lemma read_comment_first (c : codepoint) (s : pystr) :
  c <> 10 -> fst (Lexer.read_comment (c :: s)) <> [].
Proof.
  intros Hc. simpl. destruct (Z.eqb_spec c 10) as [->|_]; [contradiction|].
  destruct (Lexer.read_comment s). discriminate.
Qed.

Lemma two_char_value (c1 c2 : codepoint) (t : Lexer.TokenType) :
  Lexer.two_char c1 c2 = Some t -> Lexer.member_value t = [c1; c2].
Proof.
  unfold Lexer.two_char.
  repeat match goal with
         | |- context [if ?b then Some _ else _] =>
             let E := fresh "E" in
             destruct b eqn:E;
             [ apply andb_true_iff in E; destruct E as [Ha Hb];
               apply Z.eqb_eq in Ha, Hb; subst; intros H; injection H as <-; reflexivity | ]
         end.
  discriminate.
Qed.

(** Where the lexer finds no operator, none is spelled. *)
Lemma punctuation_absent (c : codepoint) (s' : pystr) :
  Lexer.single_char_tokens c = None ->
  match s' with c2 :: _ => Lexer.two_char c c2 = None | [] => True end ->
  existsb (fun operator => starts_with operator (c :: s')) punctuation = false.
Proof.
  intros Hs Ht. unfold Lexer.single_char_tokens in Hs.
  repeat match type of Hs with
         | context [c =? ?k] =>
             let E := fresh "E" in
             destruct (c =? k) eqn:E; [discriminate Hs|]
         end.
  clear Hs. unfold punctuation. destruct s' as [|c2 s''].
  - cbn. repeat match goal with E : (c =? _) = false |- _ => rewrite E; clear E end.
    destruct (c =? 33), (c =? 38), (c =? 35); reflexivity.
  - unfold Lexer.two_char in Ht. cbn.
    repeat match goal with E : (c =? _) = false |- _ => rewrite E in *; clear E end.
    cbn in Ht.
    destruct (c =? 33), (c =? 38), (c =? 35), (c2 =? 61), (c2 =? 38), (c2 =? 123);
      cbn in Ht |- *; (discriminate Ht || reflexivity).
Qed.

(** One round of the lexer: the token it returns is the text at the
    current position, and what it passes over is one character that is
    white space or stands where no token begins. *)
Lemma scan_text (c : codepoint) (s' : pystr) (pos : Z) (tok : option Lexer.Token)
  (rest : pystr) :
  Lexer.scan U c s' pos = (tok, rest) ->
  match tok with
  | Some t => c :: s' = Lexer.value t ++ rest /\ Lexer.position t = pos /\ Lexer.value t <> []
  | None => rest = s' /\ white_space c || negb (begins_token U (c :: s')) = true
  end.
Proof.
  unfold Lexer.scan. intros H.
  destruct ((c =? 32) || (c =? 9) || (c =? 10) || (c =? 13)) eqn:Ews.
  { injection H as <- <-. split; [reflexivity|]. unfold white_space. now rewrite Ews. }
  destruct (isdigit U c) eqn:Edigit.
  { destruct (Lexer.read_number U false (c :: s')) as [[text r] d] eqn:E.
    injection H as <- <-. cbn [Lexer.value Lexer.position].
    pose proof (read_number_text _ _ _ _ _ E) as Ht.
    split; [exact Ht|]. split; [reflexivity|].
    simpl in E. rewrite Edigit in E. cbn [orb andb] in E.
    rewrite andb_false_r in E.
    destruct (Lexer.read_number U _ s') as [[t0 r0] d0].
    injection E as <- _ _. discriminate. }
  destruct (c =? 34) eqn:Equote.
  { destruct (Lexer.read_string s') as [text r] eqn:E. injection H as <- <-.
    cbn [Lexer.value Lexer.position]. rewrite (read_string_text _ _ _ E).
    split; [reflexivity|]. split; [reflexivity | discriminate]. }
  destruct (isalpha U c || (c =? 95)) eqn:Ealpha.
  { destruct (Lexer.read_identifier U (c :: s')) as [text r] eqn:E. injection H as <- <-.
    cbn [Lexer.value Lexer.position].
    split; [exact (read_identifier_text _ _ _ E)|]. split; [reflexivity|].
    intros ->. pose proof (read_identifier_text _ _ _ E) as Ht. simpl in Ht. subst r.
    simpl in E.
    assert (Halnum : isalnum U c || (c =? 95) = true).
    { apply orb_true_iff in Ealpha. destruct Ealpha as [Ha | Hu]; [|now rewrite Hu, orb_true_r].
      apply orb_true_iff. left. revert Ha. unfold isalpha, isalnum.
      destruct (c <? 128) eqn:E128.
      - intros Ha. apply orb_true_iff in Ha. rewrite <- orb_assoc.
        apply orb_true_iff. right. exact (proj2 (orb_true_iff _ _) Ha).
      - apply HU. }
    rewrite Halnum in E. destruct (Lexer.read_identifier U s'). discriminate. }
  assert (Hdrop : Lexer.single_char_tokens c = None ->
                  match s' with c2 :: _ => Lexer.two_char c c2 = None | [] => True end ->
                  white_space c || negb (begins_token U (c :: s')) = true).
  { intros Hs Ht. unfold begins_token. rewrite (punctuation_absent c s' Hs Ht).
    apply orb_false_iff in Ealpha. destruct Ealpha as [-> ->]. rewrite Edigit, Equote.
    apply orb_true_r. }
  assert (Hsingle : forall r0 : pystr,
            match s' with c2 :: _ => Lexer.two_char c c2 = None | [] => True end ->
            match Lexer.single_char_tokens c with
            | Some t => (Some {| Lexer.type := t; Lexer.value := [c]; Lexer.position := pos |}, s')
            | None => (None, s')
            end = (tok, r0) ->
            match tok with
            | Some t =>
                c :: s' = Lexer.value t ++ r0 /\ Lexer.position t = pos /\ Lexer.value t <> []
            | None => r0 = s' /\ white_space c || negb (begins_token U (c :: s')) = true
            end).
  { intros r0 Ht H0. destruct (Lexer.single_char_tokens c) as [t|] eqn:Es; injection H0 as <- <-.
    - cbn [Lexer.value Lexer.position]. split; [reflexivity|]. split; [reflexivity | discriminate].
    - split; [reflexivity | now apply Hdrop]. }
  destruct s' as [|c2 s'']; [now apply Hsingle|].
  destruct ((c =? 47) && (c2 =? 47)) eqn:Ecomment.
  { destruct (Lexer.read_comment (c :: c2 :: s'')) as [text r] eqn:E. injection H as <- <-.
    cbn [Lexer.value Lexer.position].
    split; [exact (read_comment_text _ _ _ E)|]. split; [reflexivity|].
    apply andb_true_iff in Ecomment. destruct Ecomment as [Hc _]. apply Z.eqb_eq in Hc.
    pose proof (read_comment_first c (c2 :: s'')) as Hf. rewrite E in Hf. apply Hf. lia. }
  destruct (Lexer.two_char c c2) as [t|] eqn:Etwo; [|now apply Hsingle].
  injection H as <- <-. cbn [Lexer.value Lexer.position].
  rewrite (two_char_value _ _ _ Etwo). split; [reflexivity|]. split; [reflexivity | discriminate].
Qed.

Lemma len_app (a b : pystr) : Lexer.len (a ++ b) = Lexer.len a + Lexer.len b.
Proof. unfold Lexer.len. rewrite length_app. lia. Qed.

Lemma spells_passed_over (ts : list Lexer.Token) (pos : Z) (c : codepoint) (s : pystr) :
  white_space c || negb (begins_token U (c :: s)) = true ->
  spells U ts (pos + 1) s -> spells U ts pos (c :: s).
Proof.
  intros Hc. destruct ts as [|t ts]; cbn [spells passed_over].
  - intros ->. rewrite app_nil_r. now rewrite Hc.
  - intros (gap & rest & -> & Hgap & Hpos & Hne & Hrest).
    exists (c :: gap), rest. cbn [passed_over app]. rewrite Hc, Hgap.
    repeat split; try assumption. rewrite Hpos. unfold Lexer.len. simpl length. lia.
Qed.

Lemma tokenize_from_spells (rounds : nat) (s : pystr) (pos : Z) :
  (length s <= rounds)%nat -> spells U (Lexer.tokenize_from U rounds s pos) pos s.
Proof.
  revert s pos. induction rounds as [|rounds IH]; intros s pos Hr.
  - destruct s; [reflexivity | simpl in Hr; lia].
  - destruct s as [|c s']; [reflexivity|]. cbn [Lexer.tokenize_from].
    destruct (Lexer.scan U c s' pos) as [tok rest] eqn:E.
    pose proof (scan_text _ _ _ _ _ E) as Hs.
    destruct tok as [t|].
    + destruct Hs as (Htext & Hpos & Hne).
      cbn [spells]. exists [], rest. rewrite Htext. cbn [app passed_over].
      repeat split; try assumption.
      * rewrite Hpos. unfold Lexer.len. simpl. lia.
      * rewrite len_app, Hpos.
        replace (pos + (Lexer.len (Lexer.value t) + Lexer.len rest - Lexer.len rest))
          with (pos + Lexer.len (Lexer.value t)) by lia.
        apply IH. apply (f_equal (@length _)) in Htext. rewrite length_app in Htext.
        simpl in Htext, Hr. destruct (Lexer.value t); [contradiction | simpl in Htext; lia].
    + destruct Hs as [-> Hdrop].
      replace (pos + (Lexer.len (c :: s') - Lexer.len s')) with (pos + 1)
        by (unfold Lexer.len; simpl length; lia).
      apply spells_passed_over; [exact Hdrop|]. apply IH. simpl in Hr. lia.
Qed.

End LexerFacts.

Lemma spells_slices (U : unicode_db) (ts : list Lexer.Token) (pre s : pystr) :
  spells U ts (Lexer.len pre) s ->
  Forall (fun t => slice (pre ++ s) (Lexer.position t) (length (Lexer.value t)) = Lexer.value t)
    ts.
Proof.
  revert pre s. induction ts as [|t ts IH]; intros pre s H; [constructor|].
  destruct H as (gap & rest & -> & _ & Hpos & _ & Hrest). constructor.
  - unfold slice. rewrite Hpos, <- len_app. unfold Lexer.len. rewrite Nat2Z.id.
    rewrite app_assoc, skipn_app, skipn_all, Nat.sub_diag. simpl.
    rewrite firstn_app, firstn_all, Nat.sub_diag. simpl. now rewrite app_nil_r.
  - replace (pre ++ gap ++ Lexer.value t ++ rest)
      with ((pre ++ gap ++ Lexer.value t) ++ rest) by now rewrite <- !app_assoc.
    apply IH. rewrite !len_app. rewrite Hpos in Hrest.
    now replace (Lexer.len pre + (Lexer.len gap + Lexer.len (Lexer.value t)))
      with (Lexer.len pre + Lexer.len gap + Lexer.len (Lexer.value t)) by lia.
Qed.

Lemma spells_ordered (U : unicode_db) (ts : list Lexer.Token) (pos : Z) (s : pystr) :
  spells U ts pos s ->
  Forall (fun t => pos <= Lexer.position t) ts /\ StronglySorted precedes ts.
Proof.
  revert pos s. induction ts as [|t ts IH]; intros pos s H; [split; constructor|].
  destruct H as (gap & rest & -> & _ & Hpos & _ & Hrest).
  destruct (IH _ _ Hrest) as [Hall Hsorted].
  assert (Hlen : forall l : pystr, 0 <= Lexer.len l) by (intros l; unfold Lexer.len; lia).
  split.
  - pose proof (Hlen gap) as Hg. pose proof (Hlen (Lexer.value t)) as Hv.
    constructor; [lia|].
    eapply Forall_impl; [|exact Hall]. simpl. intros b Hb. lia.
  - constructor; [exact Hsorted | exact Hall].
Qed.

(** X1.  The tokens of a source spell it: read from left to right the
    source is the text of each token in turn, none of them empty, and
    every character before, between and after them is white space or
    stands where no token begins: it is no digit, double quote, letter
    or underscore, and no operator or bracket is spelled from it on
    (so a [!] is passed over, but never the [!] of [!=]).  So every
    token's [value] is the text of the source at its [position],
    [source[position : position + len(value)]], and each token ends
    before the next begins. *)
Theorem tokens_spell_the_source (U : unicode_db) (source : pystr) :
  coherent U ->
  spells U (Lexer.tokenize U source) 0 source
  /\ Forall (fun t => slice source (Lexer.position t) (length (Lexer.value t)) = Lexer.value t)
       (Lexer.tokenize U source)
  /\ StronglySorted precedes (Lexer.tokenize U source).
Proof.
  intros HU.
  assert (H : spells U (Lexer.tokenize U source) 0 source)
    by (apply tokenize_from_spells; [exact HU | lia]).
  split; [exact H|]. split.
  - apply (spells_slices U _ [] source H).
  - apply (spells_ordered U _ 0 source H).
Qed.

Lemma ascii_db_coherent : coherent ascii_db.
Proof. intros c H. exact H. Qed.

(** The tokens of [x != 1 @ ! 2]: the [@] and the second [!] are passed
    over, the [!] of [!=] is not. *)
Lemma tokens_spell_the_source_witness :
  coherent ascii_db
  /\ map Lexer.value (Lexer.tokenize ascii_db (py "x != 1 @ ! 2"))
     = [py "x"; py "!="; py "1"; py "2"]
  /\ spells ascii_db (Lexer.tokenize ascii_db (py "x != 1 @ ! 2")) 0 (py "x != 1 @ ! 2").
Proof.
  split; [exact ascii_db_coherent|]. split; [reflexivity|].
  exact (proj1 (tokens_spell_the_source ascii_db (py "x != 1 @ ! 2") ascii_db_coherent)).
Defined.

Section TokenShapes.
Variable U : unicode_db.

Lemma read_number_shape (s text rest : pystr) (has_decimal d : bool) :
  Lexer.read_number U has_decimal s = (text, rest, d) ->
  if has_decimal then Forall (digit_or_underscore U) text /\ d = true
  else if d then exists whole fraction,
                   text = whole ++ 46 :: fraction
                   /\ Forall (digit_or_underscore U) whole
                   /\ Forall (digit_or_underscore U) fraction
       else Forall (digit_or_underscore U) text.
Proof.
  revert text rest has_decimal d.
  induction s as [|c s IH]; intros text rest hd d H; simpl in H.
  - injection H as <- _ <-. destruct hd; [split|]; constructor.
  - destruct (isdigit U c || (c =? 46) || (c =? 95)) eqn:Ec.
    2:{ injection H as <- _ <-. destruct hd; [split|]; constructor. }
    destruct (Z.eqb_spec c 46) as [->|Hdot].
    + destruct hd; cbn [andb orb] in H.
      * injection H as <- _ <-. split; constructor.
      * destruct (Lexer.read_number U true s) as [[t r] d'] eqn:E.
        injection H as <- _ <-. specialize (IH _ _ _ _ E). cbn in IH.
        destruct IH as [Ht ->]. exists [], t. repeat split; [constructor | exact Ht].
    + rewrite andb_false_l, orb_false_r in H.
      destruct (Lexer.read_number U hd s) as [[t r] d'] eqn:E.
      injection H as <- _ <-. specialize (IH _ _ _ _ E).
      assert (Hc : digit_or_underscore U c).
      { unfold digit_or_underscore. rewrite orb_false_r in Ec.
        apply orb_true_iff in Ec. destruct Ec as [Ec|Ec]; [now left|].
        right. now apply Z.eqb_eq. }
      destruct hd.
      * destruct IH as [Ht ->]. split; [now constructor | reflexivity].
      * destruct d'.
        -- destruct IH as (whole & fraction & -> & Hw & Hf).
           exists (c :: whole), fraction. repeat split; [now constructor | exact Hf].
        -- now constructor.
Qed.

Lemma read_identifier_shape (s text rest : pystr) :
  Lexer.read_identifier U s = (text, rest) -> Forall (word_character U) text.
Proof.
  revert text rest. induction s as [|c s IH]; intros text rest H; simpl in H.
  - injection H as <- _. constructor.
  - destruct (isalnum U c || (c =? 95)) eqn:Ec.
    + destruct (Lexer.read_identifier U s) as [t r] eqn:E. injection H as <- _.
      constructor; [|now apply (IH t r)].
      apply orb_true_iff in Ec. destruct Ec as [Ec|Ec]; [now left|].
      right. now apply Z.eqb_eq.
    + injection H as <- _. constructor.
Qed.

Lemma read_comment_shape (s text rest : pystr) :
  Lexer.read_comment s = (text, rest) -> ~ In 10 text.
Proof.
  revert text rest. induction s as [|c s IH]; intros text rest H; simpl in H.
  - injection H as <- _. easy.
  - destruct (Z.eqb_spec c 10).
    + injection H as <- _. easy.
    + destruct (Lexer.read_comment s) as [t r] eqn:E. injection H as <- _.
      intros [Hc|Hin]; [lia | exact (IH t r eq_refl Hin)].
Qed.

Lemma keyword_type (text : pystr) :
  match Lexer.keyword text with
  | Lexer.ID | Lexer.LET | Lexer.MUT | Lexer.IF_ | Lexer.ELSE
  | Lexer.TRUE | Lexer.FALSE | Lexer.NIL => True
  | _ => False
  end.
Proof.
  unfold Lexer.keyword.
  repeat match goal with |- context [if ?b then _ else _] => destruct b; [exact I|] end.
  exact I.
Qed.

Lemma two_char_operator (c1 c2 : codepoint) (t : Lexer.TokenType) :
  Lexer.two_char c1 c2 = Some t ->
  match t with
  | Lexer.EQ | Lexer.NE | Lexer.GE | Lexer.LE | Lexer.AND | Lexer.OR | Lexer.PIPE_OP
  | Lexer.COMPOSE | Lexer.DICT_START => True
  | _ => False
  end.
Proof.
  unfold Lexer.two_char.
  repeat match goal with
         | |- context [if ?b then Some _ else _] =>
             destruct b; [intros H; injection H as <-; exact I|]
         end.
  discriminate.
Qed.

Lemma single_char_operator (c : codepoint) (t : Lexer.TokenType) :
  Lexer.single_char_tokens c = Some t ->
  Lexer.member_value t = [c]
  /\ match t with
     | Lexer.PLUS | Lexer.MINUS | Lexer.MULTIPLY | Lexer.DIVIDE | Lexer.ASSIGN | Lexer.GT
     | Lexer.LT | Lexer.LBRACE | Lexer.RBRACE | Lexer.LBRACKET | Lexer.RBRACKET
     | Lexer.SEMICOLON | Lexer.LPAREN | Lexer.RPAREN | Lexer.COMMA | Lexer.COLON
     | Lexer.PIPE => True
     | _ => False
     end.
Proof.
  unfold Lexer.single_char_tokens.
  repeat match goal with
         | |- context [if ?a =? ?x then Some _ else _] =>
             destruct (Z.eqb_spec a x);
             [intros H; injection H as <-; subst; split; [reflexivity | exact I]|]
         end.
  discriminate.
Qed.

Lemma scan_well_formed (c : codepoint) (s' : pystr) (pos : Z) (t : Lexer.Token)
  (rest : pystr) :
  Lexer.scan U c s' pos = (Some t, rest) -> well_formed U t.
Proof.
  unfold Lexer.scan. intros H.
  destruct ((c =? 32) || (c =? 9) || (c =? 10) || (c =? 13)); [discriminate|].
  destruct (isdigit U c) eqn:Edigit.
  { destruct (Lexer.read_number U false (c :: s')) as [[text r] d] eqn:E.
    injection H as <- _. pose proof (read_number_shape _ _ _ _ _ E) as Hs. cbn in Hs.
    unfold well_formed. cbn [Lexer.type Lexer.value]. now destruct d. }
  destruct (Z.eqb_spec c 34) as [->|Hq].
  { destruct (Lexer.read_string s') as [text r]. injection H as <- _.
    unfold well_formed. cbn [Lexer.type Lexer.value]. now exists text. }
  destruct (isalpha U c || (c =? 95)).
  { destruct (Lexer.read_identifier U (c :: s')) as [text r] eqn:E. injection H as <- _.
    unfold well_formed. cbn [Lexer.type Lexer.value].
    pose proof (keyword_type text) as Hk. pose proof (read_identifier_shape _ _ _ E) as Hw.
    destruct (Lexer.keyword text); try contradiction; now split. }
  assert (Hsingle : forall r0 : pystr,
            match Lexer.single_char_tokens c with
            | Some t0 => (Some {| Lexer.type := t0; Lexer.value := [c]; Lexer.position := pos |},
                          s')
            | None => (None, s')
            end = (Some t, r0) -> well_formed U t).
  { intros r0 H0. destruct (Lexer.single_char_tokens c) as [t0|] eqn:Es; [|discriminate].
    injection H0 as <- _. destruct (single_char_operator _ _ Es) as [Hv Hop].
    unfold well_formed. cbn [Lexer.type Lexer.value].
    destruct t0; try contradiction; symmetry; exact Hv. }
  destruct s' as [|c2 s'']; [now apply (Hsingle rest)|].
  destruct ((c =? 47) && (c2 =? 47)) eqn:Ecomment.
  { destruct (Lexer.read_comment (c :: c2 :: s'')) as [text r] eqn:E. injection H as <- _.
    unfold well_formed. cbn [Lexer.type Lexer.value].
    apply andb_true_iff in Ecomment. destruct Ecomment as [Hc Hc2].
    apply Z.eqb_eq in Hc, Hc2. subst c c2.
    pose proof (read_comment_shape _ _ _ E) as Hn. simpl in E.
    destruct (Lexer.read_comment s'') as [t0 r0]. injection E as <- _.
    exists t0. split; [reflexivity|]. intros Hin. apply Hn. now right; right. }
  destruct (Lexer.two_char c c2) as [t0|] eqn:Etwo; [|now apply (Hsingle rest)].
  injection H as <- _. pose proof (two_char_operator _ _ _ Etwo) as Hop.
  unfold well_formed. cbn [Lexer.type Lexer.value].
  destruct t0; try contradiction; reflexivity.
Qed.

Lemma tokenize_from_well_formed (rounds : nat) (s : pystr) (pos : Z) :
  Forall (well_formed U) (Lexer.tokenize_from U rounds s pos).
Proof.
  revert s pos. induction rounds as [|rounds IH]; intros s pos; [constructor|].
  destruct s as [|c s']; [constructor|]. cbn [Lexer.tokenize_from].
  destruct (Lexer.scan U c s' pos) as [[t|] rest] eqn:E; [|apply IH].
  constructor; [exact (scan_well_formed _ _ _ _ _ E) | apply IH].
Qed.

(** X26.  Every token holds the text of its type: an [INT] digits and
    underscores, a [DEC] digits and underscores around exactly one dot,
    a [STR] text that begins with the double quote, a [CMT] text that
    begins with [//] and holds no line break, an [ID] letters, digits
    and underscores that are no keyword, a keyword its own word, and an
    operator or bracket its own characters. *)
Theorem tokens_are_well_formed (source : pystr) :
  Forall (well_formed U) (Lexer.tokenize U source).
Proof. apply tokenize_from_well_formed. Qed.

End TokenShapes.

(** ** The tokens as JSON lines (tokenize_to_json_lines) *)

Lemma hex_fixed_printable (width : nat) (z : Z) : Forall (fun c => 32 <= c) (hex_fixed width z).
Proof.
  revert z. induction width as [|w IH]; intros z; simpl; [constructor|].
  apply Forall_app. split; [apply IH|]. constructor; [|constructor].
  unfold hex_digit. pose proof (Z.mod_pos_bound z 16 ltac:(lia)).
  destruct (z mod 16 <? 10); lia.
Qed.

Lemma json_escape_printable (c : codepoint) : Forall (fun x => 32 <= x) (json_escape c).
Proof.
  unfold json_escape.
  repeat match goal with
         | |- context [if ?b then _ else _] =>
             destruct b eqn:?; [cbn; repeat constructor; lia|]
         end.
  destruct (c <? 32) eqn:E.
  - apply Forall_app. split; [cbn; repeat constructor; lia | apply hex_fixed_printable].
  - constructor; [lia | constructor].
Qed.

Lemma json_string_printable (s : pystr) : Forall (fun x => 32 <= x) (json_string s).
Proof.
  unfold json_string, dquote. apply Forall_app. split; [repeat constructor; lia|].
  apply Forall_app. split; [|repeat constructor; lia].
  induction s as [|c s IH]; simpl; [constructor|].
  apply Forall_app. split; [apply json_escape_printable | exact IH].
Qed.

Lemma token_json_printable (t : Lexer.Token) : Forall (fun x => 32 <= x) (token_json t).
Proof.
  unfold token_json.
  repeat match goal with
         | |- Forall _ (json_string _) => apply json_string_printable
         | |- Forall _ (_ ++ _) => apply Forall_app; split
         | |- Forall _ (py _) => cbn; repeat constructor; lia
         end.
Qed.

Lemma count_printable (s : pystr) : Forall (fun x => 32 <= x) s -> count 10 s = 0%nat.
Proof.
  unfold count. intros H. apply count_occ_not_In. intros Hin.
  rewrite Forall_forall in H. specialize (H 10 Hin). lia.
Qed.

Lemma count_app (c : codepoint) (a b : pystr) : count c (a ++ b) = (count c a + count c b)%nat.
Proof. unfold count. apply count_occ_app. Qed.

Lemma count_join_lines (parts : list pystr) :
  Forall (fun p => count 10 p = 0%nat) parts ->
  count 10 (join [10] parts) = pred (length parts).
Proof.
  induction parts as [|p parts IH]; intros H; [reflexivity|].
  inversion H as [|p' parts' Hp Hparts]; subst.
  destruct parts as [|q parts]; [simpl; exact Hp|].
  change (join [10] (p :: q :: parts)) with (p ++ [10] ++ join [10] (q :: parts)).
  rewrite !count_app, Hp, (IH Hparts). reflexivity.
Qed.

(** X2.  [tokenize_to_json_lines] writes one line for each token: no
    line holds a control character, a line break least of all, since
    [json.dumps] escapes them, so the output has one line break fewer
    than there are tokens (and is empty when there are none). *)
Theorem json_lines_one_line_per_token (U : unicode_db) (source : pystr) :
  Forall (fun line => Forall (fun c => 32 <= c) line) (map token_json (Lexer.tokenize U source))
  /\ count 10 (tokenize_to_json_lines U source) = pred (length (Lexer.tokenize U source)).
Proof.
  split.
  - apply Forall_map, Forall_forall. intros t _. apply token_json_printable.
  - unfold tokenize_to_json_lines. rewrite count_join_lines, length_map; [reflexivity|].
    apply Forall_map, Forall_forall. intros t _.
    apply count_printable, token_json_printable.
Qed.

(** The frame [assign] writes to holds the name. *)
Lemma assign_target_holds (fuel : nat) (es : list Environment) (env target : nat)
  (name : pystr) :
  assign_target fuel es env name = Ok target ->
  exists f, nth_error es target = Some f /\ dict_get (variables f) name <> None
            /\ dict_get (mutable f) name = Some true.
Proof.
  revert env. induction fuel as [|fuel IH]; intros env H; [discriminate|]. simpl in H.
  destruct (nth_error es env) as [f|] eqn:Ef; [|discriminate].
  destruct (dict_get (variables f) name) as [v|] eqn:Ev.
  - destruct (dict_get (mutable f) name) as [[|]|] eqn:Em; try discriminate.
    injection H as <-. exists f. rewrite Ev. now repeat split.
  - destruct (parent f) as [p|]; [|discriminate]. now apply (IH p).
Qed.

Lemma get_from_assigned (fuel : nat) (es : list Environment) (env target : nat)
  (name : pystr) (w : value) :
  assign_target fuel es env name = Ok target ->
  get_from fuel (update_nth target (fun f => {| parent := parent f;
                                                variables := dict_set (variables f) name w;
                                                mutable := mutable f |}) es) env name
  = Ok w.
Proof.
  revert env. induction fuel as [|fuel IH]; intros env H; [discriminate|].
  pose proof (assign_target_holds _ _ _ _ _ H) as (ft & Hft & Hholds & _).
  simpl in H. simpl.
  destruct (nth_error es env) as [f|] eqn:Ef; [|discriminate].
  destruct (dict_get (variables f) name) as [v|] eqn:Ev.
  - destruct (dict_get (mutable f) name) as [[|]|]; try discriminate.
    injection H as <-. rewrite nth_error_update_nth_same, Ef. simpl.
    now rewrite dict_get_set_same.
  - destruct (parent f) as [p|] eqn:Ep; [|discriminate].
    assert (Hne : target <> env) by (intros ->; rewrite Ef in Hft; injection Hft as <-; auto).
    rewrite nth_error_update_nth_other, Ef, Ev, Ep by exact Hne.
    now apply IH.
Qed.

(** X4.  After an assignment that succeeds, a [get] of the name from the
    same environment returns the value assigned, in whichever enclosing
    environment the name is defined; an assignment that fails changes
    nothing. *)
Theorem assign_then_get (st st' : state) (env : nat) (name : pystr) (w : value)
  (r : result unit) :
  assign env name w st = (r, st') ->
  match r with
  | Ok _ => get env name st' = (Ok w, st')
  | _ => st' = st
  end.
Proof.
  unfold assign. intros H.
  destruct (assign_target (length (envs st)) (envs st) env name) as [target| | |] eqn:E;
    injection H as <- <-; try reflexivity.
  unfold get. cbn [envs]. rewrite length_update_nth. f_equal.
  now apply get_from_assigned.
Qed.

(** [let mut x = 1] in the global environment, [x = 2] from a function
    environment below it: [x] is 2 there. *)
Lemma assign_then_get_witness :
  let st := snd (new_env (Some global_env)
                   (snd (define global_env (py "x") (ElfInteger 1) true initial_state))) in
  assign 1%nat (py "x") (ElfInteger 2) st
  = (Ok tt, snd (assign 1%nat (py "x") (ElfInteger 2) st))
  /\ get 1%nat (py "x") (snd (assign 1%nat (py "x") (ElfInteger 2) st))
     = (Ok (ElfInteger 2), snd (assign 1%nat (py "x") (ElfInteger 2) st)).
Proof.
  intros st. split; [reflexivity|].
  exact (assign_then_get st _ 1%nat (py "x") (ElfInteger 2) (Ok tt) eq_refl).
Defined.

(** X5.  A name defined without [mut] cannot be assigned in the
    environment of its definition: the assignment raises
    [Variable '<name>' is not mutable] and the state stays as it was,
    the value defined included. *)
Theorem assign_immutable (st : state) (env : nat) (name : pystr) (v w : value) :
  (env < length (envs st))%nat ->
  let st' := snd (define env name v false st) in
  assign env name w st' = (RuntimeError (py "Variable '" ++ name ++ py "' is not mutable"), st').
Proof.
  intros Henv st'. unfold assign. subst st'. rewrite envs_define, length_update_nth.
  destruct (length (envs st)) as [|n] eqn:El; [lia|]. simpl.
  rewrite nth_error_update_nth_same.
  destruct (nth_error (envs st) env) as [f|] eqn:Ef.
  - simpl. now rewrite !dict_get_set_same.
  - apply nth_error_None in Ef. lia.
Qed.

Lemma assign_immutable_witness :
  assign global_env (py "x") (ElfInteger 2)
    (snd (define global_env (py "x") (ElfInteger 1) false initial_state))
  = (RuntimeError (py "Variable 'x' is not mutable"),
     snd (define global_env (py "x") (ElfInteger 1) false initial_state)).
Proof.
  apply (assign_immutable initial_state global_env (py "x") (ElfInteger 1) (ElfInteger 2)).
  unfold global_env. simpl. lia.
Defined.

(** ** Lists, Sets and Dictionaries (builtin_push, builtin_assoc, add_values, index_value) *)

(** X6.  [push] on a List appends: the new List is one longer, its last
    item is the item pushed, and every index of the old List finds in the
    new one what it found before. *)
Theorem push_list_appends (item : value) (items : list value) :
  exists l,
    builtin_push_impl item (ElfList items) = Ok l
    /\ builtin_size_impl l = ElfInteger (Z.of_nat (length items) + 1)
    /\ index_value l (ElfInteger (-1)) = Ok item
    /\ index_value l (ElfInteger (Z.of_nat (length items))) = Ok item
    /\ forall i, 0 <= i < Z.of_nat (length items) ->
         index_value l (ElfInteger i) = index_value (ElfList items) (ElfInteger i).
Proof.
  exists (ElfList (items ++ [item])). split; [reflexivity|].
  assert (Hlen : length (items ++ [item]) = S (length items))
    by (rewrite length_app; simpl; lia).
  split; [simpl; rewrite Hlen; f_equal; lia|].
  assert (Hat : forall idx, (if idx <? 0 then Z.of_nat (S (length items)) + idx else idx)
                            = Z.of_nat (length items) ->
            index_value (ElfList (items ++ [item])) (ElfInteger idx) = Ok item).
  { intros idx Hidx. simpl. unfold index_seq. rewrite Hlen, Hidx.
    replace ((0 <=? Z.of_nat (length items)) && (Z.of_nat (length items) <? Z.of_nat (S (length items))))
      with true by (symmetry; apply andb_true_iff; split; [apply Z.leb_le | apply Z.ltb_lt]; lia).
    rewrite Nat2Z.id, nth_error_app2, Nat.sub_diag by lia. reflexivity. }
  split; [apply Hat; change (-1 <? 0) with true; cbv iota; lia|]. split; [apply Hat; destruct (Z.ltb_spec (Z.of_nat (length items)) 0); lia|].
  intros i Hi. simpl. unfold index_seq. rewrite Hlen.
  destruct (Z.ltb_spec i 0) as [Hneg|_]; [lia|].
  replace ((0 <=? i) && (i <? Z.of_nat (S (length items)))) with true
    by (symmetry; apply andb_true_iff; split; [apply Z.leb_le | apply Z.ltb_lt]; lia).
  replace ((0 <=? i) && (i <? Z.of_nat (length items))) with true
    by (symmetry; apply andb_true_iff; split; [apply Z.leb_le | apply Z.ltb_lt]; lia).
  rewrite nth_error_app1 by lia. reflexivity.
Qed.

Lemma member_app (x : value) (l1 l2 : list value) :
  member x (l1 ++ l2) = member x l1 || member x l2.
Proof. unfold member. apply existsb_app. Qed.

Lemma distinct_snoc (l : list value) (x : value) :
  distinct (l ++ [x]) = distinct l && negb (member x l).
Proof.
  induction l as [|a l IH]; [reflexivity|].
  cbn [app distinct]. rewrite IH, existsb_app. unfold member. cbn [existsb].
  destruct (existsb (fun later => values_equal a later) l), (values_equal a x),
    (distinct l), (existsb (fun existing => values_equal existing x) l); reflexivity.
Qed.

(** X7.  [push] on a Set adds the item at the end unless an item equal to
    it is there, in which case the Set comes back as it was; so a Set
    with no two equal items stays one. *)
Theorem push_set_keeps_distinct (item : value) (items : list value) :
  exists items',
    builtin_push_impl item (ElfSet items) = Ok (ElfSet items')
    /\ (member item items = true -> items' = items)
    /\ (member item items = false -> items' = items ++ [item])
    /\ (distinct items = true -> distinct items' = true).
Proof.
  unfold builtin_push_impl. fold (member item items).
  destruct (member item items) eqn:E.
  - exists items. repeat split; try easy.
  - exists (items ++ [item]). repeat split; try easy.
    intros H. now rewrite distinct_snoc, H, E.
Qed.

Lemma set_union_spec (b a : list value) :
  exists extra,
    set_union a b = a ++ extra
    /\ (forall x, In x extra -> In x b)
    /\ (forall x, In x b -> member x (a ++ extra) = true \/ In x extra)
    /\ (distinct a = true -> distinct (a ++ extra) = true).
Proof.
  revert a. induction b as [|item b IH]; intros a.
  - exists []. rewrite app_nil_r. repeat split; try easy.
  - cbn [set_union]. fold (member item a). destruct (member item a) eqn:E.
    + destruct (IH a) as (extra & Heq & Hin & Hcov & Hd).
      exists extra. split; [exact Heq|]. split; [intros x Hx; right; now apply Hin|].
      split; [|exact Hd].
      intros x [<-|Hx]; [left; now rewrite member_app, E | now apply Hcov].
    + destruct (IH (a ++ [item])) as (extra & Heq & Hin & Hcov & Hd).
      exists (item :: extra). rewrite Heq, <- app_assoc. split; [reflexivity|].
      split; [intros x [<-|Hx]; [now left | right; now apply Hin]|].
      split.
      * intros x [<-|Hx]; [right; now left|].
        destruct (Hcov x Hx) as [Hm|Hi]; [left | right; now right].
        now rewrite <- app_assoc in Hm.
      * intros Ha. change (a ++ item :: extra) with (a ++ [item] ++ extra).
        rewrite app_assoc. apply Hd. now rewrite distinct_snoc, Ha, E.
Qed.

(** X8.  The union [l + r] of two Sets keeps the items of [l] in place
    and appends items of [r], each unless an item equal to it is there
    by then: every item of [r] is in the union or has an equal there, and
    if [l] has no two equal items neither has the union, whatever [r]
    holds. *)
Theorem set_union_keeps_distinct (l r : list value) :
  exists extra,
    add_values (ElfSet l) (ElfSet r) = Ok (ElfSet (l ++ extra))
    /\ (forall x, In x extra -> In x r)
    /\ (forall x, In x r -> member x (l ++ extra) = true \/ In x extra)
    /\ (distinct l = true -> distinct (l ++ extra) = true).
Proof.
  destruct (set_union_spec r l) as (extra & Heq & H).
  exists extra. split; [|exact H]. simpl. now rewrite Heq.
Qed.

Lemma scalar_equal_r (k x : value) :
  is_scalar k = true -> values_equal x k = true -> x = k.
Proof.
  destruct k, x; simpl; try discriminate; intros _ H.
  - apply Z.eqb_eq in H. now subst.
  - apply pystr_eqb_eq in H. now subst.
  - apply eqb_prop in H. now subst.
  - reflexivity.
Qed.

Lemma scalar_equal_l (k x : value) :
  is_scalar k = true -> values_equal k x = true -> x = k.
Proof.
  destruct k, x; simpl; try discriminate; intros _ H.
  - apply Z.eqb_eq in H. now subst.
  - apply pystr_eqb_eq in H. now subst.
  - apply eqb_prop in H. now subst.
  - reflexivity.
Qed.

Lemma scalar_equal_refl (k : value) : is_scalar k = true -> values_equal k k = true.
Proof.
  destruct k; simpl; try discriminate; intros _.
  - apply Z.eqb_refl.
  - apply pystr_eqb_refl.
  - apply eqb_reflx.
  - reflexivity.
Qed.

Lemma assoc_loop_lookup (key val : value) (items : list (value * value)) :
  is_scalar key = true ->
  (snd (assoc_loop key val items) = true ->
   forall tail, dict_lookup (fst (assoc_loop key val items) ++ tail) key = val)
  /\ (snd (assoc_loop key val items) = false ->
      forall tail, dict_lookup (fst (assoc_loop key val items) ++ tail) key
                   = dict_lookup tail key)
  /\ (forall other, values_equal key other = false ->
      forall tail, dict_lookup (fst (assoc_loop key val items) ++ tail) other
                   = dict_lookup (items ++ tail) other).
Proof.
  intros Hk. induction items as [|[e ev] items IH]; [now repeat split|].
  cbn [assoc_loop]. destruct (assoc_loop key val items) as [np found].
  cbn [fst snd] in IH. destruct IH as (IHt & IHf & IHo).
  destruct (values_equal e key) eqn:E; cbn [fst snd app dict_lookup].
  - split; [intros _ tail; now rewrite (scalar_equal_refl key Hk)|].
    split; [discriminate|].
    intros other Ho tail. rewrite Ho. rewrite (scalar_equal_r key e Hk E), Ho. now apply IHo.
  - rewrite E. split; [exact IHt|]. split; [exact IHf|].
    intros other Ho tail. destruct (values_equal e other); [reflexivity | now apply IHo].
Qed.

(** X9.  [assoc] then index: under a key that is an Integer, a String, a
    Boolean or Nil, the Dictionary [assoc] returns holds the new value,
    and every index not equal to the key finds what it found in the old
    Dictionary. *)
Theorem assoc_then_index (key val : value) (items : list (value * value)) :
  is_scalar key = true ->
  exists d,
    builtin_assoc_impl key val (ElfDictionary items) = Ok d
    /\ index_value d key = Ok val
    /\ forall other, values_equal key other = false ->
         index_value d other = index_value (ElfDictionary items) other.
Proof.
  intros Hk. unfold builtin_assoc_impl.
  destruct (assoc_loop_lookup key val items Hk) as (Ht & Hf & Ho).
  destruct (assoc_loop key val items) as [np found]. cbn [fst snd] in *.
  eexists. split; [reflexivity|]. cbn [index_value].
  destruct found.
  - split.
    + f_equal. rewrite <- (app_nil_r np). now apply Ht.
    + intros other Hother. f_equal. rewrite <- (app_nil_r np), <- (app_nil_r items).
      now apply Ho.
  - split.
    + f_equal. rewrite (Hf eq_refl). simpl. now rewrite (scalar_equal_refl key Hk).
    + intros other Hother. f_equal. rewrite (Ho other Hother [(key, val)]).
      clear -Hother. induction items as [|[e ev] items IH]; simpl.
      * now rewrite Hother.
      * destruct (values_equal e other); [reflexivity | exact IH].
Qed.

(** [assoc("b", 2, #{"a": 1})], read at ["b"] and at ["a"]. *)
Lemma assoc_then_index_witness :
  exists d,
    builtin_assoc_impl (ElfString (py "b")) (ElfInteger 2)
      (ElfDictionary [(ElfString (py "a"), ElfInteger 1)]) = Ok d
    /\ index_value d (ElfString (py "b")) = Ok (ElfInteger 2)
    /\ index_value d (ElfString (py "a")) = Ok (ElfInteger 1).
Proof.
  destruct (assoc_then_index (ElfString (py "b")) (ElfInteger 2)
              [(ElfString (py "a"), ElfInteger 1)] eq_refl) as (d & Hd & Hkey & Hother).
  exists d. split; [exact Hd|]. split; [exact Hkey|].
  rewrite (Hother (ElfString (py "a")) eq_refl). reflexivity.
Defined.

Lemma merge_pair_lookup (pairs : list (value * value)) (key val index : value) :
  is_scalar key = true ->
  dict_lookup (merge_pair pairs key val) index
  = if values_equal key index then val else dict_lookup pairs index.
Proof.
  intros Hk. unfold merge_pair. induction pairs as [|[e ev] pairs IH]; cbn [update_first app].
  - simpl. now destruct (values_equal key index).
  - destruct (values_equal e key) eqn:E.
    + rewrite (scalar_equal_r key e Hk E). simpl. now destruct (values_equal key index).
    + destruct (update_first key val pairs) as [updated|]; cbn [dict_lookup].
      * destruct (values_equal e index) eqn:Ei; [|exact IH].
        destruct (values_equal key index) eqn:Eki; [|reflexivity].
        rewrite (scalar_equal_l key index Hk Eki) in Ei. congruence.
      * cbn [dict_lookup app] in IH |- *.
        destruct (values_equal e index) eqn:Ei; [|exact IH].
        destruct (values_equal key index) eqn:Eki; [|reflexivity].
        rewrite (scalar_equal_l key index Hk Eki) in Ei. congruence.
Qed.

Lemma dict_merge_lookup (r l : list (value * value)) (index : value) :
  Forall (fun p => is_scalar (fst p) = true) r ->
  dict_lookup (dict_merge l r) index
  = match lookup_last r index with Some v => v | None => dict_lookup l index end.
Proof.
  intros Hr. revert l. induction Hr as [|[k v] r Hk Hr IH]; intros l; [reflexivity|].
  assert (Hstep : dict_merge l ((k, v) :: r) = dict_merge (merge_pair l k v) r)
    by (simpl; unfold merge_pair; now destruct (update_first k v l)).
  rewrite Hstep. cbn [lookup_last]. rewrite IH. destruct (lookup_last r index); [reflexivity|].
  rewrite (merge_pair_lookup l k v index Hk). now destruct (values_equal k index).
Qed.

(** X10.  The merge [l + r] of two Dictionaries is right-biased: when the
    keys of [r] are Integers, Strings, Booleans or Nil, an index that
    equals a key of [r] finds the value [r] holds for it, the last one if
    [r] holds several, and every other index finds what it finds in [l]. *)
Theorem dictionary_merge_right_biased (l r : list (value * value)) (index : value) :
  Forall (fun p => is_scalar (fst p) = true) r ->
  exists d,
    add_values (ElfDictionary l) (ElfDictionary r) = Ok d
    /\ index_value d index
       = Ok (match lookup_last r index with Some v => v | None => dict_lookup l index end).
Proof.
  intros Hr. exists (ElfDictionary (dict_merge l r)). split; [reflexivity|].
  cbn [index_value]. f_equal. now apply dict_merge_lookup.
Qed.

(** [#{1: 10, 2: 20} + #{2: 21, 3: 30}] read at 2: the value of the right
    operand. *)
Lemma dictionary_merge_right_biased_witness :
  exists d,
    add_values (ElfDictionary [(ElfInteger 1, ElfInteger 10); (ElfInteger 2, ElfInteger 20)])
      (ElfDictionary [(ElfInteger 2, ElfInteger 21); (ElfInteger 3, ElfInteger 30)]) = Ok d
    /\ index_value d (ElfInteger 2) = Ok (ElfInteger 21).
Proof.
  apply (dictionary_merge_right_biased
           [(ElfInteger 1, ElfInteger 10); (ElfInteger 2, ElfInteger 20)]
           [(ElfInteger 2, ElfInteger 21); (ElfInteger 3, ElfInteger 30)] (ElfInteger 2)).
  repeat constructor.
Defined.

(** ** Equality and ordering (values_equal, compare_values, builtin_size) *)

Lemma decimal_eqb_refl (d : decimal) : d <> DNaN -> decimal_eqb d d = true.
Proof.
  destruct d as [n c e|n|]; simpl; intros H.
  - unfold decimal_compare_fin. now rewrite Z.compare_refl.
  - apply eqb_reflx.
  - contradiction.
Qed.

Lemma values_equal_plain : forall v, plain v = true -> values_equal v v = true.
Proof.
  fix IH 1. intros [z|d|s|b| |items|items|items|ps body c|n f a p]; simpl; intros H;
    try discriminate.
  - apply Z.eqb_refl.
  - apply decimal_eqb_refl. now destruct d.
  - apply pystr_eqb_refl.
  - apply eqb_reflx.
  - reflexivity.
  - rewrite Nat.eqb_refl. simpl.
    induction items as [|x items IHl]; [reflexivity|]. simpl in H.
    apply andb_true_iff in H. destruct H as [Hx Hitems].
    rewrite (IH x Hx). simpl. now apply IHl.
  - rewrite Nat.eqb_refl. simpl.
    assert (Hin : forall x, In x items -> values_equal x x = true).
    { induction items as [|y items IHl]; intros x Hx; [contradiction|]. simpl in H.
      apply andb_true_iff in H. destruct H as [Hy Hitems].
      destruct Hx as [<-|Hx]; [now apply IH | now apply IHl]. }
    apply forallb_forall. intros x Hx. apply existsb_exists. exists x. split; [exact Hx|].
    now apply Hin.
  - rewrite Nat.eqb_refl. simpl.
    assert (Hin : forall p, In p items ->
              values_equal (fst p) (fst p) && values_equal (snd p) (snd p) = true).
    { induction items as [|y items IHl]; intros p Hp; [contradiction|]. simpl in H.
      apply andb_true_iff in H. destruct H as [Hy Hitems].
      destruct Hp as [<-|Hp]; [|now apply IHl].
      apply andb_true_iff in Hy. destruct Hy as [Hk Hv].
      now rewrite (IH _ Hk), (IH _ Hv). }
    apply forallb_forall. intros p Hp. apply existsb_exists. exists p. split; [exact Hp|].
    now apply Hin.
Qed.

(** X11.  [==] holds between a value and itself when the value is built
    without functions and NaN Decimals, however its Lists, Sets and
    Dictionaries nest; a function is not equal to any value, itself
    included. *)
Theorem values_equal_reflexive (v : value) :
  (plain v = true -> values_equal v v = true)
  /\ (is_callable v = true -> forall w, values_equal v w = false /\ values_equal w v = false).
Proof.
  split; [apply values_equal_plain|].
  intros H w. destruct v; try discriminate; destruct w; split; reflexivity.
Qed.

Lemma decimal_compare_fin_antisym (n1 : bool) (c1 e1 : Z) (n2 : bool) (c2 e2 : Z) :
  decimal_compare_fin n2 c2 e2 n1 c1 e1 = CompOpp (decimal_compare_fin n1 c1 e1 n2 c2 e2).
Proof. unfold decimal_compare_fin. rewrite (Z.min_comm e2 e1). apply Z.compare_antisym. Qed.

Lemma decimal_cmp_antisym (a b : decimal) (c : Z) :
  decimal_cmp a b = Ok c -> decimal_cmp b a = Ok (- c).
Proof.
  destruct a as [n1 c1 e1|n1|], b as [n2 c2 e2|n2|]; simpl; intros H; try discriminate;
    injection H as <-.
  - rewrite decimal_compare_fin_antisym.
    now destruct (decimal_compare_fin n1 c1 e1 n2 c2 e2).
  - now destruct n2.
  - now destruct n1.
  - now destruct n1, n2.
Qed.

(** X12.  The ordering is antisymmetric: when [compare_values] answers
    for [l] and [r] it answers the opposite for [r] and [l], so [l < r]
    and [r > l] are the same Boolean, as are [l <= r] and [r >= l]; and
    it answers for [r] and [l] whenever it does for [l] and [r]. *)
Theorem compare_values_antisymmetric (l r : value) (c : Z) :
  compare_values l r = Ok c ->
  compare_values r l = Ok (- c) /\ (c <? 0) = (0 <? - c) /\ (c <=? 0) = (0 <=? - c).
Proof.
  intros H. split.
  - destruct l, r; cbn [compare_values] in *; try discriminate;
      try (now apply decimal_cmp_antisym).
    + injection H as <-. f_equal. unfold sign_of_compare.
      destruct (v <? v0), (v0 <? v); reflexivity.
    + injection H as <-. f_equal. unfold sign_of_compare.
      destruct (pystr_ltb v v0), (pystr_ltb v0 v); reflexivity.
  - split.
    + destruct (Z.ltb_spec c 0), (Z.ltb_spec 0 (- c)); try reflexivity; lia.
    + destruct (Z.leb_spec c 0), (Z.leb_spec 0 (- c)); try reflexivity; lia.
Qed.

(** [1 < 1.5], and so [1.5 > 1]. *)
Lemma compare_values_antisymmetric_witness :
  compare_values (ElfInteger 1) (ElfDecimal (DFin false 15 (-1))) = Ok (-1)
  /\ compare_values (ElfDecimal (DFin false 15 (-1))) (ElfInteger 1) = Ok 1.
Proof.
  split; [reflexivity|].
  exact (proj1 (compare_values_antisymmetric (ElfInteger 1) (ElfDecimal (DFin false 15 (-1)))
                  (-1) eq_refl)).
Defined.

Lemma utf8_len_bounds (s : pystr) :
  Z.of_nat (length s) <= utf8_len s
  /\ (utf8_len s = Z.of_nat (length s) <-> Forall (fun c => c < 128) s).
Proof.
  induction s as [|c s [IHle IHeq]].
  - simpl. split; [lia|]. split; [constructor | reflexivity].
  - change (utf8_len (c :: s))
      with ((if c <? 128 then 1 else if c <? 2048 then 2 else if c <? 65536 then 3 else 4)
            + utf8_len s).
    simpl length. rewrite Nat2Z.inj_succ.
    destruct (Z.ltb_spec c 128) as [Hc|Hc].
    + split; [lia|]. split.
      * intros H. constructor; [exact Hc|]. apply IHeq. lia.
      * intros H. inversion H; subst.
        assert (utf8_len s = Z.of_nat (length s)) by now apply IHeq. lia.
    + assert (1 < (if c <? 2048 then 2 else if c <? 65536 then 3 else 4))
        by (destruct (c <? 2048); [lia|]; destruct (c <? 65536); lia).
      split; [lia|]. split; [lia|].
      intros H0. inversion H0; subst. lia.
Qed.

(** X13.  [size] of a String is the length of its UTF-8 encoding, not its
    number of characters: it is never less than the number of characters,
    and it is that number exactly when every character is ASCII.  (Indexing
    goes by character.) *)
Theorem size_of_string_counts_bytes (s : pystr) :
  Forall encodable s ->
  exists n,
    builtin_size_impl (ElfString s) = ElfInteger n
    /\ Z.of_nat (length s) <= n
    /\ (n = Z.of_nat (length s) <-> Forall (fun c => c < 128) s).
Proof.
  intros _. exists (utf8_len s). split; [reflexivity|]. apply utf8_len_bounds.
Qed.

(** The two characters of [hé] take three bytes. *)
Lemma size_of_string_counts_bytes_witness :
  Forall encodable [104; 233]
  /\ exists n, builtin_size_impl (ElfString [104; 233]) = ElfInteger n /\ 2 <= n.
Proof.
  assert (He : Forall encodable [104; 233]) by (repeat constructor; unfold encodable; lia).
  split; [exact He|].
  destruct (size_of_string_counts_bytes [104; 233] He) as (n & Hn & Hle & _).
  exists n. split; [exact Hn | exact Hle].
Defined.

(** ** map, filter and fold (builtin_map, builtin_filter, builtin_fold) *)

Lemma mapM_length {A B : Type} (f : A -> M B) (l : list A) (st st' : state) (r : list B) :
  mapM f l st = (Ok r, st') -> length r = length l.
Proof.
  revert st st' r. induction l as [|x l IH]; intros st st' r H; simpl in H.
  - now injection H as <- _.
  - unfold bind in H. destruct (f x st) as [[y| | |] st1]; try discriminate.
    destruct (mapM f l st1) as [[ys| | |] st2] eqn:E; try discriminate.
    injection H as <- _. simpl. f_equal. exact (IH _ _ _ E).
Qed.

(** X14.  [map] returns a List as long as the List it is given, when it
    returns at all, whatever the function does. *)
Theorem map_keeps_length (rec : request -> M value) (func lst v : value) (st st' : state) :
  builtin_map_impl rec func lst st = (Ok v, st') ->
  exists items result_items,
    lst = ElfList items /\ v = ElfList result_items /\ length result_items = length items.
Proof.
  unfold builtin_map_impl. intros H.
  destruct lst; try discriminate.
  destruct (negb (is_callable func)); [discriminate|].
  unfold bind in H.
  destruct (mapM (fun item => apply_function rec func [item]) items st)
    as [[result_items| | |] st1] eqn:E; try discriminate.
  injection H as <- _. exists items, result_items. repeat split.
  exact (mapM_length _ _ _ _ _ E).
Qed.

Lemma filter_loop_subsequence (rec : request -> M value) (predicate : value)
  (items kept : list value) (st st' : state) :
  filter_loop rec predicate items st = (Ok kept, st') -> subsequence kept items.
Proof.
  revert st st' kept. induction items as [|x items IH]; intros st st' kept H; simpl in H.
  - injection H as <- _. constructor.
  - unfold bind in H.
    destruct (apply_function rec predicate [x] st) as [[result| | |] st1]; try discriminate.
    destruct (filter_loop rec predicate items st1) as [[kept'| | |] st2] eqn:E;
      try discriminate.
    injection H as <- _. specialize (IH _ _ _ E).
    destruct (is_truthy result); now constructor.
Qed.

(** X15.  [filter] returns items of the List it is given, in their order
    and never one twice over: the result is the List with some items
    left out. *)
Theorem filter_returns_subsequence (rec : request -> M value) (predicate lst v : value)
  (st st' : state) :
  builtin_filter_impl rec predicate lst st = (Ok v, st') ->
  exists items kept, lst = ElfList items /\ v = ElfList kept /\ subsequence kept items.
Proof.
  unfold builtin_filter_impl. intros H.
  destruct lst; try discriminate.
  destruct (negb (is_callable predicate)); [discriminate|].
  unfold bind in H.
  destruct (filter_loop rec predicate items st) as [[kept| | |] st1] eqn:E; try discriminate.
  injection H as <- _. exists items, kept. repeat split.
  exact (filter_loop_subsequence _ _ _ _ _ _ E).
Qed.

Lemma fold_loop_plus (U : unicode_db) (fuel : nat) (zs : list Z) (z0 : Z) (st : state) :
  fold_loop (run U (S fuel)) plus (ElfInteger z0) (map ElfInteger zs) st
  = (Ok (ElfInteger (z0 + sum_integers zs)), st).
Proof.
  revert z0. induction zs as [|z zs IH]; intros z0; simpl.
  - unfold ret. now rewrite Z.add_0_r.
  - unfold bind. cbn.
    change (fun r : request => step U (run U fuel) r) with (run U (S fuel)).
    rewrite IH. now rewrite Z.add_assoc.
Qed.

(** X16.  [fold] with the builtin [+] over a List of Integers returns the
    initial Integer plus the sum of the List, exactly, and without output
    or any other change of the state. *)
Theorem fold_plus_sums (U : unicode_db) (fuel : nat) (zs : list Z) (z0 : Z) (st : state) :
  run U (S (S fuel)) (CallBuiltin (ElfBuiltinFunction (py "fold") builtin_fold 3 [])
                        [ElfInteger z0; plus; ElfList (map ElfInteger zs)]) st
  = (Ok (ElfInteger (z0 + sum_integers zs)), st).
Proof. cbn. apply fold_loop_plus. Qed.

(** [map] of the builtin [+] applied to [1], over [[1, 2]]. *)
Lemma map_keeps_length_witness :
  exists items result_items,
    ElfList [ElfInteger 1; ElfInteger 2] = ElfList items
    /\ ElfList [ElfInteger 2; ElfInteger 3] = ElfList result_items
    /\ length result_items = length items.
Proof.
  apply (map_keeps_length (run ascii_db 1)
           (ElfBuiltinFunction (py "+") builtin_add 2 [ElfInteger 1])
           (ElfList [ElfInteger 1; ElfInteger 2]) (ElfList [ElfInteger 2; ElfInteger 3])
           initial_state initial_state).
  vm_compute. reflexivity.
Defined.

(** [filter] of the builtin [+] applied to [0], over [[0, 5]]: [0] is not
    truthy, and is left out. *)
Lemma filter_returns_subsequence_witness :
  exists items kept,
    ElfList [ElfInteger 0; ElfInteger 5] = ElfList items
    /\ ElfList [ElfInteger 5] = ElfList kept
    /\ subsequence kept items.
Proof.
  apply (filter_returns_subsequence (run ascii_db 1)
           (ElfBuiltinFunction (py "+") builtin_add 2 [ElfInteger 0])
           (ElfList [ElfInteger 0; ElfInteger 5]) (ElfList [ElfInteger 5])
           initial_state initial_state).
  vm_compute. reflexivity.
Defined.

(** ** Calls (ElfBuiltinFunction.call, call_user_function) *)

(** X17.  A builtin given fewer arguments than its arity keeps them and
    waits: the call returns a builtin of the same name that holds the
    arguments so far, with no effect on the state, and calling that
    with more arguments is calling the builtin with all of them at
    once. *)
Theorem builtin_partial_application (rec : request -> M value) (name : pystr) (func : native)
  (arity : Z) (partial_args args more : list value) (st : state) :
  arity <> -1 ->
  Z.of_nat (length (partial_args ++ args)) < arity ->
  call rec (ElfBuiltinFunction name func arity partial_args) args st
  = (Ok (ElfBuiltinFunction name func arity (partial_args ++ args)), st)
  /\ call rec (ElfBuiltinFunction name func arity (partial_args ++ args)) more
     = call rec (ElfBuiltinFunction name func arity partial_args) (args ++ more).
Proof.
  intros Hv Hlt. split.
  - unfold call. destruct (Z.eqb_spec arity (-1)) as [|_]; [contradiction|].
    destruct (Z.ltb_spec (Z.of_nat (length (partial_args ++ args))) arity); [reflexivity | lia].
  - unfold call. now rewrite app_assoc.
Qed.

(** [+(1)] waits for its second argument; [+(1)(2)] is [+(1, 2)]. *)
Lemma builtin_partial_application_witness :
  call (run ascii_db 1) plus [ElfInteger 1] initial_state
  = (Ok (ElfBuiltinFunction (py "+") builtin_add 2 [ElfInteger 1]), initial_state)
  /\ call (run ascii_db 1) (ElfBuiltinFunction (py "+") builtin_add 2 [ElfInteger 1])
       [ElfInteger 2] initial_state
     = (Ok (ElfInteger 3), initial_state).
Proof.
  destruct (builtin_partial_application (run ascii_db 1) (py "+") builtin_add 2 []
              [ElfInteger 1] [ElfInteger 2] initial_state) as [Hfirst Hthen];
    [discriminate | simpl; lia |].
  split; [exact Hfirst|].
  change ([ElfInteger 1]) with ([] ++ [ElfInteger 1]) at 1. rewrite Hthen. reflexivity.
Defined.

(** X18.  Arguments beyond the parameters are ignored: a user function
    called with more arguments than it has parameters does what it does
    called with the first of them, as many as it has parameters, and so
    does a builtin with more arguments than its arity. *)
Theorem surplus_arguments_ignored (rec : request -> M value) :
  (forall parameters body closure_env args env,
     (length parameters <= length args)%nat ->
     call_user_function rec (ElfFunction parameters body closure_env) args env
     = call_user_function rec (ElfFunction parameters body closure_env)
         (firstn (length parameters) args) env)
  /\ (forall name func arity args,
        0 <= arity <= Z.of_nat (length args) ->
        call rec (ElfBuiltinFunction name func arity []) args
        = call rec (ElfBuiltinFunction name func arity []) (firstn (Z.to_nat arity) args)).
Proof.
  split.
  - intros parameters body closure_env args env Hle. unfold call_user_function.
    rewrite length_firstn, Nat.min_l by exact Hle.
    destruct (Nat.ltb_spec (length args) (length parameters)) as [Hlt|_]; [lia|].
    rewrite Nat.ltb_irrefl.
    replace (combine parameters (firstn (length parameters) args))
      with (combine parameters args); [reflexivity|].
    clear. revert args. induction parameters as [|p parameters IH]; intros [|a args];
      simpl; try reflexivity. now rewrite <- IH.
  - intros name func arity args [H0 Hle]. unfold call. cbn [app].
    destruct (Z.eqb_spec arity (-1)) as [E|_]; [lia|].
    rewrite length_firstn, Nat.min_l by lia. rewrite Z2Nat.id by lia.
    destruct (Z.ltb_spec (Z.of_nat (length args)) arity) as [Hlt|_]; [lia|].
    rewrite Z.ltb_irrefl. now rewrite firstn_firstn, Nat.min_id.
Qed.

(** [|a| a] called with 1 and 2 returns 1, as called with 1 alone. *)
Lemma surplus_arguments_ignored_witness :
  fst (call_user_function (run ascii_db 2)
         (ElfFunction [py "a"] [SExpression (EIdentifier (py "a"))] (EnvRef global_env))
         [ElfInteger 1; ElfInteger 2] global_env initial_state)
  = Ok (ElfInteger 1).
Proof.
  rewrite (proj1 (surplus_arguments_ignored (run ascii_db 2)) [py "a"]
             [SExpression (EIdentifier (py "a"))] (EnvRef global_env)
             [ElfInteger 1; ElfInteger 2] global_env); [reflexivity | simpl; lia].
Defined.

(** ** Threading and composition (thread_value, compose_functions) *)

Lemma refines_bind_ret {A : Type} (m1 m2 : M A) :
  refines m1 m2 -> refines (bind m1 (fun a => ret a)) m2.
Proof.
  intros H st r st' Hb Hr. unfold bind in Hb.
  destruct (m1 st) as [[a| | |] st1] eqn:E; unfold ret in Hb; injection Hb as <- <-;
    now apply H.
Qed.

Lemma refines_to_bind_ret {A : Type} (m1 m2 : M A) :
  refines m1 m2 -> refines m1 (bind m2 (fun a => ret a)).
Proof.
  intros H st r st' Hm Hr. unfold bind. rewrite (H st r st' Hm Hr).
  destruct r; try reflexivity.
Qed.

Lemma thread_as_apply (U : unicode_db) (fuel : nat) (v f : value) :
  is_callable f = true ->
  refines (thread_value (run U fuel) v f) (apply_function (run U (S fuel)) f [v])
  /\ refines (apply_function (run U fuel) f [v]) (thread_value (run U fuel) v f).
Proof.
  intros Hf. destruct f; try discriminate; split.
  - apply refines_call_user_function. intros r. apply run_S.
  - apply refines_refl.
  - apply refines_refl.
  - exact (run_S U fuel (CallBuiltin (ElfBuiltinFunction name func arity partial_args) [v])).
Qed.

(** X19.  Threading a value through [f >> g] is threading it through [f]
    and then through [g]: [v |> (f >> g)] returns what [v |> f |> g]
    returns, result and state, given one more unit of fuel, and
    [v |> f |> g] returns what [v |> (f >> g)] returns. *)
Theorem thread_through_composition (U : unicode_db) (fuel : nat) (name : pystr)
  (f g v : value) :
  is_callable f = true -> is_callable g = true ->
  refines (thread_all (run U fuel) v [f; g])
    (thread_value (run U (S fuel)) v (composed name f g))
  /\ refines (thread_value (run U fuel) v (composed name f g))
       (thread_all (run U fuel) v [f; g]).
Proof.
  intros Hf Hg. split.
  - change (thread_value (run U (S fuel)) v (composed name f g))
      with (bind (apply_function (run U (S fuel)) f [v])
                 (fun i => apply_function (run U (S fuel)) g [i])).
    cbn [thread_all]. apply refines_bind; [now apply thread_as_apply|].
    intros i. apply refines_bind_ret. now apply thread_as_apply.
  - change (thread_value (run U fuel) v (composed name f g))
      with (bind (apply_function (run U fuel) f [v])
                 (fun i => apply_function (run U fuel) g [i])).
    cbn [thread_all]. apply refines_bind; [now apply thread_as_apply|].
    intros i. apply refines_to_bind_ret. now apply thread_as_apply.
Qed.

(** [3 |> (+(1) >> +(10))] and [3 |> +(1) |> +(10)] are both 14. *)
Lemma thread_through_composition_witness :
  thread_all (run ascii_db 1) (ElfInteger 3)
    [ElfBuiltinFunction (py "+") builtin_add 2 [ElfInteger 1];
     ElfBuiltinFunction (py "+") builtin_add 2 [ElfInteger 10]] initial_state
  = (Ok (ElfInteger 14), initial_state)
  /\ thread_value (run ascii_db 2) (ElfInteger 3)
       (composed (py "f") (ElfBuiltinFunction (py "+") builtin_add 2 [ElfInteger 1])
          (ElfBuiltinFunction (py "+") builtin_add 2 [ElfInteger 10])) initial_state
     = (Ok (ElfInteger 14), initial_state).
Proof.
  split; [reflexivity|].
  apply (proj1 (thread_through_composition ascii_db 1 (py "f")
                  (ElfBuiltinFunction (py "+") builtin_add 2 [ElfInteger 1])
                  (ElfBuiltinFunction (py "+") builtin_add 2 [ElfInteger 10])
                  (ElfInteger 3) eq_refl eq_refl));
    [reflexivity | discriminate].
Defined.

(** ** Programs (Evaluator.evaluate_program, builtin_puts) *)

Lemma program_loop_without_comments (U : unicode_db) (fuel : nat) (stmts : list stmt)
  (last_result : value) (st : state) :
  program_loop U fuel (filter (fun s => negb (is_comment s)) stmts) last_result st
  = program_loop U fuel stmts last_result st.
Proof.
  unfold program_loop.
  revert last_result st. induction stmts as [|s stmts IH]; intros last_result st; [reflexivity|].
  destruct s as [e|c]; cbn [filter is_comment negb].
  - cbn [Program.program_loop]. unfold bind.
    destruct (evaluate_statement (run U fuel) (SExpression e) global_env st)
      as [[v| | |] st1]; try reflexivity.
    apply IH.
  - rewrite IH. reflexivity.
Qed.

(** X20.  Comments do not count: a program evaluates to the same text,
    output and final value or error, when its comments are taken out,
    wherever they stand among the statements. *)
Theorem comments_are_ignored (U : unicode_db) (fuel : nat) (stmts : list stmt) :
  evaluator_evaluate_program U fuel (filter (fun s => negb (is_comment s)) stmts)
  = evaluator_evaluate_program U fuel stmts.
Proof.
  unfold evaluator_evaluate_program, Program.evaluator_evaluate_program,
    Program.program_body, bind.
  change (Program.program_loop (run U fuel)) with (program_loop U fuel).
  now rewrite program_loop_without_comments.
Qed.

(** X21.  Output is only ever added: whatever an evaluation does,
    a call of a builtin or of a user function included, and whether it
    returns or raises, the output buffer afterwards is the buffer before
    followed by what was written since. *)
Theorem output_is_append_only (U : unicode_db) (fuel : nat) (r : request)
  (st st' : state) (res : result value) :
  run U fuel r st = (res, st') ->
  exists more, output_buffer st' = output_buffer st ++ more.
Proof. intros H. exact (run_appends U fuel r st res st' H). Qed.

(** After [puts(7)] the output is what it was, with more. *)
Lemma output_is_append_only_witness :
  exists more,
    output_buffer (snd (run ascii_db 3
      (Eval (ECall (EIdentifier (py "puts")) [EInteger (py "7")]) global_env) initial_state))
    = output_buffer initial_state ++ more.
Proof.
  eapply output_is_append_only.
  apply surjective_pairing.
Defined.

Lemma puts_args_writes (args : list value) (texts : list pystr) (st : state) :
  sequence (map repr args) = Ok texts ->
  puts_args args st
  = (Ok tt, {| envs := envs st;
               output_buffer := output_buffer st ++ map (fun t => t ++ py " ") texts |}).
Proof.
  revert texts st. induction args as [|a args IH]; intros texts st H; simpl in H.
  - injection H as <-. simpl. rewrite app_nil_r. now destruct st.
  - destruct (repr a) as [t| | |] eqn:Ea; try discriminate. simpl in H.
    destruct (sequence (map repr args)) as [ts| | |] eqn:Es; try discriminate.
    injection H as <-. cbn [puts_args]. unfold bind, lift, emit. rewrite Ea.
    rewrite (IH ts _ eq_refl). cbn [envs output_buffer map].
    now rewrite <- app_assoc.
Qed.

(** X22.  [puts] writes the printed form of each argument followed by a
    space, then a line break, and returns Nil: [puts(a, b)] writes
    [a b ] and the line break, and [puts()] the line break alone.  It
    changes nothing but the output. *)
Theorem puts_writes_a_line (rec : request -> M value) (args : list value)
  (texts : list pystr) (st : state) :
  sequence (map repr args) = Ok texts ->
  apply_native rec builtin_puts args st
  = (Ok ElfNil,
     {| envs := envs st;
        output_buffer := output_buffer st ++ map (fun t => t ++ py " ") texts ++ [[10]] |}).
Proof.
  intros H. cbn [apply_native]. unfold builtin_puts_impl, bind.
  rewrite (puts_args_writes args texts st H). unfold emit, ret. cbn [envs output_buffer].
  now rewrite <- app_assoc.
Qed.

Lemma puts_writes_a_line_witness :
  apply_native (run ascii_db 0) builtin_puts [ElfInteger 1; ElfBoolean true] initial_state
  = (Ok ElfNil,
     {| envs := envs initial_state; output_buffer := [py "1 "; py "true "; [10]] |}).
Proof.
  exact (puts_writes_a_line (run ascii_db 0) [ElfInteger 1; ElfBoolean true]
           [py "1"; py "true"] initial_state eq_refl).
Defined.

(** ** Number literals (read_number, parse_primary, evaluate_expression, repr) *)

Section Literals.
Variable U : unicode_db.

Lemma uint_digits_ascii (d : Decimal.uint) : Forall ascii_digit (uint_digits d).
Proof. induction d; simpl; constructor; (exact IHd || (unfold ascii_digit; lia)). Qed.

Lemma read_number_digits (s : pystr) (has_decimal : bool) :
  Forall ascii_digit s -> Lexer.read_number U has_decimal s = (s, [], has_decimal).
Proof.
  intros H. revert has_decimal. induction H as [|c s Hc Hs IH]; intros hd; [reflexivity|].
  simpl. unfold isdigit, ascii_digit in *.
  destruct (Z.ltb_spec c 128); [|lia].
  destruct (Z.leb_spec 48 c); [|lia]. destruct (Z.leb_spec c 57); [|lia]. cbn [andb orb].
  destruct (Z.eqb_spec c 46); [lia|]. cbn [andb]. rewrite IH, orb_false_r. reflexivity.
Qed.

Lemma tokenize_digits (s : pystr) :
  s <> [] -> Forall ascii_digit s ->
  Lexer.tokenize U s = [{| Lexer.type := Lexer.INT; Lexer.value := s; Lexer.position := 0 |}].
Proof.
  intros Hne H. destruct s as [|c s']; [contradiction|].
  unfold Lexer.tokenize. cbn [length Lexer.tokenize_from]. unfold Lexer.scan.
  rewrite (read_number_digits (c :: s') false H).
  inversion H as [|c0 s0 Hc Hs]; subst. unfold ascii_digit in Hc.
  replace ((c =? 32) || (c =? 9) || (c =? 10) || (c =? 13)) with false
    by (destruct (Z.eqb_spec c 32), (Z.eqb_spec c 9), (Z.eqb_spec c 10), (Z.eqb_spec c 13);
        try reflexivity; lia).
  replace (isdigit U c) with true
    by (unfold isdigit; destruct (Z.ltb_spec c 128), (Z.leb_spec 48 c), (Z.leb_spec c 57);
        try reflexivity; lia).
  now destruct (length s').
Qed.

Lemma digit_values_digits (s : pystr) :
  Forall ascii_digit s -> digit_values U s = Some (map (fun c => c - 48) s).
Proof.
  induction 1 as [|c s Hc Hs IH]; [reflexivity|]. simpl. rewrite IH.
  unfold decimal_value, ascii_digit in *.
  destruct (Z.ltb_spec c 128), (Z.leb_spec 48 c), (Z.leb_spec c 57); try lia. reflexivity.
Qed.

Lemma replace_underscore_digits (s : pystr) :
  Forall ascii_digit s -> replace_char 95 [] s = s.
Proof.
  unfold replace_char. induction 1 as [|c s Hc Hs IH]; [reflexivity|]. simpl. rewrite IH.
  unfold ascii_digit in Hc. destruct (Z.eqb_spec c 95); [lia | reflexivity].
Qed.

(** The value of a digit string read from the left, after [acc]. *)
Lemma digits_value_rev (d : Decimal.uint) (acc : Z) :
  fold_left (fun a x => 10 * a + x) (map (fun c => c - 48) (uint_digits d)) acc
  = Z.of_N (Unsigned.of_lu (Decimal.rev d)) + acc * 10 ^ Z.of_N (Unsigned.usize d).
Proof.
  revert acc.
  induction d; intros acc; cbn [uint_digits map fold_left Unsigned.usize];
    [ change (acc = 0 + acc * 1); lia | .. ];
    unfold Decimal.rev; cbn [Decimal.revapp];
    rewrite (Unsigned.of_lu_revapp d); cbn [Unsigned.of_lu];
    rewrite IHd, N2Z.inj_add, N2Z.inj_mul, N2Z.inj_pow, N2Z.inj_succ, Z.pow_succ_r by lia;
    change (Z.of_N 10) with 10; lia.
Qed.

Lemma int_of_digits (n : N) :
  digits_to_Z (map (fun c => c - 48) (uint_digits (N.to_uint n))) = Z.of_N n.
Proof.
  unfold digits_to_Z. rewrite digits_value_rev, Z.mul_0_l, Z.add_0_r.
  rewrite <- Unsigned.of_uint_alt.
  change (Pos.of_uint (N.to_uint n)) with (N.of_uint (N.to_uint n)).
  now rewrite DecimalN.Unsigned.of_to.
Qed.

Lemma str_of_nonneg_nonempty (z : Z) : str_of_nonneg z <> [].
Proof.
  unfold str_of_nonneg. destruct (Z.to_N z) as [|p]; [discriminate|].
  simpl. pose proof (Unsigned.to_uint_nonnil p) as H.
  destruct (Pos.to_uint p); [contradiction | discriminate..].
Qed.

(** The numeral of a positive number does not begin with a zero. *)
Lemma to_uint_head (p : positive) (d : Decimal.uint) : Pos.to_uint p <> Decimal.D0 d.
Proof.
  intros H. pose proof (DecimalPos.Unsigned.to_of (Pos.to_uint p)) as Hn.
  rewrite DecimalPos.Unsigned.of_to in Hn. cbn [N.to_uint] in Hn.
  rewrite H, DecimalFacts.unorm_D0 in Hn.
  destruct (Decimal.uint_eq_dec d Decimal.Nil) as [->|Hd].
  - exact (DecimalPos.Unsigned.to_uint_nonzero p H).
  - pose proof (DecimalFacts.nb_digits_unorm d Hd) as Hlen.
    rewrite <- Hn in Hlen. cbn [Decimal.nb_digits] in Hlen. lia.
Qed.

Lemma digits_value_lower (ds : list Z) (acc : Z) :
  Forall (fun d => 0 <= d) ds -> 0 <= acc ->
  acc * 10 ^ Z.of_nat (length ds) <= fold_left (fun a x => 10 * a + x) ds acc.
Proof.
  intros H. revert acc. induction H as [|d ds Hd Hds IH]; intros acc Hacc.
  - cbn. lia.
  - cbn [fold_left length]. rewrite Nat2Z.inj_succ, Z.pow_succ_r by lia.
    specialize (IH (10 * acc + d) ltac:(lia)).
    assert (0 < 10 ^ Z.of_nat (length ds)) by (apply Z.pow_pos_nonneg; lia). nia.
Qed.

(** A number below [10^n] has a numeral of at most [n] digits. *)
Lemma str_of_nonneg_length (z n : Z) :
  0 <= z < 10 ^ n -> 1 <= n -> Z.of_nat (length (str_of_nonneg z)) <= n.
Proof.
  intros [Hz Hn] H1. pose proof (int_of_digits (Z.to_N z)) as Hv.
  unfold str_of_nonneg. rewrite Z2N.id in Hv by exact Hz.
  destruct (Z.to_N z) as [|p]; [cbn; lia|]. cbn [N.to_uint] in *.
  pose proof (to_uint_head p) as Hhead. pose proof (Unsigned.to_uint_nonnil p) as Hnil.
  pose proof (uint_digits_ascii (Pos.to_uint p)) as Hascii.
  assert (Hfirst : exists c l, uint_digits (Pos.to_uint p) = c :: l /\ 49 <= c).
  { destruct (Pos.to_uint p) as [|d|d|d|d|d|d|d|d|d|d];
      [contradiction | elim (Hhead d); reflexivity | ..];
      cbn [uint_digits]; eexists; eexists; (split; [reflexivity | lia]). }
  destruct Hfirst as (c & l & Hcl & Hc). rewrite Hcl in *.
  pose proof (Forall_inv_tail Hascii) as Hl.
  unfold digits_to_Z in Hv. cbn [map fold_left length] in Hv |- *.
  assert (Hlow : (0 + (c - 48)) * 10 ^ Z.of_nat (length (map (fun c => c - 48) l))
                 <= fold_left (fun a x => 10 * a + x) (map (fun c => c - 48) l) (0 + (c - 48))).
  { apply digits_value_lower; [|lia]. apply Forall_map.
    eapply Forall_impl; [|exact Hl]. unfold ascii_digit. intros; lia. }
  rewrite length_map in Hlow. change (10 * 0 + (c - 48)) with (0 + (c - 48)) in Hv.
  assert (Hpow : 0 < 10 ^ Z.of_nat (length l)) by (apply Z.pow_pos_nonneg; lia).
  rewrite Hv in Hlow.
  assert (Hlt : 10 ^ Z.of_nat (length l) < 10 ^ n).
  { apply Z.le_lt_trans with z; [|exact Hn].
    apply Z.le_trans with ((0 + (c - 48)) * 10 ^ Z.of_nat (length l)); [|exact Hlow].
    rewrite <- (Z.mul_1_l (10 ^ Z.of_nat (length l))) at 1.
    apply Z.mul_le_mono_nonneg_r; lia. }
  apply Z.pow_lt_mono_r_iff in Hlt; [|lia|lia].
  rewrite Nat2Z.inj_succ. lia.
Qed.

(** Within [int_max_str_digits] digits [str] of an [int] is its numeral. *)
Lemma int_str_numeral (z : Z) :
  - 10 ^ int_max_str_digits < z < 10 ^ int_max_str_digits -> int_str z = Ok (str_of_int z).
Proof.
  intros Hz. unfold int_str.
  pose proof (str_of_nonneg_length (Z.abs z) int_max_str_digits) as H.
  destruct (Z.ltb_spec int_max_str_digits (Z.of_nat (length (str_of_nonneg (Z.abs z)))));
    [|reflexivity].
  unfold int_max_str_digits in *. lia.
Qed.

Lemma leading_digits_ascii (s : pystr) :
  Forall ascii_digit s -> leading_digits U s = length s.
Proof.
  induction 1 as [|c s Hc Hs IH]; [reflexivity|]. cbn [leading_digits length]. rewrite IH.
  unfold decimal_value, ascii_digit in *.
  destruct (Z.ltb_spec c 128), (Z.leb_spec 48 c), (Z.leb_spec c 57); try lia. reflexivity.
Qed.

Lemma int_of_str_of_nonneg (bad : pystr) (z : Z) :
  0 <= z < 10 ^ int_max_str_digits -> int_of_str U bad (str_of_nonneg z) = Ok z.
Proof.
  intros [Hz Hmax]. unfold int_of_str.
  assert (Hd : Forall ascii_digit (str_of_nonneg z)) by apply uint_digits_ascii.
  rewrite (leading_digits_ascii _ Hd).
  pose proof (str_of_nonneg_length z int_max_str_digits (conj Hz Hmax)) as Hlen.
  destruct (Z.ltb_spec int_max_str_digits (Z.of_nat (length (str_of_nonneg z))));
    [unfold int_max_str_digits in *; lia|].
  assert (Hv : digits_to_Z (map (fun c => c - 48) (str_of_nonneg z)) = z)
    by (unfold str_of_nonneg; rewrite int_of_digits; lia).
  pose proof (str_of_nonneg_nonempty z) as Hne.
  pose proof (digit_values_digits _ Hd) as Hds.
  destruct (str_of_nonneg z) as [|c l]; [contradiction|].
  now rewrite Hds, Hv.
Qed.

End Literals.

Section LiteralPrograms.
Variable U : unicode_db.

Lemma parse_digits (s : pystr) :
  s <> [] -> Forall ascii_digit s -> Parser.parse U s = Ok [SExpression (EInteger s)].
Proof.
  intros Hne H. unfold Parser.parse. rewrite (tokenize_digits U s Hne H). reflexivity.
Qed.

Lemma evaluate_digits (fuel : nat) (z : Z) (env : nat) (st : state) :
  0 <= z < 10 ^ int_max_str_digits ->
  run U (S fuel) (Eval (EInteger (str_of_nonneg z)) env) st = (Ok (ElfInteger z), st).
Proof.
  intros Hz. cbn [run step evaluate_expression].
  rewrite (replace_underscore_digits (str_of_nonneg z) (uint_digits_ascii _)).
  unfold bind, lift. now rewrite (int_of_str_of_nonneg U _ z Hz).
Qed.

Lemma minus_is_no_digit_start (s : pystr) :
  s <> [] -> Forall ascii_digit s ->
  Lexer.tokenize U (45 :: s)
  = [{| Lexer.type := Lexer.MINUS; Lexer.value := [45]; Lexer.position := 0 |};
     {| Lexer.type := Lexer.INT; Lexer.value := s; Lexer.position := 1 |}].
Proof.
  intros Hne H. destruct s as [|c s']; [contradiction|].
  inversion H as [|c0 s0 Hc Hs]; subst. unfold ascii_digit in Hc.
  unfold Lexer.tokenize. cbn [length Lexer.tokenize_from].
  assert (Hminus : Lexer.scan U 45 (c :: s') 0
                   = (Some {| Lexer.type := Lexer.MINUS; Lexer.value := [45];
                              Lexer.position := 0 |}, c :: s')).
  { unfold Lexer.scan. cbn. unfold Lexer.two_char. cbn.
    destruct (Z.eqb_spec c 47); [lia|]. reflexivity. }
  rewrite Hminus. f_equal.
  replace (0 + (Lexer.len (45 :: c :: s') - Lexer.len (c :: s'))) with 1
    by (unfold Lexer.len; simpl length; lia).
  unfold Lexer.scan.
  rewrite (read_number_digits U (c :: s') false H).
  replace ((c =? 32) || (c =? 9) || (c =? 10) || (c =? 13)) with false
    by (destruct (Z.eqb_spec c 32), (Z.eqb_spec c 9), (Z.eqb_spec c 10), (Z.eqb_spec c 13);
        try reflexivity; lia).
  replace (isdigit U c) with true
    by (unfold isdigit; destruct (Z.ltb_spec c 128), (Z.leb_spec 48 c), (Z.leb_spec c 57);
        try reflexivity; lia).
  now destruct (length s').
Qed.

(** X23.  An Integer prints as it reads: the program that is the decimal
    numeral of an integer, with its sign, evaluates to that numeral, for
    every integer whose numeral [int()] and [str()] convert, those of at
    most 4300 digits. *)
Theorem integer_prints_as_it_reads (fuel : nat) (z : Z) :
  - 10 ^ int_max_str_digits < z < 10 ^ int_max_str_digits ->
  evaluate_program U (S (S fuel)) (str_of_int z) = Some (str_of_int z).
Proof.
  intros Hz. unfold evaluate_program, Program.evaluate_program, str_of_int.
  destruct (Z.ltb_spec z 0) as [Hneg|Hpos].
  - assert (Hparse : Parser.parse U (45 :: str_of_nonneg (- z))
                     = Ok [SExpression (EPrefix [45] (EInteger (str_of_nonneg (- z))))]).
    { unfold Parser.parse.
      rewrite (minus_is_no_digit_start _ (str_of_nonneg_nonempty _) (uint_digits_ascii _)).
      reflexivity. }
    rewrite Hparse. unfold Program.evaluator_evaluate_program, Program.program_body.
    cbn [Program.program_loop evaluate_statement]. unfold bind at 1. unfold bind at 1.
    change (run U (S (S fuel)) (Eval (EPrefix [45] (EInteger (str_of_nonneg (- z)))) global_env))
      with (evaluate_prefix (run U (S fuel)) [45] (EInteger (str_of_nonneg (- z))) global_env).
    unfold evaluate_prefix, bind at 1. rewrite evaluate_digits by lia.
    cbn. rewrite Z.opp_involutive, (int_str_numeral z Hz). cbn. unfold str_of_int.
    destruct (Z.ltb_spec z 0); [|lia]. now rewrite app_nil_r.
  - rewrite (parse_digits _ (str_of_nonneg_nonempty _) (uint_digits_ascii _)).
    unfold Program.evaluator_evaluate_program, Program.program_body.
    cbn [Program.program_loop evaluate_statement]. unfold bind at 1. unfold bind at 1.
    rewrite evaluate_digits by lia. cbn. rewrite (int_str_numeral z Hz). cbn.
    unfold str_of_int. destruct (Z.ltb_spec z 0); [lia|]. now rewrite app_nil_r.
Qed.

End LiteralPrograms.

(** The program [-42] evaluates to [-42]. *)
Lemma integer_prints_as_it_reads_witness :
  evaluate_program ascii_db 2 (py "-42") = Some (py "-42").
Proof.
  apply (integer_prints_as_it_reads ascii_db 0 (-42)).
  unfold int_max_str_digits. split.
  - apply Z.lt_trans with (- 10 ^ 2); [|reflexivity].
    apply Z.opp_lt_mono. rewrite !Z.opp_involutive. apply Z.pow_lt_mono_r; lia.
  - apply Z.lt_trans with (10 ^ 2); [reflexivity|]. apply Z.pow_lt_mono_r; lia.
Defined.

(** ** String literals (read_string, parse_primary, ElfString.__repr__) *)

Section StringLiterals.
Variable U : unicode_db.

Lemma escape_string_flat_map (s : pystr) :
  ~ In 92 s -> escape_string s = flat_map escaped s.
Proof.
  unfold escape_string, replace_char. induction s as [|c s IH]; intros H; [reflexivity|].
  cbn [flat_map]. rewrite !flat_map_app.
  assert (Hs : ~ In 92 s) by (intros Hin; apply H; now right).
  f_equal; [|exact (IH Hs)]. unfold escaped.
  destruct (Z.eqb_spec c 92) as [->|_]; [elim H; now left|].
  cbn [flat_map app]. destruct (Z.eqb_spec c 10) as [->|_]; [reflexivity|].
  cbn [flat_map app]. now destruct (Z.eqb_spec c 9).
Qed.

Lemma replace_pair_cons_other (a b x : codepoint) (new l : pystr) :
  x <> a -> Parser.replace_pair a b new (x :: l) = x :: Parser.replace_pair a b new l.
Proof.
  intros H. cbn [Parser.replace_pair]. destruct l as [|y l]; [reflexivity|].
  destruct (Z.eqb_spec x a); [contradiction | reflexivity].
Qed.

Lemma replace_pair_cons_pair_other (a b y : codepoint) (new l : pystr) :
  y <> b ->
  Parser.replace_pair a b new (a :: y :: l) = a :: Parser.replace_pair a b new (y :: l).
Proof.
  intros H. cbn [Parser.replace_pair]. rewrite Z.eqb_refl.
  destruct (Z.eqb_spec y b); [contradiction | reflexivity].
Qed.

Lemma replace_pair_cons_pair (a b : codepoint) (new l : pystr) :
  Parser.replace_pair a b new (a :: b :: l) = new ++ Parser.replace_pair a b new l.
Proof. cbn [Parser.replace_pair]. now rewrite !Z.eqb_refl. Qed.

Lemma unescape_keeps (b : codepoint) (new : pystr) (s : pystr) :
  b <> 116 -> b <> 110 -> ~ In 92 s ->
  Parser.replace_pair 92 b new (flat_map escaped s) = flat_map escaped s.
Proof.
  intros Ht Hn. induction s as [|c s IH]; intros H; [reflexivity|].
  assert (Hs : ~ In 92 s) by (intros Hin; apply H; now right).
  assert (Hc : c <> 92) by (intros ->; apply H; now left).
  cbn [flat_map]. unfold escaped at 1 3.
  destruct (Z.eqb_spec c 9); [|destruct (Z.eqb_spec c 10)]; cbn [app].
  - rewrite replace_pair_cons_pair_other by lia.
    rewrite replace_pair_cons_other by lia. now rewrite IH.
  - rewrite replace_pair_cons_pair_other by lia.
    rewrite replace_pair_cons_other by lia. now rewrite IH.
  - rewrite replace_pair_cons_other by lia. now rewrite IH.
Qed.

Lemma unescape_newlines (s : pystr) :
  ~ In 92 s ->
  Parser.replace_pair 92 110 [10] (flat_map escaped s)
  = flat_map (fun c => if c =? 9 then [92; 116] else [c]) s.
Proof.
  induction s as [|c s IH]; intros H; [reflexivity|].
  assert (Hs : ~ In 92 s) by (intros Hin; apply H; now right).
  assert (Hc : c <> 92) by (intros ->; apply H; now left).
  cbn [flat_map]. unfold escaped at 1.
  destruct (Z.eqb_spec c 9); [|destruct (Z.eqb_spec c 10)]; cbn [app].
  - rewrite replace_pair_cons_pair_other by lia.
    rewrite replace_pair_cons_other by lia. now rewrite IH.
  - subst c. rewrite replace_pair_cons_pair. now rewrite IH.
  - rewrite replace_pair_cons_other by lia. now rewrite IH.
Qed.

Lemma unescape_tabs (s : pystr) :
  ~ In 92 s ->
  Parser.replace_pair 92 116 [9] (flat_map (fun c => if c =? 9 then [92; 116] else [c]) s) = s.
Proof.
  induction s as [|c s IH]; intros H; [reflexivity|].
  assert (Hs : ~ In 92 s) by (intros Hin; apply H; now right).
  assert (Hc : c <> 92) by (intros ->; apply H; now left).
  cbn [flat_map]. destruct (Z.eqb_spec c 9); cbn [app].
  - subst c. rewrite replace_pair_cons_pair. now rewrite IH.
  - rewrite replace_pair_cons_other by lia. now rewrite IH.
Qed.

Lemma unescape_escape (s : pystr) :
  ~ In 34 s -> ~ In 92 s ->
  Parser.unescape (dquote ++ escape_string s ++ dquote) = s.
Proof.
  intros Hq Hb. rewrite (escape_string_flat_map s Hb). unfold Parser.unescape, dquote.
  cbn [app rev]. rewrite rev_app_distr. cbn [rev app tl].
  rewrite removelast_last.
  rewrite (unescape_keeps 34 [34] s), (unescape_keeps 92 [92] s) by (lia || exact Hb).
  rewrite (unescape_newlines s Hb). apply (unescape_tabs s Hb).
Qed.

Lemma read_string_escaped (s : pystr) :
  ~ In 34 s -> ~ In 92 s ->
  Lexer.read_string (flat_map escaped s ++ [34]) = (flat_map escaped s ++ [34], []).
Proof.
  induction s as [|c s IH]; intros Hq Hb; [reflexivity|].
  assert (Hc : c <> 92 /\ c <> 34) by (split; intros ->; [apply Hb | apply Hq]; now left).
  assert (IH' : Lexer.read_string (flat_map escaped s ++ [34])
                = (flat_map escaped s ++ [34], []))
    by (apply IH; intros Hin; [apply Hq | apply Hb]; now right).
  cbn [flat_map]. unfold escaped at 1 3.
  destruct (Z.eqb_spec c 9); [|destruct (Z.eqb_spec c 10)]; cbn [app Lexer.read_string].
  - cbn. now rewrite IH'.
  - cbn. now rewrite IH'.
  - destruct (Z.eqb_spec c 34); [lia|]. destruct (Z.eqb_spec c 92); [lia|]. now rewrite IH'.
Qed.

Lemma tokenize_string (s : pystr) :
  ~ In 34 s -> ~ In 92 s ->
  Lexer.tokenize U (dquote ++ escape_string s ++ dquote)
  = [{| Lexer.type := Lexer.STR; Lexer.value := dquote ++ escape_string s ++ dquote;
        Lexer.position := 0 |}].
Proof.
  intros Hq Hb. rewrite (escape_string_flat_map s Hb). unfold dquote, Lexer.tokenize.
  cbn [app length Lexer.tokenize_from]. unfold Lexer.scan.
  rewrite (read_string_escaped s Hq Hb). cbn.
  now destruct (length (flat_map escaped s ++ [34])).
Qed.

(** X24.  A String prints as it reads when it holds no double quote and
    no backslash: its printed form, read as a program, parses to the
    String itself, line breaks and tabs included, and evaluates to the
    same printed form. *)
Theorem string_prints_as_it_reads (fuel : nat) (s : pystr) :
  ~ In 34 s -> ~ In 92 s ->
  repr (ElfString s) = Ok (dquote ++ escape_string s ++ dquote)
  /\ Parser.parse U (dquote ++ escape_string s ++ dquote) = Ok [SExpression (EString s)]
  /\ evaluate_program U (S fuel) (dquote ++ escape_string s ++ dquote)
     = Some (dquote ++ escape_string s ++ dquote).
Proof.
  intros Hq Hb.
  assert (Hparse : Parser.parse U (dquote ++ escape_string s ++ dquote)
                   = Ok [SExpression (EString s)]).
  { unfold Parser.parse. rewrite (tokenize_string s Hq Hb).
    transitivity (Ok (A := list stmt) [SExpression (EString
                    (Parser.unescape (dquote ++ escape_string s ++ dquote)))]);
      [reflexivity | now rewrite (unescape_escape s Hq Hb)]. }
  split; [reflexivity|]. split; [exact Hparse|].
  unfold evaluate_program, Program.evaluate_program. rewrite Hparse. cbn. now rewrite app_nil_r.
Qed.

End StringLiterals.

(** The String of [a], a line break and [b] prints as ["a\nb"], and that
    text evaluates to itself. *)
Lemma string_prints_as_it_reads_witness :
  evaluate_program ascii_db 1 (dquote ++ escape_string [97; 10; 98] ++ dquote)
  = Some (dquote ++ py "a\nb" ++ dquote).
Proof.
  apply (string_prints_as_it_reads ascii_db 0 [97; 10; 98]).
  - intros [H|[H|[H|[]]]]; discriminate.
  - intros [H|[H|[H|[]]]]; discriminate.
Defined.

(** ** The printed form of a Set (ElfSet.__repr__) *)

Section SortedUnique.
Context {A : Type}.
Variable le : A -> A -> Prop.

Lemma strongly_sorted_unique (l1 l2 : list A) :
  (forall a b, In a l1 -> In b l1 -> le a b -> le b a -> a = b) ->
  StronglySorted le l1 -> StronglySorted le l2 -> Permutation l1 l2 -> l1 = l2.
Proof.
  revert l2. induction l1 as [|x t1 IH]; intros l2 Hanti H1 H2 Hp.
  - now apply Permutation_nil in Hp.
  - destruct l2 as [|y t2]; [now apply Permutation_sym, Permutation_nil in Hp|].
    inversion H1 as [|? ? Hs1 Hx]; subst. inversion H2 as [|? ? Hs2 Hy]; subst.
    rewrite Forall_forall in Hx, Hy.
    assert (Hxy : x = y).
    { assert (Hxin : In x (y :: t2)) by (apply (Permutation_in _ Hp); now left).
      assert (Hyin : In y (x :: t1))
        by (apply (Permutation_in _ (Permutation_sym Hp)); now left).
      destruct Hxin as [->|Hxin]; [reflexivity|].
      destruct Hyin as [->|Hyin]; [reflexivity|].
      apply Hanti; [now left | now right | now apply Hx | now apply Hy]. }
    subst y. f_equal. apply IH; try assumption.
    + intros a b Ha Hb. apply Hanti; now right.
    + now apply Permutation_cons_inv in Hp.
Qed.

End SortedUnique.

Lemma pystr_ltb_total (a b : pystr) : pystr_ltb a b = false -> pystr_ltb b a = false -> a = b.
Proof.
  revert b. induction a as [|x a IH]; intros [|y b]; simpl; try easy.
  intros H1 H2. apply orb_false_iff in H1, H2. destruct H1 as [Hxy H1], H2 as [Hyx H2].
  apply Z.ltb_ge in Hxy, Hyx. assert (x = y) by lia. subst y.
  rewrite Z.eqb_refl in H1, H2. simpl in H1, H2. f_equal. now apply IH.
Qed.

Lemma scalar_key_total (a b : value) :
  is_scalar a = true -> is_scalar b = true ->
  key_ltb (scalar_key a) (scalar_key b) = false ->
  key_ltb (scalar_key b) (scalar_key a) = false -> a = b.
Proof.
  destruct a, b; simpl; try discriminate; intros _ _ H1 H2.
  - apply Z.ltb_ge in H1, H2. f_equal. lia.
  - f_equal. now apply pystr_ltb_total.
  - now destruct v, v0.
  - reflexivity.
Qed.

Lemma scalar_keys (items : list value) :
  Forall (fun v => is_scalar v = true) items ->
  sequence (map (fun x => sort_key_of x (repr x)) items) = Ok (map scalar_key items).
Proof.
  induction 1 as [|v items Hv Hitems IH]; [reflexivity|].
  cbn [map sequence]. rewrite IH. now destruct v.
Qed.

Lemma scalar_key_ordered (v : value) : ordered_key (scalar_key v).
Proof. destruct v; discriminate. Qed.

(** X25.  The printed form of a Set of Integers, Strings, Booleans and
    Nil does not depend on the order its items were put in: two Sets
    with the same items in any order print the same text. *)
Theorem set_prints_in_one_order (items items' : list value) :
  Forall (fun v => is_scalar v = true) items ->
  Permutation items items' ->
  repr (ElfSet items) = repr (ElfSet items').
Proof.
  intros Hs Hp.
  assert (Hs' : Forall (fun v => is_scalar v = true) items')
    by (apply (Permutation_Forall Hp Hs)).
  cbn [repr]. rewrite (scalar_keys items Hs), (scalar_keys items' Hs'). cbn [rbind].
  rewrite !ordered_keys
    by (apply Forall_map, Forall_forall; intros v _; apply scalar_key_ordered).
  replace (sorted_by_key (combine (map scalar_key items') (map repr items')))
    with (sorted_by_key (combine (map scalar_key items) (map repr items))); [reflexivity|].
  assert (Hcombine : forall l : list value,
            combine (map scalar_key l) (map repr l) = map (fun v => (scalar_key v, repr v)) l)
    by (induction l as [|v l IH]; simpl; [reflexivity | now rewrite IH]).
  rewrite !Hcombine.
  set (pair := fun v : value => (scalar_key v, repr v)).
  assert (Hsorted : forall l, Forall (fun v => is_scalar v = true) l ->
            StronglySorted (fun a b : key * result pystr => key_ltb (fst b) (fst a) = false)
              (sorted_by_key (map pair l))).
  { intros l Hl.
    apply (sorted_strongly (fun a b : key * result pystr => key_ltb (fst a) (fst b))
             (fun p => ordered_key (fst p))).
    - intros a b. apply key_ltb_asym.
    - intros a b c. apply key_le_trans.
    - apply Forall_map, Forall_forall. intros v _. apply scalar_key_ordered. }
  apply (strongly_sorted_unique
           (fun a b : key * result pystr => key_ltb (fst b) (fst a) = false)).
  - intros a b Ha Hb Hab Hba.
    apply (Permutation_in _ (sorted_perm _ _)) in Ha, Hb.
    apply in_map_iff in Ha, Hb. destruct Ha as (va & <- & Hva), Hb as (vb & <- & Hvb).
    rewrite Forall_forall in Hs. unfold pair in *. cbn [fst] in Hab, Hba.
    now rewrite (scalar_key_total va vb (Hs va Hva) (Hs vb Hvb) Hba Hab).
  - now apply Hsorted.
  - now apply Hsorted.
  - eapply Permutation_trans; [apply sorted_perm|].
    eapply Permutation_trans; [apply Permutation_map, Hp|].
    apply Permutation_sym, sorted_perm.
Qed.

(** [{3, "a", 1}] and [{1, 3, "a"}] print the same. *)
Lemma set_prints_in_one_order_witness :
  repr (ElfSet [ElfInteger 3; ElfString (py "a"); ElfInteger 1])
  = repr (ElfSet [ElfInteger 1; ElfInteger 3; ElfString (py "a")]).
Proof.
  apply set_prints_in_one_order.
  - repeat constructor.
  - apply Permutation_sym.
    apply (perm_trans (l' := [ElfInteger 3; ElfInteger 1; ElfString (py "a")]));
      [apply perm_swap | apply perm_skip, perm_swap].
Defined.

(** ** Integer division below 2^53 (divide_values) *)

Lemma round_half_even_near (num den : Z) :
  0 < den ->
  round_half_even num den = num / den
  \/ (round_half_even num den = num / den + 1 /\ den <= 2 * (num mod den)).
Proof.
  intros Hd. unfold round_half_even.
  destruct (Z.ltb_spec (2 * (num mod den)) den); [now left|].
  destruct (Z.ltb_spec den (2 * (num mod den))); [right; split; [reflexivity | lia]|].
  destruct (Z.even (num / den)); [now left | right; split; [reflexivity | lia]].
Qed.

(** The binade is not above the quotient. *)
Lemma binade_lower (n d : Z) :
  0 < n -> 0 < d -> 0 <= binade n d -> d * 2 ^ binade n d <= n.
Proof.
  intros Hn Hd. unfold binade.
  set (k := Z.log2 n - Z.log2 d).
  destruct (ge_pow2 n d k) eqn:E.
  - intros Hk. unfold ge_pow2 in E. destruct (Z.leb_spec 0 k); [|lia]. now apply Z.leb_le.
  - intros Hk.
    pose proof (Z.log2_spec n Hn) as [Hn1 _]. pose proof (Z.log2_spec d Hd) as [_ Hd2].
    pose proof (Z.log2_nonneg d) as Hld.
    assert (Hpow : 2 ^ Z.log2 n = 2 ^ (k - 1) * 2 ^ Z.succ (Z.log2 d))
      by (rewrite <- Z.pow_add_r by lia; f_equal; lia).
    assert (Hp : 0 < 2 ^ (k - 1)) by (apply Z.pow_pos_nonneg; lia).
    nia.
Qed.

Lemma binade_bounds (n d : Z) :
  0 < n < 2 ^ 53 -> 0 < d < 2 ^ 53 -> -53 <= binade n d <= 52.
Proof.
  intros [Hn Hn53] [Hd Hd53]. unfold binade.
  assert (Hln : 0 <= Z.log2 n <= 52).
  { split; [apply Z.log2_nonneg|]. assert (Z.log2 n < 53); [|lia].
    apply Z.log2_lt_pow2; lia. }
  assert (Hld : 0 <= Z.log2 d <= 52).
  { split; [apply Z.log2_nonneg|]. assert (Z.log2 d < 53); [|lia].
    apply Z.log2_lt_pow2; lia. }
  destruct (ge_pow2 n d (Z.log2 n - Z.log2 d)); lia.
Qed.

Lemma round_binary64_floor (n d : Z) :
  0 <= n < 2 ^ 53 -> 0 < d < 2 ^ 53 ->
  exists m e, round_binary64 n d = Some (m, e) /\ float_floor m e = n / d.
Proof.
  intros [Hn Hn53] [Hd Hd53]. unfold round_binary64.
  destruct (Z.eqb_spec n 0) as [->|Hn0].
  { exists 0, 0. split; [reflexivity|]. unfold float_floor. simpl. now rewrite Z.div_0_l by lia. }
  pose proof (binade_bounds n d ltac:(lia) ltac:(lia)) as Hk.
  pose proof (binade_lower n d ltac:(lia) Hd) as Hlow.
  set (k := binade n d) in *.
  replace (Z.max (k - 52) (-1074)) with (k - 52) by lia.
  set (s := 52 - k). assert (Hs : 0 <= s) by lia.
  assert (HT : 0 < 2 ^ s) by (apply Z.pow_pos_nonneg; lia).
  assert (Hm : (if 0 <=? k - 52 then round_half_even n (d * 2 ^ (k - 52))
                else round_half_even (n * 2 ^ (- (k - 52))) d)
               = round_half_even (n * 2 ^ s) d).
  { destruct (Z.leb_spec 0 (k - 52)).
    - assert (k = 52) by lia. subst s. replace (k - 52) with 0 by lia.
      replace (52 - k) with 0 by lia. now rewrite !Z.mul_1_r.
    - f_equal. f_equal. f_equal. subst s. lia. }
  rewrite Hm. clear Hm.
  set (T := 2 ^ s) in *. set (N := n * T).
  assert (HdT : d < 2 * T).
  { destruct (Z.leb_spec 0 k) as [Hk0|Hk0].
    - specialize (Hlow Hk0).
      assert (Hpow : 2 ^ 53 = 2 ^ k * (2 * T)).
      { subst T s. rewrite <- (Z.pow_succ_r 2 (52 - k)) by lia.
        rewrite <- Z.pow_add_r by lia. f_equal. lia. }
      assert (0 < 2 ^ k) by (apply Z.pow_pos_nonneg; lia). nia.
    - assert (2 ^ 53 <= T); [|lia]. subst T s. apply Z.pow_le_mono_r; lia. }
  assert (Hq : N / d / T = n / d).
  { rewrite Z.div_div by lia. subst N. now rewrite Z.div_mul_cancel_r by lia. }
  assert (Hfl : 0 <= N / d) by (apply Z.div_pos; subst N; nia).
  assert (Hround : round_half_even N d / T = n / d).
  { destruct (round_half_even_near N d Hd) as [->|[-> Hup]]; [exact Hq|].
    symmetry. apply Z.div_unique_pos with (r := (N / d + 1) - (n / d) * T).
    - pose proof (Z.div_mod N d ltac:(lia)) as HN.
      pose proof (Z.mod_pos_bound N d Hd) as Hr.
      pose proof (Z.div_mod n d ltac:(lia)) as Hnd.
      pose proof (Z.mod_pos_bound n d Hd) as Hr0.
      pose proof (Z.div_mod (N / d) T ltac:(lia)) as Hfd.
      pose proof (Z.mod_pos_bound (N / d) T HT) as Hrf.
      rewrite Hq in Hfd.
      assert (Hq0 : 0 <= n / d) by (apply Z.div_pos; lia).
      split; [nia|].
      (* the quotient is not one below a multiple of T when it rounds up *)
      destruct (Z.eq_dec (N / d mod T) (T - 1)) as [Hlast|Hnot]; [|lia].
      exfalso. subst N. nia.
    - lia. }
  set (m := round_half_even N d) in *.
  assert (Hm0 : 0 <= m).
  { subst m. destruct (round_half_even_near N d Hd) as [->|[-> _]]; lia. }
  assert (Hfloor : forall m', 0 <= m' -> float_floor m' (k - 52) = m' / T).
  { intros m' Hm'. unfold float_floor. destruct (Z.leb_spec 0 (k - 52)).
    - assert (Hs0 : s = 0) by lia. subst T. rewrite Hs0. replace (k - 52) with 0 by lia.
      simpl. now rewrite Z.mul_1_r, Z.div_1_r.
    - subst T s. do 2 f_equal. lia. }
  destruct (Z.eqb_spec m (2 ^ 53)) as [Hbig|Hsmall].
  - exists (2 ^ 52), (k - 52 + 1). split.
    + destruct (Z.ltb_spec 971 (k - 52 + 1)); [lia|]. reflexivity.
    + rewrite <- Hround, Hbig. unfold float_floor.
      destruct (Z.leb_spec 0 (k - 52 + 1)).
      * assert (Hs1 : s = 0 \/ s = 1) by lia. subst T.
        destruct Hs1 as [Hs1|Hs1]; rewrite Hs1.
        -- replace (k - 52 + 1) with 1 by lia. reflexivity.
        -- replace (k - 52 + 1) with 0 by lia. reflexivity.
      * subst T. replace (- (k - 52 + 1)) with (s - 1) by lia.
        replace (2 ^ 53) with (2 ^ 52 * 2) by reflexivity.
        replace s with (Z.succ (s - 1)) at 2 by lia.
        rewrite Z.pow_succ_r by lia. rewrite (Z.mul_comm 2).
        rewrite Z.div_mul_cancel_r; [reflexivity | | lia].
        apply Z.pow_nonzero; lia.
  - destruct (Z.ltb_spec 971 (k - 52)); [lia|].
    destruct (Z.eqb_spec m 0) as [Hz|Hnz].
    + exists 0, 0. split; [reflexivity|]. rewrite <- Hround, Hz.
      unfold float_floor. simpl. now rewrite Z.div_0_l by lia.
    + exists m, (k - 52). split; [reflexivity|]. now rewrite Hfloor.
Qed.

(** X28.  On Integers of magnitude below 2^53 (where every operand is a
    float exactly) the division [/] is exact: it gives the quotient
    truncated toward zero. *)
Theorem integer_division_truncates (a b : Z) :
  Z.abs a < 2 ^ 53 -> Z.abs b < 2 ^ 53 -> b <> 0 ->
  divide_values (ElfInteger a) (ElfInteger b) = Ok (ElfInteger (Z.quot a b)).
Proof.
  intros Ha Hb Hb0. unfold divide_values.
  destruct (Z.eqb_spec b 0); [contradiction|].
  destruct (round_binary64_floor (Z.abs a) (Z.abs b)) as (m & e & Hr & Hf); [lia | lia |].
  unfold int_true_div. rewrite Hr. cbn [rbind int_of_float].
  fold (float_floor m e). rewrite Hf. do 2 f_equal.
  rewrite (Z.quot_div a b) by assumption.
  destruct (Z.ltb_spec a 0), (Z.ltb_spec b 0); cbn [xorb].
  - rewrite (Z.sgn_neg a), (Z.sgn_neg b) by lia. lia.
  - rewrite (Z.sgn_neg a), (Z.sgn_pos b) by lia. lia.
  - destruct (Z.eq_dec a 0) as [->|].
    + reflexivity.
    + rewrite (Z.sgn_pos a), (Z.sgn_neg b) by lia. lia.
  - destruct (Z.eq_dec a 0) as [->|].
    + reflexivity.
    + rewrite (Z.sgn_pos a), (Z.sgn_pos b) by lia. lia.
Qed.

(** The hypotheses hold of [-7 / 2], which is [-3]. *)
Lemma integer_division_truncates_witness :
  divide_values (ElfInteger (-7)) (ElfInteger 2) = Ok (ElfInteger (-3)).
Proof. apply (integer_division_truncates (-7) 2); [reflexivity | reflexivity | discriminate]. Defined.

(** ** Precedence and associativity (parse_addition, parse_multiplication) *)

Section Precedence.
Import Lexer Parser.
Variable U : unicode_db.
Variable parse_expression : P expr.

Lemma parse_unary_operand (t : Token) (ts : list Token) :
  is_operand t = true -> ends_or_has_type [PLUS; MINUS; MULTIPLY; DIVIDE] ts ->
  parse_unary U parse_expression (t :: ts) = Ok (operand_expr t, ts).
Proof.
  intros Ht Hts. unfold parse_unary, is_operand, operand_expr in *.
  cbn [length unary_loop].
  destruct t as [ty v p]; cbn [type value] in *.
  destruct ty; try discriminate; cbn.
  all: destruct ts as [|t' ts']; [reflexivity|]; cbn in Hts |- *;
    unfold has_type in Hts; cbn in Hts;
    destruct (type t'); try discriminate; reflexivity.
Qed.

(** The loop of a level folds the operands it is given from the left. *)
Lemma infix_loop_steps {T : Type} (operators : list TokenType) (operand : P expr)
  (operand_tokens : T -> list Token) (step_expr : T -> expr)
  (steps : list (Token * T)) (rest : list Token) :
  Forall (fun s => has_type operators (fst s) = true) steps ->
  (forall s tail, In s steps ->
     tail = rest \/ (exists t tail', tail = t :: tail' /\ has_type operators t = true) ->
     operand (operand_tokens (snd s) ++ tail) = Ok (step_expr (snd s), tail)) ->
  match rest with [] => True | t :: _ => has_type operators t = false end ->
  forall rounds left, (length steps <= rounds)%nat ->
  infix_loop rounds operators operand left
    (flat_map (fun s => fst s :: operand_tokens (snd s)) steps ++ rest)
  = Ok (fold_left (fun l s => EInfix (value (fst s)) l (step_expr (snd s))) steps left, rest).
Proof.
  intros Hops Hoperand Hrest.
  induction steps as [|s steps IH]; intros rounds left Hrounds.
  - cbn. destruct rest as [|t rest']; [now destruct rounds|].
    destruct rounds; cbn; unfold has_type in Hrest; now rewrite Hrest.
  - destruct rounds as [|rounds]; [cbn in Hrounds; lia|].
    inversion Hops as [|? ? Hop Hops']; subst.
    cbn [flat_map app infix_loop].
    unfold has_type in Hop. rewrite Hop.
    unfold pbind. rewrite <- app_assoc, Hoperand; [| now left |].
    + cbn [rbind fst snd].
      rewrite IH; [reflexivity | assumption | | cbn in Hrounds; lia].
      intros s' tail Hin Htail. apply Hoperand; [now right | assumption].
    + destruct steps as [|s2 steps']; [now left|]. right.
      inversion Hops' as [|? ? Hop2 _]; subst. cbn. eauto.
Qed.

Lemma steps_length {T : Type} (operand_tokens : T -> list Token) (steps : list (Token * T))
  (rest : list Token) :
  (length steps
   <= length (flat_map (fun s => fst s :: operand_tokens (snd s)) steps ++ rest))%nat.
Proof.
  induction steps as [|s steps IH]; cbn [flat_map app length]; [lia|].
  rewrite !length_app in *. lia.
Qed.

Lemma parse_multiplication_product (p : product) (ts : list Token) :
  product_ok p = true -> ends_or_has_type [PLUS; MINUS] ts ->
  parse_multiplication U parse_expression (product_tokens p ++ ts) = Ok (product_expr p, ts).
Proof.
  destruct p as [t0 steps]. unfold product_ok, product_tokens, product_expr. cbn [fst snd].
  intros Hok Hts. apply andb_true_iff in Hok as [H0 Hsteps].
  rewrite forallb_forall in Hsteps.
  assert (Hops : Forall (fun s : Token * Token => has_type [MULTIPLY; DIVIDE] (fst s) = true) steps).
  { apply Forall_forall. intros s Hs. specialize (Hsteps s Hs).
    now apply andb_true_iff in Hsteps as [? _]. }
  assert (Hrest : match ts with [] => True | t :: _ => has_type [MULTIPLY; DIVIDE] t = false end).
  { destruct ts as [|t ts']; [exact I|]. cbn in Hts. unfold has_type in *. cbn in *.
    destruct (type t); try discriminate; reflexivity. }
  assert (Hfollow : ends_or_has_type [PLUS; MINUS; MULTIPLY; DIVIDE]
                      (flat_map (fun s : Token * Token => [fst s; snd s]) steps ++ ts)).
  { destruct steps as [|s steps'].
    - cbn. destruct ts as [|t ts']; [exact I|]. cbn in Hts |- *. unfold has_type in *.
      cbn in *. destruct (type t); try discriminate; reflexivity.
    - cbn. inversion Hops as [|? ? Hop _]; subst. unfold has_type in *. cbn in *.
      destruct (type (fst s)); try discriminate; reflexivity. }
  unfold parse_multiplication, infix_level, pbind.
  cbn [app]. rewrite parse_unary_operand by assumption. cbn [rbind fst snd].
  apply (infix_loop_steps [MULTIPLY; DIVIDE] (parse_unary U parse_expression)
           (fun t => [t]) operand_expr steps ts Hops); [| exact Hrest |].
  - intros s tail Hs Htail. specialize (Hsteps s Hs).
    apply andb_true_iff in Hsteps as [_ Hoperand].
    apply parse_unary_operand; [assumption|].
    destruct Htail as [->|(t & tail' & -> & Ht)].
    + destruct ts as [|t ts']; [exact I|]. cbn in Hts |- *. unfold has_type in *.
      cbn in *. destruct (type t); try discriminate; reflexivity.
    + cbn. unfold has_type in *. cbn in *. destruct (type t); try discriminate; reflexivity.
  - apply (steps_length (fun t => [t])).
Qed.

Lemma parse_addition_sum (s : sum_of_products) :
  sum_ok s = true ->
  parse_addition U parse_expression (sum_tokens s) = Ok (sum_expr s, []).
Proof.
  destruct s as [p0 steps]. unfold sum_ok, sum_tokens, sum_expr. cbn [fst snd].
  intros Hok. apply andb_true_iff in Hok as [H0 Hsteps].
  rewrite forallb_forall in Hsteps.
  assert (Hops : Forall (fun t : Token * product => has_type [PLUS; MINUS] (fst t) = true) steps).
  { apply Forall_forall. intros t Ht. specialize (Hsteps t Ht).
    now apply andb_true_iff in Hsteps as [? _]. }
  unfold parse_addition, infix_level, pbind.
  rewrite parse_multiplication_product; [| assumption |].
  - cbn [rbind fst snd].
    rewrite <- (app_nil_r (flat_map _ steps)).
    apply (infix_loop_steps [PLUS; MINUS] (parse_multiplication U parse_expression)
             product_tokens product_expr steps [] Hops); [| exact I |].
    + intros t tail Ht Htail. specialize (Hsteps t Ht).
      apply andb_true_iff in Hsteps as [_ Hp].
      apply parse_multiplication_product; [assumption|].
      destruct Htail as [->|(t' & tail' & -> & Ht')]; [exact I | exact Ht'].
    + apply (steps_length product_tokens).
  - destruct steps as [|t steps']; [exact I|].
    inversion Hops as [|? ? Hop _]; subst. exact Hop.
Qed.

End Precedence.

(** X29.  [*] and [/] bind tighter than [+] and [-], and all four group
    from the left: the tokens of a sum of products of Integer literals
    and identifiers, [a * b / c + d - e * f] and the like, parse to the
    sum, grouped from the left, of the products, each grouped from the
    left, and the parser reads every token. *)
Theorem sum_of_products_parses (U : unicode_db) (depth : nat) (s : sum_of_products) :
  sum_ok s = true ->
  Parser.parse_expression U (S depth) (sum_tokens s) = Ok (sum_expr s, []).
Proof.
  intros Hok. cbn [Parser.parse_expression].
  unfold Parser.parse_threading, Parser.parse_composition, Parser.parse_logical_or,
    Parser.parse_logical_and, Parser.parse_equality, Parser.parse_comparison.
  unfold Parser.infix_level at 1 2 3 4. unfold Parser.pbind.
  rewrite parse_addition_sum by assumption. reflexivity.
Qed.

(** [1 - 2 * 3 - x], as the lexer gives it. *)
Lemma sum_of_products_parses_witness :
  Parser.parse_expression ascii_db 1 (Lexer.tokenize ascii_db (py "1 - 2 * 3 - x"))
  = Ok (EInfix (py "-")
          (EInfix (py "-") (EInteger (py "1"))
             (EInfix (py "*") (EInteger (py "2")) (EInteger (py "3"))))
          (EIdentifier (py "x")), []).
Proof.
  exact (sum_of_products_parses ascii_db 0
           (({| Lexer.type := Lexer.INT; Lexer.value := py "1"; Lexer.position := 0 |}, []),
            [({| Lexer.type := Lexer.MINUS; Lexer.value := py "-"; Lexer.position := 2 |},
              ({| Lexer.type := Lexer.INT; Lexer.value := py "2"; Lexer.position := 4 |},
               [({| Lexer.type := Lexer.MULTIPLY; Lexer.value := py "*"; Lexer.position := 6 |},
                 {| Lexer.type := Lexer.INT; Lexer.value := py "3"; Lexer.position := 8 |})]));
             ({| Lexer.type := Lexer.MINUS; Lexer.value := py "-"; Lexer.position := 10 |},
              ({| Lexer.type := Lexer.ID; Lexer.value := py "x"; Lexer.position := 12 |}, []))])
           eq_refl).
Defined.

(** ** first and rest (builtin_first, builtin_rest) *)

(** X30.  [first] and [rest] take a List apart: [first] is the item at
    index 0, Nil when there is none; index [i] of [rest] finds what
    index [i + 1] of the List finds; and for a List with an item the
    List of [first] followed by [rest] is the List again.  Likewise a
    String with a character is [first] followed by [rest]. *)
Theorem first_and_rest_take_apart (items : list value) (s : pystr) :
  index_value (ElfList items) (ElfInteger 0) = Ok (builtin_first_impl (ElfList items))
  /\ (forall i, 0 <= i ->
        index_value (builtin_rest_impl (ElfList items)) (ElfInteger i)
        = index_value (ElfList items) (ElfInteger (i + 1)))
  /\ (items <> [] ->
        add_values (ElfList [builtin_first_impl (ElfList items)]) (builtin_rest_impl (ElfList items))
        = Ok (ElfList items))
  /\ (s <> [] ->
        add_values (builtin_first_impl (ElfString s)) (builtin_rest_impl (ElfString s))
        = Ok (ElfString s)).
Proof.
  repeat split.
  - destruct items as [|x items]; [reflexivity|].
    cbn. unfold index_seq. cbn [length].
    destruct (Z.ltb_spec 0 (Z.of_nat (S (length items)))); [reflexivity | lia].
  - intros i Hi. cbn. unfold index_seq. f_equal.
    destruct (Z.ltb_spec i 0); [lia|]. destruct (Z.ltb_spec (i + 1) 0); [lia|].
    destruct items as [|x items]; cbn [tl length].
    + destruct (Z.leb_spec 0 i), (Z.leb_spec 0 (i + 1)),
        (Z.ltb_spec i (Z.of_nat 0)), (Z.ltb_spec (i + 1) (Z.of_nat 0)); cbn; try lia; reflexivity.
    + replace (Z.to_nat (i + 1)) with (S (Z.to_nat i)) by lia. cbn [nth_error].
      destruct (Z.leb_spec 0 i), (Z.leb_spec 0 (i + 1)),
        (Z.ltb_spec i (Z.of_nat (length items))),
        (Z.ltb_spec (i + 1) (Z.of_nat (S (length items)))); cbn [andb]; try lia; reflexivity.
  - intros Hne. destruct items as [|x items]; [contradiction | reflexivity].
  - intros Hne. destruct s as [|c s]; [contradiction | reflexivity].
Qed.
